(** * chainit / chainiter: lazy, chainable iterator wrappers

    A shallow embedding of [chainit/klass.py], [chainiter/klass.py] and the two
    decorator modules.  Python iterators are stateful, single-pass and shared
    by reference, so the embedding keeps an explicit object store: every
    iterator object lives in a cell of the store, the classes hold references
    to cells, and pulling an element rewrites the cells it goes through.
    Loops that need not terminate (draining an endless generator, skipping in
    [filter]) are cut off by a fuel argument; a run that needs more fuel has
    no result. *)

From stdpp Require Import list strings.
From Stdlib Require Import ZArith Lia.

Local Open Scope Z_scope.
Local Open Scope list_scope.
Local Set Warnings "-register-all".

(** ** Python values *)

(** The element values of the sequences.  [VSet] stands for [set]
    ([frozen = false]) and [frozenset] ([frozen = true]); its list holds the
    members without repetition, in an order that no operation observes. *)
Inductive value : Type :=
| VNone
| VBool (b : bool)
| VInt (z : Z)
| VStr (s : string)
| VTuple (items : list value)
| VList (items : list value)
| VSet (frozen : bool) (items : list value).

(** Truth value testing, as [if x:] and [PyObject_IsTrue] do it. *)
Definition truthy (v : value) : bool :=
  match v with
  | VNone => false
  | VBool b => b
  | VInt z => negb (z =? 0)
  | VStr s => negb (String.eqb s "")
  | VTuple l | VList l | VSet _ l => negb (Nat.eqb (length l) 0)
  end.

(** Python's [==] on these values: [True == 1], a set equals a frozenset with
    the same members, and a tuple never equals a list. *)
Fixpoint py_eqb (a b : value) {struct a} : bool :=
  let fix eq_items (xs ys : list value) {struct xs} : bool :=
    match xs, ys with
    | [], [] => true
    | x :: xs', y :: ys' => py_eqb x y && eq_items xs' ys'
    | _, _ => false
    end in
  match a, b with
  | VNone, VNone => true
  | VBool x, VBool y => Bool.eqb x y
  | VBool x, VInt y => Z.b2z x =? y
  | VInt x, VBool y => x =? Z.b2z y
  | VInt x, VInt y => x =? y
  | VStr x, VStr y => String.eqb x y
  | VTuple xs, VTuple ys => eq_items xs ys
  | VList xs, VList ys => eq_items xs ys
  | VSet _ xs, VSet _ ys =>
      Nat.eqb (length xs) (length ys)
      && forallb (fun x => existsb (py_eqb x) ys) xs
  | _, _ => false
  end.

(** Which values have a hash (can be members of a set). *)
Fixpoint hashable (v : value) : bool :=
  match v with
  | VNone | VBool _ | VInt _ | VStr _ => true
  | VTuple l => forallb hashable l
  | VList _ => false
  | VSet frozen _ => frozen
  end.

(** ** Exceptions and results *)

Inductive exn : Type :=
| StopIteration
| TypeError
| ValueError
| RuntimeError
| UserError (code : nat).

Inductive res (A : Type) : Type :=
| Ok (a : A)
| Raise (e : exn).
Arguments Ok {A} a.
Arguments Raise {A} e.

(** Caller-supplied functions are pure with respect to the store; they
    return a value or raise. *)
Definition callable : Type := value -> res value.
Definition callable2 : Type := value -> value -> res value.

(** ** The object store *)

(** References are the indices of the cells. *)
Abbreviation ref := nat (only parsing).

(** The two classes of the repository. *)
Inductive klass : Type := KChainIt | KChainIter.

(** Iterator objects.  Every constructor is an iterator: [iter(o)] is [o]. *)
Inductive obj : Type :=
| ListIter (rest : list value)
    (* iterator over a finite container; [rest] is what it has yet to give *)
| GenFun (f : nat -> value) (pos : nat)
    (* an endless generator function: its [i]-th element is [f i] *)
| GenExpr (it : ref) (finished : bool)
    (* [(x for x in iterable)] *)
| FilterMapGen (fn : callable) (it : ref) (finished : bool)
    (* [(result for elem in it if (result := fn(elem)) is not None)] *)
| MapObj (fn : callable) (it : ref)
| FilterObj (fn : callable) (it : ref)
| ChainObj (source : option ref) (active : option (list value))
    (* [itertools.chain.from_iterable]; the active inner iterator is private
       to the chain object, so its remaining items are kept in place *)
| EnumerateObj (it : ref) (count : Z)
| IsliceObj (it : option ref) (cnt stop : Z)
| TakewhileObj (fn : callable) (it : ref) (stop : bool)
| ZipObj (it1 it2 : ref)
| ZipLongestObj (it1 it2 : option ref) (numactive : nat)
| Instance (cls : klass) (_iter : ref).
    (* a [ChainIt] or [ChainIter] object with its single slot [_iter] *)

Abbreviation heap := (list obj) (only parsing).

(** ** The monad of store-passing computations

    [None] is a run without a result (the fuel ran out, or a reference
    points at no cell); otherwise the run returns or raises, and leaves a
    store either way. *)
Definition M (A : Type) : Type := heap -> option (res A * heap).

Definition ret {A} (a : A) : M A := fun h => Some (Ok a, h).
Definition raise {A} (e : exn) : M A := fun h => Some (Raise e, h).
Definition lift {A} (r : res A) : M A := fun h => Some (r, h).
Definition stuck {A} : M A := fun _ => None.

Definition bind {A B} (m : M A) (k : A -> M B) : M B :=
  fun h =>
    match m h with
    | None => None
    | Some (Ok a, h') => k a h'
    | Some (Raise e, h') => Some (Raise e, h')
    end.

(** [try: m  except e: k e] *)
Definition catch {A} (m : M A) (k : exn -> M A) : M A :=
  fun h =>
    match m h with
    | None => None
    | Some (Ok a, h') => Some (Ok a, h')
    | Some (Raise e, h') => k e h'
    end.

Notation "'let*' x ':=' m 'in' k" := (bind m (fun x => k))
  (at level 10, x name, m at level 100, k at level 200).
Notation "m '>>' k" := (bind m (fun _ => k))
  (at level 100, k at level 200, right associativity).

Definition deref (r : ref) : M obj :=
  fun h => match h !! r with Some o => Some (Ok o, h) | None => None end.

Definition store (r : ref) (o : obj) : M unit :=
  fun h => if decide (r < length h)%nat then Some (Ok tt, <[r:=o]> h) else None.

Definition alloc (o : obj) : M ref :=
  fun h => Some (Ok (length h), h ++ [o]).

(** ** Pulling one element: [next(o)]

    The built-in iterators follow CPython.  A generator that has raised or
    returned is finished for good; [islice] and [takewhile] remember that
    they stopped; [zip_longest] drops an exhausted side and fills with
    [None]. *)

(** [iter(v)] for a value that a caller's function returned. *)
Definition chars (s : string) : list value :=
  map (fun c => VStr (String c EmptyString)) (String.list_ascii_of_string s).

Definition iter_value (v : value) : res (list value) :=
  match v with
  | VStr s => Ok (chars s)
  | VTuple l | VList l | VSet _ l => Ok l
  | VNone | VBool _ | VInt _ => Raise TypeError
  end.

(** One slot of [zip_longest]: the item for the tuple with the slot and
    the count of active iterators afterwards, or the exception that ends
    the whole [zip_longest]. *)
Inductive zl_step : Type :=
| ZItem (v : value) (slot : option ref) (numactive : nat)
| ZStop (e : exn).

Definition zl_item (nx : ref -> M value) (slot : option ref) (numactive : nat)
  : M zl_step :=
  match slot with
  | None => ret (ZItem VNone None numactive)
  | Some it =>
      catch (let* x := nx it in ret (ZItem x (Some it) numactive))
        (fun e =>
           match e with
           | StopIteration =>
               if Nat.eqb (numactive - 1)%nat 0 then ret (ZStop StopIteration)
               else ret (ZItem VNone None (numactive - 1)%nat)
           | _ => ret (ZStop e)
           end)
  end.

(** [next(o)] for the object [o] in cell [r]; [nx] pulls from the
    iterators that [o] refers to, and from [o] again where it loops. *)
Definition next_obj (nx : ref -> M value) (r : ref) (o : obj) : M value :=
    match o with
    | ListIter [] => raise StopIteration
    | ListIter (x :: l) => store r (ListIter l) >> ret x
    | GenFun f i => store r (GenFun f (S i)) >> ret (f i)
    | GenExpr it true => raise StopIteration
    | GenExpr it false =>
        catch (nx it) (fun e => store r (GenExpr it true) >> raise e)
    | FilterMapGen fn it true => raise StopIteration
    | FilterMapGen fn it false =>
        let* elem :=
          catch (nx it)
            (fun e => store r (FilterMapGen fn it true) >> raise e) in
        match fn elem with
        | Ok VNone => nx r
        | Ok result => ret result
        | Raise StopIteration =>
            store r (FilterMapGen fn it true) >> raise RuntimeError
        | Raise e => store r (FilterMapGen fn it true) >> raise e
        end
    | MapObj fn it =>
        let* x := nx it in lift (fn x)
    | FilterObj fn it =>
        let* x := nx it in
        let* good := lift (fn x) in
        if truthy good then ret x else nx r
    | ChainObj None _ => raise StopIteration
    | ChainObj (Some src) None =>
        let* v :=
          catch (nx src) (fun e => store r (ChainObj None None) >> raise e) in
        match iter_value v with
        | Ok l => store r (ChainObj (Some src) (Some l)) >> nx r
        | Raise e => store r (ChainObj None None) >> raise e
        end
    | ChainObj (Some src) (Some []) =>
        store r (ChainObj (Some src) None) >> nx r
    | ChainObj (Some src) (Some (x :: l)) =>
        store r (ChainObj (Some src) (Some l)) >> ret x
    | EnumerateObj it count =>
        let* x := nx it in
        store r (EnumerateObj it (count + 1)) >> ret (VTuple [VInt count; x])
    | IsliceObj None _ _ => raise StopIteration
    | IsliceObj (Some it) cnt stop =>
        if stop <=? cnt then store r (IsliceObj None cnt stop) >> raise StopIteration
        else
          let* x :=
            catch (nx it)
              (fun e => store r (IsliceObj None cnt stop) >> raise e) in
          store r (IsliceObj (Some it) (cnt + 1) stop) >> ret x
    | TakewhileObj fn it true => raise StopIteration
    | TakewhileObj fn it false =>
        let* x := nx it in
        let* good := lift (fn x) in
        if truthy good then ret x
        else store r (TakewhileObj fn it true) >> raise StopIteration
    | ZipObj it1 it2 =>
        let* x := nx it1 in
        let* y := nx it2 in
        ret (VTuple [x; y])
    | ZipLongestObj s1 s2 numactive =>
        if Nat.eqb numactive 0 then raise StopIteration
        else
          let* p1 := zl_item nx s1 numactive in
          match p1 with
          | ZStop e => store r (ZipLongestObj s1 s2 0) >> raise e
          | ZItem x s1' na1 =>
              store r (ZipLongestObj s1' s2 na1) >>
              let* p2 := zl_item nx s2 na1 in
              match p2 with
              | ZStop e => store r (ZipLongestObj s1' s2 0) >> raise e
              | ZItem y s2' na2 =>
                  store r (ZipLongestObj s1' s2' na2) >> ret (VTuple [x; y])
              end
          end
    | Instance KChainIt it => nx it     (* ChainIt.__next__ *)
    | Instance KChainIter it => nx it   (* ChainIter.__next__ *)
    end.

Fixpoint next (fuel : nat) (r : ref) {struct fuel} : M value :=
  match fuel with
  | O => stuck
  | S n => let* o := deref r in next_obj (next n) r o
  end.

(** ** Built-ins that the classes call *)

(** What a caller may pass as an iterable: a finite container (list, tuple,
    string, range) with its elements, a fresh endless generator, or an
    iterator object that already lives in the store. *)
Inductive iterable : Type :=
| IterList (l : list value)
| IterGen (f : nat -> value)
| IterRef (r : ref).

(** [iter(x)]: a container gets a new iterator, an iterator is returned as
    it is. *)
Definition builtin_iter (x : iterable) : M ref :=
  match x with
  | IterList l => alloc (ListIter l)
  | IterGen f => alloc (GenFun f 0)
  | IterRef r => deref r >> ret r
  end.

(** One round of a [for] loop: [None] when the iterator is exhausted. *)
Definition for_next (fuel : nat) (it : ref) : M (option value) :=
  catch (let* x := next fuel it in ret (Some x))
    (fun e => match e with StopIteration => ret None | _ => raise e end).

(** [tuple(it)] and [list(it)]: pull until [StopIteration]. *)
Fixpoint drain (fuel : nat) (it : ref) {struct fuel} : M (list value) :=
  match fuel with
  | O => stuck
  | S n =>
      let* o := for_next n it in
      match o with
      | None => ret []
      | Some x => let* l := drain n it in ret (x :: l)
      end
  end.

(** [set(it)] and [frozenset(it)]: a member that has no hash is a
    [TypeError]; an equal member is kept once. *)
Definition set_add (x : value) (s : list value) : list value :=
  if existsb (py_eqb x) s then s else s ++ [x].

Fixpoint drain_set (fuel : nat) (it : ref) (acc : list value) {struct fuel}
  : M (list value) :=
  match fuel with
  | O => stuck
  | S n =>
      let* o := for_next n it in
      match o with
      | None => ret acc
      | Some x =>
          if hashable x then drain_set n it (set_add x acc) else raise TypeError
      end
  end.

(** [functools.reduce(fn, it[, initial])].  Without an initial value the
    first element starts the accumulator, and an iterator that has none is
    a [TypeError] ("reduce() of empty iterable with no initial value"). *)
Fixpoint reduce_loop (fuel : nat) (fn : callable2) (it : ref) (acc : value)
  {struct fuel} : M value :=
  match fuel with
  | O => stuck
  | S n =>
      let* o := for_next n it in
      match o with
      | None => ret acc
      | Some x => let* acc' := lift (fn acc x) in reduce_loop n fn it acc'
      end
  end.

Definition functools_reduce (fuel : nat) (fn : callable2) (it : ref)
  (initial : option value) : M value :=
  let* acc :=
    match initial with
    | Some v => ret v
    | None =>
        catch (next fuel it)
          (fun e => match e with StopIteration => raise TypeError | _ => raise e end)
    end in
  reduce_loop fuel fn it acc.

(** The error that the specification calls EmptySequence. *)
Definition EmptySequence : exn := TypeError.

(** [sys.maxsize] of a 64-bit CPython. *)
Definition sys_maxsize : Z := 2 ^ 63 - 1.

(** [itertools.islice(it, n)]: the stop index must lie in
    [0 .. sys.maxsize], anything else is a [ValueError] at the call. *)
Definition itertools_islice (it : ref) (n : Z) : M ref :=
  if (0 <=? n) && (n <=? sys_maxsize) then alloc (IsliceObj (Some it) 0 n)
  else raise ValueError.

(** [(x for x in it)]: [iter(it)] is taken when the generator is made. *)
Definition genexpr (x : iterable) : M ref :=
  let* it := builtin_iter x in alloc (GenExpr it false).

(** A function that is handed an iterable and only ever pulls from it: from
    the results of the pulls so far ([Raise StopIteration] included) it
    either asks for one more ([None]) or finishes. *)
Definition consumer : Type := list (res value) -> option (res value).

Fixpoint call_consumer (fuel : nat) (fn : consumer) (seen : list (res value))
  (it : ref) {struct fuel} : M value :=
  match fuel with
  | O => stuck
  | S n =>
      match fn seen with
      | Some r => lift r
      | None =>
          let* r := catch (let* x := next n it in ret (Ok x))
                      (fun e => ret (Raise e)) in
          call_consumer n fn (seen ++ [r]) it
      end
  end.

(** [self._iter]; an object without that slot is not an instance of the
    classes, and no run gets past it. *)
Definition get_iter (self : ref) : M ref :=
  let* o := deref self in
  match o with
  | Instance _ it => ret it
  | _ => stuck
  end.

(** [zip(a, b)] and [itertools.zip_longest(a, b)] take [iter] of both
    arguments, left to right. *)
Definition builtin_zip (a : ref) (b : iterable) : M ref :=
  let* ia := builtin_iter (IterRef a) in
  let* ib := builtin_iter b in
  alloc (ZipObj ia ib).

Definition itertools_zip_longest (a : ref) (b : iterable) : M ref :=
  let* ia := builtin_iter (IterRef a) in
  let* ib := builtin_iter b in
  alloc (ZipLongestObj (Some ia) (Some ib) 2).

(** [enumerate(a)] *)
Definition builtin_enumerate (a : ref) : M ref :=
  let* ia := builtin_iter (IterRef a) in alloc (EnumerateObj ia 0).

(** ** chainit/klass.py *)

Module ChainIt.

(** [ChainIt(iterable)]: [__init__] stores the generator
    [(x for x in iterable)] in [_iter]. *)
Definition new (x : iterable) : M ref :=
  let* g := genexpr x in alloc (Instance KChainIt g).

Definition __iter__ (self : ref) : M ref := deref self >> ret self.

Definition __next__ (fuel : nat) (self : ref) : M value :=
  let* it := get_iter self in next fuel it.

Definition collect (fuel : nat) (self : ref) : M value :=
  let* it := get_iter self in
  let* l := drain fuel it in ret (VTuple l).

Definition collect_frozenset (fuel : nat) (self : ref) : M value :=
  let* it := get_iter self in
  let* s := drain_set fuel it [] in ret (VSet true s).

Definition collect_list (fuel : nat) (self : ref) : M value :=
  let* it := get_iter self in
  let* l := drain fuel it in ret (VList l).

Definition collect_set (fuel : nat) (self : ref) : M value :=
  let* it := get_iter self in
  let* s := drain_set fuel it [] in ret (VSet false s).

Definition collect_with (fuel : nat) (self : ref) (fn : consumer) : M value :=
  call_consumer fuel fn [] self.

Definition enumerate (self : ref) : M ref :=
  let* e := builtin_enumerate self in new (IterRef e).

Definition filter (self : ref) (fn : callable) : M ref :=
  let* it := get_iter self in
  let* f := alloc (FilterObj fn it) in new (IterRef f).

Definition filter_map (self : ref) (fn : callable) : M ref :=
  let* it := get_iter self in
  let* g := alloc (FilterMapGen fn it false) in new (IterRef g).

Fixpoint find_loop (fuel : nat) (fn : callable) (it : ref) {struct fuel}
  : M value :=
  match fuel with
  | O => stuck
  | S n =>
      let* o := for_next n it in
      match o with
      | None => ret VNone
      | Some elem =>
          let* good := lift (fn elem) in
          if truthy good then ret elem else find_loop n fn it
      end
  end.

Definition find (fuel : nat) (self : ref) (fn : callable) : M value :=
  let* it := get_iter self in find_loop fuel fn it.

Definition flat_map (self : ref) (fn : callable) : M ref :=
  let* it := get_iter self in
  let* m := alloc (MapObj fn it) in
  let* c := alloc (ChainObj (Some m) None) in
  new (IterRef c).

Definition fold (fuel : nat) (self : ref) (fn : callable2) (initializer : value)
  : M value :=
  let* it := get_iter self in functools_reduce fuel fn it (Some initializer).

Definition map (self : ref) (fn : callable) : M ref :=
  let* it := get_iter self in
  let* m := alloc (MapObj fn it) in new (IterRef m).

(** The loop of [nth] over [enumerate(self._iter)]; the enumerate object
    is local to the call, so its counter is the loop variable [idx]. *)
Fixpoint nth_loop (fuel : nat) (it : ref) (idx n : Z) {struct fuel} : M value :=
  match fuel with
  | O => stuck
  | S k =>
      let* o := for_next k it in
      match o with
      | None => ret VNone
      | Some elem => if idx =? n then ret elem else nth_loop k it (idx + 1) n
      end
  end.

Definition nth (fuel : nat) (self : ref) (n : Z) : M value :=
  if n <? 0 then ret VNone
  else let* it := get_iter self in nth_loop fuel it 0 n.

Definition reduce (fuel : nat) (self : ref) (fn : callable2) : M value :=
  let* it := get_iter self in functools_reduce fuel fn it None.

Definition take (self : ref) (n : Z) : M ref :=
  let* it := get_iter self in
  let* s := itertools_islice it n in new (IterRef s).

Definition take_while (self : ref) (fn : callable) : M ref :=
  let* it := get_iter self in
  let* t := alloc (TakewhileObj fn it false) in new (IterRef t).

Definition zip (self : ref) (other : iterable) : M ref :=
  let* a := builtin_iter (IterRef self) in
  let* z := builtin_zip a other in new (IterRef z).

Definition zip_longest (self : ref) (other : iterable) : M ref :=
  let* a := builtin_iter (IterRef self) in
  let* z := itertools_zip_longest a other in new (IterRef z).

End ChainIt.

(** ** chainiter/klass.py *)

Module ChainIter.

Definition new (x : iterable) : M ref :=
  let* g := genexpr x in alloc (Instance KChainIter g).

Definition __iter__ (self : ref) : M ref := deref self >> ret self.

Definition __next__ (fuel : nat) (self : ref) : M value :=
  let* it := get_iter self in next fuel it.

Definition collect (fuel : nat) (self : ref) : M value :=
  let* it := get_iter self in
  let* l := drain fuel it in ret (VTuple l).

Definition collect_frozenset (fuel : nat) (self : ref) : M value :=
  let* it := get_iter self in
  let* s := drain_set fuel it [] in ret (VSet true s).

Definition collect_list (fuel : nat) (self : ref) : M value :=
  let* it := get_iter self in
  let* l := drain fuel it in ret (VList l).

Definition collect_set (fuel : nat) (self : ref) : M value :=
  let* it := get_iter self in
  let* s := drain_set fuel it [] in ret (VSet false s).

Definition collect_with (fuel : nat) (self : ref) (fn : consumer) : M value :=
  call_consumer fuel fn [] self.

Definition enumerate (self : ref) : M ref :=
  let* e := builtin_enumerate self in new (IterRef e).

Definition filter (self : ref) (fn : callable) : M ref :=
  let* it := get_iter self in
  let* f := alloc (FilterObj fn it) in new (IterRef f).

Definition filter_map (self : ref) (fn : callable) : M ref :=
  let* it := get_iter self in
  let* g := alloc (FilterMapGen fn it false) in new (IterRef g).

Fixpoint find_loop (fuel : nat) (fn : callable) (it : ref) {struct fuel}
  : M value :=
  match fuel with
  | O => stuck
  | S n =>
      let* o := for_next n it in
      match o with
      | None => ret VNone
      | Some elem =>
          let* good := lift (fn elem) in
          if truthy good then ret elem else find_loop n fn it
      end
  end.

Definition find (fuel : nat) (self : ref) (fn : callable) : M value :=
  let* it := get_iter self in find_loop fuel fn it.

Definition flat_map (self : ref) (fn : callable) : M ref :=
  let* it := get_iter self in
  let* m := alloc (MapObj fn it) in
  let* c := alloc (ChainObj (Some m) None) in
  new (IterRef c).

Definition fold (fuel : nat) (self : ref) (fn : callable2) (initializer : value)
  : M value :=
  let* it := get_iter self in functools_reduce fuel fn it (Some initializer).

Definition map (self : ref) (fn : callable) : M ref :=
  let* it := get_iter self in
  let* m := alloc (MapObj fn it) in new (IterRef m).

Fixpoint nth_loop (fuel : nat) (it : ref) (idx n : Z) {struct fuel} : M value :=
  match fuel with
  | O => stuck
  | S k =>
      let* o := for_next k it in
      match o with
      | None => ret VNone
      | Some elem => if idx =? n then ret elem else nth_loop k it (idx + 1) n
      end
  end.

Definition nth (fuel : nat) (self : ref) (n : Z) : M value :=
  if n <? 0 then ret VNone
  else let* it := get_iter self in nth_loop fuel it 0 n.

Definition reduce (fuel : nat) (self : ref) (fn : callable2) : M value :=
  let* it := get_iter self in functools_reduce fuel fn it None.

Definition take (self : ref) (n : Z) : M ref :=
  let* it := get_iter self in
  let* s := itertools_islice it n in new (IterRef s).

Definition take_while (self : ref) (fn : callable) : M ref :=
  let* it := get_iter self in
  let* t := alloc (TakewhileObj fn it false) in new (IterRef t).

(** Here the text calls [self.__iter__()] where [ChainIt] calls
    [iter(self)]. *)
Definition zip (self : ref) (other : iterable) : M ref :=
  let* a := __iter__ self in
  let* z := builtin_zip a other in new (IterRef z).

Definition zip_longest (self : ref) (other : iterable) : M ref :=
  let* a := __iter__ self in
  let* z := itertools_zip_longest a other in new (IterRef z).

End ChainIter.

(** ** chainit/decorator.py and chainiter/decorator.py

    The wrapper calls [fn] on its positional and keyword arguments as they
    are and wraps what [fn] returns; [Args] stands for the argument lists. *)

Definition chainit {Args : Type} (fn : Args -> res iterable) : Args -> M ref :=
  fun args => let* x := lift (fn args) in ChainIt.new x.

Definition chainiter {Args : Type} (fn : Args -> res iterable) : Args -> M ref :=
  fun args => let* x := lift (fn args) in ChainIter.new x.

(** * Notions used in the statements

    Helpers of the docstring examples, the relations that describe runs
    without fuel, the list functions that the results are compared with,
    and programs over the API of the two packages. *)

(** The outcome of a run from the empty store. *)
Definition eval (m : M value) : option (res value) := fst <$> m [].

(** [range(n)] *)
Definition range (n : nat) : list value :=
  List.map (fun i => VInt (Z.of_nat i)) (seq 0 n).

(** [lambda x, y: x + y] on integers *)
Definition add : callable2 :=
  fun x y =>
    match x, y with
    | VInt a, VInt b => Ok (VInt (a + b))
    | _, _ => Raise TypeError
    end.

(** A predicate on integers as a caller's function. *)
Definition int_pred (p : Z -> bool) : callable :=
  fun x => match x with VInt z => Ok (VBool (p z)) | _ => Raise TypeError end.

(** [".".join] and ["".join] as consumers: pull to the end, then join. *)
Fixpoint join_strings (sep : string) (l : list (res value)) : option string :=
  match l with
  | [] => Some EmptyString
  | [Ok (VStr s)] => Some s
  | Ok (VStr s) :: rest =>
      match join_strings sep rest with
      | Some t => Some (s ++ sep ++ t)%string
      | None => None
      end
  | _ => None
  end.

(** [sep.join] *)
Definition str_join (sep : string) : consumer :=
  fun seen =>
    match last seen with
    | Some (Raise StopIteration) =>
        match join_strings sep (removelast seen) with
        | Some s => Some (Ok (VStr s))
        | None => Some (Raise TypeError)
        end
    | Some (Raise e) => Some (Raise e)
    | _ => None
    end.

(** [str.upper] on a string of one letter *)
Definition upper_char (s : string) : string :=
  match s with
  | String c EmptyString =>
      let n := Ascii.nat_of_ascii c in
      if ((97 <=? n) && (n <=? 122))%nat
      then String (Ascii.ascii_of_nat (n - 32)) EmptyString else s
  | _ => s
  end.

(** [lambda c: c.isupper()] on a string of one letter *)
Definition is_upper : callable :=
  fun x =>
    match x with
    | VStr (String c EmptyString) =>
        let n := Ascii.nat_of_ascii c in Ok (VBool ((65 <=? n) && (n <=? 90))%nat)
    | _ => Raise TypeError
    end.

(** [le_M m m']: whatever result [m] has, [m'] has too. *)
Definition le_M {A} (m m' : M A) : Prop :=
  forall h a, m h = Some a -> m' h = Some a.

(** [framed m]: [m] keeps the size of the store and runs the same way with
    more cells appended. *)
Definition framed {A} (m : M A) : Prop :=
  forall h a h', m h = Some (a, h') ->
    length h' = length h /\ forall k, m (h ++ k) = Some (a, h' ++ k).

(** [Next r h a h']: with enough fuel, [next] on cell [r] in store [h]
    returns or raises [a] and leaves [h']. *)
Definition Next (r : ref) (h : heap) (a : res value) (h' : heap) : Prop :=
  exists fuel, next fuel r h = Some (a, h').

(** [Pulls r h xs h']: pulling [length xs] times from [r] gives [xs]. *)
Inductive Pulls (r : ref) : heap -> list value -> heap -> Prop :=
| Pulls_nil h : Pulls r h [] h
| Pulls_cons h x h1 xs h' :
    Next r h (Ok x) h1 -> Pulls r h1 xs h' -> Pulls r h (x :: xs) h'.

(** [Drain r h xs h']: pulling from [r] gives [xs] and then
    [StopIteration]. *)
Inductive Drain (r : ref) : heap -> list value -> heap -> Prop :=
| Drain_nil h h' : Next r h (Raise StopIteration) h' -> Drain r h [] h'
| Drain_cons h x h1 xs h' :
    Next r h (Ok x) h1 -> Drain r h1 xs h' -> Drain r h (x :: xs) h'.

(** [shape o] forgets the progress of an iterator and keeps its kind, its
    functions and the cells it was built over. *)
Definition shape (o : obj) : obj :=
  match o with
  | ListIter _ => ListIter []
  | GenFun f _ => GenFun f 0
  | GenExpr it _ => GenExpr it false
  | FilterMapGen fn it _ => FilterMapGen fn it false
  | MapObj fn it => MapObj fn it
  | FilterObj fn it => FilterObj fn it
  | ChainObj _ _ => ChainObj None None
  | EnumerateObj it _ => EnumerateObj it 0
  | IsliceObj _ _ stop => IsliceObj None 0 stop
  | TakewhileObj fn it _ => TakewhileObj fn it false
  | ZipObj it1 it2 => ZipObj it1 it2
  | ZipLongestObj _ _ _ => ZipLongestObj None None 0
  | Instance cls it => Instance cls it
  end.

(** [Above n t k a k']: the cursor [t] lives in the cells [k] that follow
    the first [n] cells of the store; pulling from it gives [a] and turns
    [k] into [k'], whatever the first [n] cells hold. *)
Definition Above (n : nat) (t : ref) (k : heap) (a : res value) (k' : heap)
  : Prop :=
  forall H : heap, length H = n -> Next t (H ++ k) a (H ++ k').

(** Such a cursor gives [ys] and then [StopIteration]. *)
Inductive Drains_above (n : nat) (t : ref) : heap -> list value -> heap -> Prop :=
| Drains_above_nil k k' :
    Above n t k (Raise StopIteration) k' -> Drains_above n t k [] k'
| Drains_above_cons k y k1 ys k' :
    Above n t k (Ok y) k1 -> Drains_above n t k1 ys k' ->
    Drains_above n t k (y :: ys) k'.

(** Two stores with the same shape in every cell. *)
Definition same_shape (h h' : heap) : Prop :=
  forall s, shape <$> (h' !! s) = shape <$> (h !! s).

(** [keeps r o m]: when cell [r] holds an object shaped like [o], running
    [m] keeps every shape. *)
Definition keeps {A} (r : ref) (o : obj) (m : M A) : Prop :=
  forall h a h', m h = Some (a, h') ->
    shape <$> (h !! r) = Some (shape o) -> same_shape h h'.

(** A predicate that returns on every element of [xs]. *)
Definition total_on (fn : callable) (xs : list value) : bool :=
  forallb (fun x => match fn x with Ok _ => true | Raise _ => false end) xs.

(** Whether the predicate holds of [x]: it returns a true value. *)
Definition holds (fn : callable) (x : value) : bool :=
  match fn x with Ok v => truthy v | Raise _ => false end.

(** The left-to-right fold of a function that may raise: the first
    exception ends it. *)
Fixpoint fold_left_res (fn : callable2) (xs : list value) (acc : value)
  : res value :=
  match xs with
  | [] => Ok acc
  | x :: xs' =>
      match fn acc x with
      | Ok acc' => fold_left_res fn xs' acc'
      | Raise e => Raise e
      end
  end.

(** The longest prefix of [xs] on which [p] is true. *)
Fixpoint longest_prefix (p : value -> bool) (xs : list value) : list value :=
  match xs with
  | [] => []
  | x :: xs' => if p x then x :: longest_prefix p xs' else []
  end.

(** The pairs of [zip]: positions that both sides have. *)
Fixpoint zip_pairs (xs ys : list value) : list value :=
  match xs, ys with
  | x :: xs', y :: ys' => VTuple [x; y] :: zip_pairs xs' ys'
  | _, _ => []
  end.

(** The pairs of [zip_longest]: the shorter side is filled with [None]. *)
Fixpoint zip_longest_pairs (xs ys : list value) : list value :=
  match xs, ys with
  | x :: xs', y :: ys' => VTuple [x; y] :: zip_longest_pairs xs' ys'
  | [], _ => List.map (fun y => VTuple [VNone; y]) ys
  | _, [] => List.map (fun x => VTuple [x; VNone]) xs
  end.

(** [v is not None] *)
Definition not_none (v : value) : bool :=
  match v with VNone => false | _ => true end.

(** Renames the class of an instance to [ChainIter]. *)
Definition retag_obj (o : obj) : obj :=
  match o with
  | Instance _ it => Instance KChainIter it
  | _ => o
  end.

Definition retag (h : heap) : heap := List.map retag_obj h.

(** The outcome of a run, with the store it leaves renamed. *)
Definition retag_out {A} (x : option (res A * heap)) : option (res A * heap) :=
  match x with
  | Some (a, h) => Some (a, retag h)
  | None => None
  end.

(** [sim m1 m2]: [m2] does in the renamed store what [m1] does in the
    store. *)
Definition sim {A} (m1 m2 : M A) : Prop :=
  forall h, m2 (retag h) = retag_out (m1 h).

(** What both packages export: a constructor, the iterator protocol, the
    chaining methods and the consuming methods. *)
Record package : Type := {
  p_new : iterable -> M ref;
  p_next : nat -> ref -> M value;
  p_collect : nat -> ref -> M value;
  p_collect_frozenset : nat -> ref -> M value;
  p_collect_list : nat -> ref -> M value;
  p_collect_set : nat -> ref -> M value;
  p_collect_with : nat -> ref -> consumer -> M value;
  p_enumerate : ref -> M ref;
  p_filter : ref -> callable -> M ref;
  p_filter_map : ref -> callable -> M ref;
  p_find : nat -> ref -> callable -> M value;
  p_flat_map : ref -> callable -> M ref;
  p_fold : nat -> ref -> callable2 -> value -> M value;
  p_map : ref -> callable -> M ref;
  p_nth : nat -> ref -> Z -> M value;
  p_reduce : nat -> ref -> callable2 -> M value;
  p_take : ref -> Z -> M ref;
  p_take_while : ref -> callable -> M ref;
  p_zip : ref -> iterable -> M ref;
  p_zip_longest : ref -> iterable -> M ref
}.

Definition chainit_package : package := {|
  p_new := ChainIt.new;
  p_next := ChainIt.__next__;
  p_collect := ChainIt.collect;
  p_collect_frozenset := ChainIt.collect_frozenset;
  p_collect_list := ChainIt.collect_list;
  p_collect_set := ChainIt.collect_set;
  p_collect_with := ChainIt.collect_with;
  p_enumerate := ChainIt.enumerate;
  p_filter := ChainIt.filter;
  p_filter_map := ChainIt.filter_map;
  p_find := ChainIt.find;
  p_flat_map := ChainIt.flat_map;
  p_fold := ChainIt.fold;
  p_map := ChainIt.map;
  p_nth := ChainIt.nth;
  p_reduce := ChainIt.reduce;
  p_take := ChainIt.take;
  p_take_while := ChainIt.take_while;
  p_zip := ChainIt.zip;
  p_zip_longest := ChainIt.zip_longest
|}.

Definition chainiter_package : package := {|
  p_new := ChainIter.new;
  p_next := ChainIter.__next__;
  p_collect := ChainIter.collect;
  p_collect_frozenset := ChainIter.collect_frozenset;
  p_collect_list := ChainIter.collect_list;
  p_collect_set := ChainIter.collect_set;
  p_collect_with := ChainIter.collect_with;
  p_enumerate := ChainIter.enumerate;
  p_filter := ChainIter.filter;
  p_filter_map := ChainIter.filter_map;
  p_find := ChainIter.find;
  p_flat_map := ChainIter.flat_map;
  p_fold := ChainIter.fold;
  p_map := ChainIter.map;
  p_nth := ChainIter.nth;
  p_reduce := ChainIter.reduce;
  p_take := ChainIter.take;
  p_take_while := ChainIter.take_while;
  p_zip := ChainIter.zip;
  p_zip_longest := ChainIter.zip_longest
|}.

(** An iterable argument of a program: a container, an endless generator,
    or an instance that the program made earlier (by its number). *)
Inductive source : Type :=
| SrcList (l : list value)
| SrcGen (f : nat -> value)
| SrcInstance (i : nat).

(** The chaining methods with their arguments. *)
Inductive chain_op : Type :=
| OpEnumerate
| OpFilter (fn : callable)
| OpFilterMap (fn : callable)
| OpFlatMap (fn : callable)
| OpMap (fn : callable)
| OpTake (n : Z)
| OpTakeWhile (fn : callable)
| OpZip (other : source)
| OpZipLongest (other : source).

(** The consuming methods with their arguments; [OpNext] is [next(self)]. *)
Inductive terminal_op : Type :=
| OpNext
| OpCollect
| OpCollectFrozenset
| OpCollectList
| OpCollectSet
| OpCollectWith (fn : consumer)
| OpFind (fn : callable)
| OpFold (fn : callable2) (initializer : value)
| OpNth (n : Z)
| OpReduce (fn : callable2).

(** A straight-line program: make an instance, chain on the [i]-th
    instance made so far (the result is a new instance), or consume the
    [i]-th instance (the result goes to the output). *)
Inductive command : Type :=
| CNew (src : source)
| CChain (i : nat) (op : chain_op)
| CConsume (i : nat) (op : terminal_op).

(** The iterable that a source stands for, given the instances made so
    far. *)
Definition resolve (env : list nat) (s : source) : M iterable :=
  match s with
  | SrcList l => ret (IterList l)
  | SrcGen f => ret (IterGen f)
  | SrcInstance i =>
      match env !! i with
      | Some r => ret (IterRef r)
      | None => stuck
      end
  end.

Definition apply_chain (p : package) (env : list nat) (self : ref) (op : chain_op)
  : M ref :=
  match op with
  | OpEnumerate => p_enumerate p self
  | OpFilter fn => p_filter p self fn
  | OpFilterMap fn => p_filter_map p self fn
  | OpFlatMap fn => p_flat_map p self fn
  | OpMap fn => p_map p self fn
  | OpTake n => p_take p self n
  | OpTakeWhile fn => p_take_while p self fn
  | OpZip other => let* o := resolve env other in p_zip p self o
  | OpZipLongest other => let* o := resolve env other in p_zip_longest p self o
  end.

Definition apply_terminal (p : package) (fuel : nat) (self : ref) (op : terminal_op)
  : M value :=
  match op with
  | OpNext => p_next p fuel self
  | OpCollect => p_collect p fuel self
  | OpCollectFrozenset => p_collect_frozenset p fuel self
  | OpCollectList => p_collect_list p fuel self
  | OpCollectSet => p_collect_set p fuel self
  | OpCollectWith fn => p_collect_with p fuel self fn
  | OpFind fn => p_find p fuel self fn
  | OpFold fn initializer => p_fold p fuel self fn initializer
  | OpNth n => p_nth p fuel self n
  | OpReduce fn => p_reduce p fuel self fn
  end.

(** Runs a program; an exception ends it.  The result is the list of what
    the consuming methods returned. *)
Fixpoint run_program (p : package) (fuel : nat) (cmds : list command)
  (env : list nat) {struct cmds} : M (list value) :=
  match cmds with
  | [] => ret []
  | CNew src :: rest =>
      let* x := resolve env src in
      let* r := p_new p x in
      run_program p fuel rest (env ++ [r])
  | CChain i op :: rest =>
      match env !! i with
      | None => stuck
      | Some self =>
          let* r := apply_chain p env self op in
          run_program p fuel rest (env ++ [r])
      end
  | CConsume i op :: rest =>
      match env !! i with
      | None => stuck
      | Some self =>
          let* v := apply_terminal p fuel self op in
          let* vs := run_program p fuel rest env in
          ret (v :: vs)
      end
  end.

(** ** Pipelines of chaining methods

    A chaining method with functions that return (never raise). *)
Inductive pure_op : Type :=
| PEnumerate
| PFilter (p : value -> value)
| PFilterMap (f : value -> value)
| PFlatMap (f : value -> value)
| PMap (f : value -> value)
| PTake (n : Z)
| PTakeWhile (p : value -> value).

(** A function that returns, as a caller's function. *)
Definition pure (f : value -> value) : callable := fun v => Ok (f v).

Definition chain_op_of (op : pure_op) : chain_op :=
  match op with
  | PEnumerate => OpEnumerate
  | PFilter p => OpFilter (pure p)
  | PFilterMap f => OpFilterMap (pure f)
  | PFlatMap f => OpFlatMap (pure f)
  | PMap f => OpMap (pure f)
  | PTake n => OpTake n
  | PTakeWhile p => OpTakeWhile (pure p)
  end.

(** [enumerate] of a list, counting from [c]. *)
Fixpoint enumerate_from (c : Z) (xs : list value) : list value :=
  match xs with
  | [] => []
  | x :: rest => VTuple [VInt c; x] :: enumerate_from (c + 1) rest
  end.

(** The elements of a value that can be iterated over. *)
Definition items (v : value) : list value :=
  match iter_value v with Ok l => l | Raise _ => [] end.

Definition iterable_value (v : value) : bool :=
  match iter_value v with Ok _ => true | Raise _ => false end.

(** What a chaining method does to the list of the elements. *)
Definition denote (op : pure_op) (xs : list value) : list value :=
  match op with
  | PEnumerate => enumerate_from 0 xs
  | PFilter p => List.filter (holds (pure p)) xs
  | PFilterMap f => List.filter not_none (List.map f xs)
  | PFlatMap f => List.concat (List.map (fun x => items (f x)) xs)
  | PMap f => List.map f xs
  | PTake n => firstn (Z.to_nat n) xs
  | PTakeWhile p => longest_prefix (holds (pure p)) xs
  end.

(** The arguments that a method accepts on the elements [xs]: [take]
    wants a count that [islice] takes, [flat_map] a function whose results
    can be iterated over. *)
Definition admissible (op : pure_op) (xs : list value) : bool :=
  match op with
  | PTake n => (0 <=? n) && (n <=? sys_maxsize)
  | PFlatMap f => forallb (fun x => iterable_value (f x)) xs
  | _ => true
  end.

Fixpoint denote_all (ops : list pure_op) (xs : list value) : list value :=
  match ops with
  | [] => xs
  | op :: rest => denote_all rest (denote op xs)
  end.

Fixpoint admissible_all (ops : list pure_op) (xs : list value) : bool :=
  match ops with
  | [] => true
  | op :: rest => admissible op xs && admissible_all rest (denote op xs)
  end.

(** [self.op1(..).op2(..)...] *)
Fixpoint chain_all (ops : list pure_op) (self : ref) : M ref :=
  match ops with
  | [] => ret self
  | op :: rest =>
      let* s := apply_chain chainit_package [] self (chain_op_of op) in
      chain_all rest s
  end.

(** [ready h self xs]: [self] is an instance of the store [h] whose cursor
    would give [xs] and then end. *)
Definition ready (h : heap) (self : ref) (xs : list value) : Prop :=
  exists cls it h0, h !! self = Some (Instance cls it) /\ Drain it h xs h0.

(** ** What is left of a cursor, consumers, sets *)

(** The elements after the first one of which [p] is true. *)
Fixpoint after_first (p : value -> bool) (xs : list value) : list value :=
  match xs with
  | [] => []
  | x :: rest => if p x then rest else after_first p rest
  end.

(** The values among the results of pulls. *)
Fixpoint oks (seen : list (res value)) : list value :=
  match seen with
  | [] => []
  | Ok v :: rest => v :: oks rest
  | Raise _ :: rest => oks rest
  end.

(** A function such as [tuple] or ["".join]: it pulls from its argument
    to the end and returns [g] of the elements; another exception than
    [StopIteration] passes through it. *)
Definition draining (g : list value -> res value) : consumer :=
  fun seen =>
    match last seen with
    | Some (Raise StopIteration) => Some (g (oks seen))
    | Some (Raise e) => Some (Raise e)
    | _ => None
    end.

(** The results of [fn] on the elements on which it returns. *)
Fixpoint values_of (fn : callable) (xs : list value) : list value :=
  match xs with
  | [] => []
  | x :: rest =>
      match fn x with
      | Ok v => v :: values_of fn rest
      | Raise _ => values_of fn rest
      end
  end.

Definition is_stop (e : exn) : bool :=
  match e with StopIteration => true | _ => false end.

(** No member equals ([==]) a member before it. *)
Fixpoint distinct (s : list value) : bool :=
  match s with
  | [] => true
  | y :: rest => negb (existsb (fun x => py_eqb x y) rest) && distinct rest
  end.

(** The members of the set built from [xs], first occurrences kept. *)
Definition set_of (xs : list value) : list value :=
  fold_left (fun acc x => set_add x acc) xs [].

(** [builds m h]: in the store [h], [m] returns a new instance of
    [ChainIt]; the cells of [h] stay as they are, [m] only allocates. *)
Definition builds (m : M ref) (h : heap) : Prop :=
  exists r k it,
    m h = Some (Ok r, h ++ k)
    /\ (h ++ k) !! r = Some (Instance KChainIt it)
    /\ (length h <= r)%nat.

(** A method that gives one element for each element it pulls. *)
Definition one_to_one (op : pure_op) : bool :=
  match op with
  | PEnumerate | PMap _ => true
  | _ => false
  end.

(** [gives h self xs]: [self] is an instance of the store [h] whose cursor
    gives [xs], and may give more after them. *)
Definition gives (h : heap) (self : ref) (xs : list value) : Prop :=
  exists cls it h1, h !! self = Some (Instance cls it) /\ Pulls it h xs h1.

(** ** Predicates that may raise *)

(** The predicate returns a false value on [x]. *)
Definition rejects (fn : callable) (x : value) : bool :=
  match fn x with Ok v => negb (truthy v) | Raise _ => false end.

(** [find] on a list: the first element on which the predicate returns a
    true value, [None] when it returns a false one on all, and the
    exception of the predicate when it raises before that. *)
Fixpoint find_first (fn : callable) (xs : list value) : res value :=
  match xs with
  | [] => Ok VNone
  | x :: rest =>
      match fn x with
      | Ok good => if truthy good then Ok x else find_first fn rest
      | Raise e => Raise e
      end
  end.

(** The predicate returns on every element that [takewhile] hands to it:
    the elements up to the first one that it rejects, that one included. *)
Fixpoint returns_until_reject (fn : callable) (xs : list value) : bool :=
  match xs with
  | [] => true
  | x :: rest =>
      match fn x with
      | Ok good => if truthy good then returns_until_reject fn rest else true
      | Raise _ => false
      end
  end.

(** * Properties *)

(** ** The examples of the docstrings

    Each one runs in the empty store. *)

Example doctest_collect :
  eval (let* c := ChainIt.new (IterList (range 3)) in ChainIt.collect 9 c)
  = Some (Ok (VTuple [VInt 0; VInt 1; VInt 2])).
Proof. reflexivity. Qed.

Example doctest_collect_with :
  eval (let* c := ChainIt.new (IterList (chars "abcd")) in
        let* m := ChainIt.map c (fun x => match x with
                                          | VStr s => Ok (VStr (upper_char s))
                                          | _ => Raise TypeError
                                          end) in
        ChainIt.collect_with 20 m (str_join "."))
  = Some (Ok (VStr "A.B.C.D")).
Proof. reflexivity. Qed.

Example doctest_filter :
  eval (let* c := ChainIt.new (IterList (chars "abcd")) in
        let* e := ChainIt.enumerate c in
        let* f := ChainIt.filter e
                    (fun t => match t with
                              | VTuple [VInt i; _] => Ok (VBool (i mod 2 =? 0))
                              | _ => Raise TypeError
                              end) in
        let* m := ChainIt.map f
                    (fun t => match t with
                              | VTuple [_; x] => Ok x
                              | _ => Raise TypeError
                              end) in
        ChainIt.collect 30 m)
  = Some (Ok (VTuple [VStr "a"; VStr "c"])).
Proof. reflexivity. Qed.

Example doctest_filter_map :
  eval (let* c := ChainIt.new (IterList (range 5)) in
        let* m := ChainIt.filter_map c
                    (fun x => match x with
                              | VInt 1 => Ok (VStr "one")
                              | VInt 2 => Ok (VStr "two")
                              | VInt 4 => Ok (VStr "four")
                              | _ => Ok VNone
                              end) in
        ChainIt.collect 20 m)
  = Some (Ok (VTuple [VStr "one"; VStr "two"; VStr "four"])).
Proof. reflexivity. Qed.

Example doctest_find :
  eval (let* c := ChainIt.new (IterList (range 5)) in
        ChainIt.find 9 c (int_pred (fun z => 3 <? z)))
  = Some (Ok (VInt 4))
  /\ eval (let* c := ChainIt.new (IterList (range 5)) in
           ChainIt.find 9 c (int_pred (fun z => z <? 0)))
     = Some (Ok VNone).
Proof. split; reflexivity. Qed.

Example doctest_fold_reduce :
  eval (let* c := ChainIt.new (IterList (range 4)) in
        ChainIt.fold 9 c add (VInt 10))
  = Some (Ok (VInt 16))
  /\ eval (let* c := ChainIt.new (IterList (range 4)) in ChainIt.reduce 9 c add)
     = Some (Ok (VInt 6)).
Proof. split; reflexivity. Qed.

Example doctest_nth :
  eval (let* c := ChainIt.new (IterList (chars "abc")) in ChainIt.nth 9 c 2)
  = Some (Ok (VStr "c"))
  /\ eval (let* c := ChainIt.new (IterList (chars "abc")) in ChainIt.nth 9 c 3)
     = Some (Ok VNone).
Proof. split; reflexivity. Qed.

Example doctest_take :
  eval (let* c := ChainIt.new (IterList (range 10)) in
        let* t := ChainIt.take c 3 in ChainIt.collect 9 t)
  = Some (Ok (VTuple [VInt 0; VInt 1; VInt 2])).
Proof. reflexivity. Qed.

Example doctest_take_while :
  eval (let* c := ChainIt.new (IterGen (fun i => VInt (2 ^ Z.of_nat i))) in
        let* t := ChainIt.take_while c (int_pred (fun z => z <? 10)) in
        ChainIt.collect 20 t)
  = Some (Ok (VTuple [VInt 1; VInt 2; VInt 4; VInt 8])).
Proof. reflexivity. Qed.

Example doctest_zip :
  eval (let* c := ChainIt.new (IterList (range 5)) in
        let* z := ChainIt.zip c (IterList [VInt 3; VInt 2; VInt 1]) in
        ChainIt.collect 20 z)
  = Some (Ok (VTuple [VTuple [VInt 0; VInt 3]; VTuple [VInt 1; VInt 2];
                      VTuple [VInt 2; VInt 1]])).
Proof. reflexivity. Qed.

Example doctest_zip_longest :
  eval (let* c := ChainIter.new (IterList (range 5)) in
        let* z := ChainIter.zip_longest c (IterList [VInt 3; VInt 2; VInt 1]) in
        ChainIter.collect 20 z)
  = Some (Ok (VTuple [VTuple [VInt 0; VInt 3]; VTuple [VInt 1; VInt 2];
                      VTuple [VInt 2; VInt 1]; VTuple [VInt 3; VNone];
                      VTuple [VInt 4; VNone]])).
Proof. reflexivity. Qed.

Example doctest_decorator :
  eval (let* c := chainit (fun _ : unit => Ok (IterList (chars "HeLlO"))) tt in
        let* f := ChainIt.filter c is_upper in
        ChainIt.collect_with 20 f (str_join ""))
  = Some (Ok (VStr "HLO")).
Proof. reflexivity. Qed.

(** ** More fuel keeps a result *)

Lemma le_M_refl {A} (m : M A) : le_M m m.
Proof. intros h a H; exact H. Qed.

Lemma le_M_stuck {A} (m : M A) : le_M stuck m.
Proof. intros h a H; discriminate. Qed.

Lemma le_M_bind {A B} (m m' : M A) (k k' : A -> M B) :
  le_M m m' -> (forall x, le_M (k x) (k' x)) -> le_M (bind m k) (bind m' k').
Proof.
  intros Hm Hk h a. unfold bind.
  destruct (m h) as [[[x|e] h1]|] eqn:E; [| |discriminate];
    rewrite (Hm _ _ E); [apply Hk | trivial].
Qed.

Lemma le_M_catch {A} (m m' : M A) (k k' : exn -> M A) :
  le_M m m' -> (forall e, le_M (k e) (k' e)) -> le_M (catch m k) (catch m' k').
Proof.
  intros Hm Hk h a. unfold catch.
  destruct (m h) as [[[x|e] h1]|] eqn:E; [| |discriminate];
    rewrite (Hm _ _ E); [trivial | apply Hk].
Qed.

Lemma le_M_zl_item (nx nx' : ref -> M value) slot na :
  (forall r, le_M (nx r) (nx' r)) -> le_M (zl_item nx slot na) (zl_item nx' slot na).
Proof.
  intros H. destruct slot as [it|]; simpl; [|apply le_M_refl].
  apply le_M_catch; [|intros; apply le_M_refl].
  apply le_M_bind; [apply H | intros; apply le_M_refl].
Qed.

(** Takes a goal [le_M m m'] apart along the shape of [m]; [IH] closes the
    recursive calls. *)
Ltac le_M_step IH :=
  first
    [ apply le_M_refl
    | apply le_M_stuck
    | apply IH
    | apply le_M_zl_item; intros
    | apply le_M_bind; [|intros ?]
    | apply le_M_catch; [|intros ?]
    | match goal with
      | |- le_M (match ?x with _ => _ end) _ => destruct x
      | |- le_M (if ?b then _ else _) _ => destruct b
      end ].

Lemma next_obj_mono (nx nx' : ref -> M value) r o :
  (forall r, le_M (nx r) (nx' r)) -> le_M (next_obj nx r o) (next_obj nx' r o).
Proof. intros IH. unfold next_obj. repeat le_M_step IH. Qed.

Lemma next_mono_S fuel : forall r, le_M (next fuel r) (next (S fuel) r).
Proof.
  induction fuel as [|n IH]; intros r; [apply le_M_stuck|].
  change (le_M (let* o := deref r in next_obj (next n) r o)
               (let* o := deref r in next_obj (next (S n)) r o)).
  apply le_M_bind; [apply le_M_refl|]. intros o. apply next_obj_mono, IH.
Qed.

Lemma next_mono fuel fuel' r :
  (fuel <= fuel')%nat -> le_M (next fuel r) (next fuel' r).
Proof.
  induction 1 as [|m _ IH]; [apply le_M_refl|].
  intros h a H. apply next_mono_S, IH, H.
Qed.

(** ** Pulling leaves the rest of the store alone

    A [framed] computation only touches the cells it starts from.
    Allocation appends cells, so whatever an iterator refers to lies before
    it, and pulling from an iterator is blind to everything allocated
    later. *)

Lemma framed_ret {A} (a : A) : framed (ret a).
Proof. intros h b h' [= <- <-]. split; [reflexivity|]. intros k; reflexivity. Qed.

Lemma framed_raise {A} e : framed (@raise A e).
Proof. intros h b h' [= <- <-]. split; [reflexivity|]. intros k; reflexivity. Qed.

Lemma framed_lift {A} (r : res A) : framed (lift r).
Proof. intros h b h' [= <- <-]. split; [reflexivity|]. intros k; reflexivity. Qed.

Lemma framed_stuck {A} : framed (@stuck A).
Proof. intros h b h' [=]. Qed.

Lemma framed_deref r : framed (deref r).
Proof.
  intros h b h'. unfold deref.
  destruct (h !! r) as [o|] eqn:E; [|discriminate]. intros [= <- <-].
  split; [reflexivity|]. intros k.
  rewrite (lookup_app_l_Some _ _ _ _ E). reflexivity.
Qed.

Lemma framed_store r o : framed (store r o).
Proof.
  intros h b h'. unfold store.
  destruct (decide (r < length h)%nat) as [Hlt|]; [|discriminate].
  intros [= <- <-]. split; [apply length_insert|]. intros k.
  destruct (decide (r < length (h ++ k))%nat) as [_|Hge].
  - rewrite insert_app_l by exact Hlt. reflexivity.
  - rewrite length_app in Hge. lia.
Qed.

Lemma framed_bind {A B} (m : M A) (k : A -> M B) :
  framed m -> (forall x, framed (k x)) -> framed (bind m k).
Proof.
  intros Hm Hk h b h'. unfold bind.
  destruct (m h) as [[[x|e] h1]|] eqn:E; [| |discriminate].
  - destruct (Hm _ _ _ E) as [Hl Hf]. intros H.
    destruct (Hk _ _ _ _ H) as [Hl' Hf']. split; [congruence|].
    intros j. rewrite Hf. apply Hf'.
  - destruct (Hm _ _ _ E) as [Hl Hf]. intros [= <- <-]. split; [exact Hl|].
    intros j. rewrite Hf. reflexivity.
Qed.

Lemma framed_catch {A} (m : M A) (k : exn -> M A) :
  framed m -> (forall e, framed (k e)) -> framed (catch m k).
Proof.
  intros Hm Hk h b h'. unfold catch.
  destruct (m h) as [[[x|e] h1]|] eqn:E; [| |discriminate].
  - destruct (Hm _ _ _ E) as [Hl Hf]. intros [= <- <-]. split; [exact Hl|].
    intros j. rewrite Hf. reflexivity.
  - destruct (Hm _ _ _ E) as [Hl Hf]. intros H.
    destruct (Hk _ _ _ _ H) as [Hl' Hf']. split; [congruence|].
    intros j. rewrite Hf. apply Hf'.
Qed.

Ltac framed_step IH :=
  first
    [ apply framed_ret | apply framed_raise | apply framed_lift
    | apply framed_stuck | apply framed_deref | apply framed_store
    | apply IH
    | apply framed_bind; [|intros ?]
    | apply framed_catch; [|intros ?]
    | match goal with
      | |- framed (match ?x with _ => _ end) => destruct x
      | |- framed (if ?b then _ else _) => destruct b
      end ].

Lemma framed_zl_item (nx : ref -> M value) slot na :
  (forall r, framed (nx r)) -> framed (zl_item nx slot na).
Proof. intros IH. unfold zl_item. repeat framed_step IH. Qed.

Lemma next_obj_framed (nx : ref -> M value) r o :
  (forall r, framed (nx r)) -> framed (next_obj nx r o).
Proof.
  intros IH. pose proof (fun s na => framed_zl_item nx s na IH) as IHz.
  unfold next_obj. repeat (framed_step IH || apply IHz).
Qed.

Lemma next_framed fuel : forall r, framed (next fuel r).
Proof.
  induction fuel as [|n IH]; intros r; [apply framed_stuck|].
  simpl. apply framed_bind; [apply framed_deref|].
  intros o. apply next_obj_framed, IH.
Qed.

Lemma for_next_mono fuel fuel' it :
  (fuel <= fuel')%nat -> le_M (for_next fuel it) (for_next fuel' it).
Proof.
  intros H. unfold for_next. pose proof (next_mono fuel fuel' it H) as IH.
  repeat le_M_step IH.
Qed.

Lemma for_next_framed fuel it : framed (for_next fuel it).
Proof.
  unfold for_next. pose proof (next_framed fuel it) as IH.
  repeat framed_step IH.
Qed.

(** Proves [le_M (loop fuel ..) (loop fuel' ..)] for a loop that is
    recursive in its fuel and pulls with [for_next] or [next]. *)
Ltac loop_mono fuel :=
  induction fuel as [|? IHfuel]; intros fuel' Hle; intros;
    [apply le_M_stuck|];
  destruct fuel' as [|fuel']; [lia|];
  assert (Hle' : (fuel <= fuel')%nat) by lia; simpl;
  repeat first
    [ apply for_next_mono; exact Hle'
    | apply next_mono; exact Hle'
    | apply IHfuel; exact Hle'
    | le_M_step le_M_refl ].

Lemma drain_mono fuel : forall fuel', (fuel <= fuel')%nat ->
  forall it, le_M (drain fuel it) (drain fuel' it).
Proof. loop_mono fuel. Qed.

Lemma reduce_loop_mono fuel : forall fuel', (fuel <= fuel')%nat ->
  forall fn it acc, le_M (reduce_loop fuel fn it acc) (reduce_loop fuel' fn it acc).
Proof. loop_mono fuel. Qed.

Lemma find_loop_mono fuel : forall fuel', (fuel <= fuel')%nat ->
  forall fn it, le_M (ChainIt.find_loop fuel fn it) (ChainIt.find_loop fuel' fn it).
Proof. loop_mono fuel. Qed.

Lemma nth_loop_mono fuel : forall fuel', (fuel <= fuel')%nat ->
  forall it idx n, le_M (ChainIt.nth_loop fuel it idx n) (ChainIt.nth_loop fuel' it idx n).
Proof. loop_mono fuel. Qed.

(** ** Pulls without fuel *)

Lemma Next_length r h a h' : Next r h a h' -> length h' = length h.
Proof. intros [fuel H]. apply (next_framed fuel r h a h' H). Qed.

Lemma Next_frame r h a h' k : Next r h a h' -> Next r (h ++ k) a (h' ++ k).
Proof. intros [fuel H]. exists fuel. apply (next_framed fuel r h a h' H). Qed.

Lemma Next_lt r h a h' : Next r h a h' -> (r < length h)%nat.
Proof.
  intros [[|fuel] H]; [discriminate|]. simpl in H. unfold bind, deref in H.
  destruct (h !! r) as [o|] eqn:E; [|discriminate].
  eapply lookup_lt_Some, E.
Qed.

(** Reading and writing the cell that sits right after [pre]. *)
Lemma deref_middle (pre suf : heap) o g :
  g = length pre -> deref g (pre ++ o :: suf) = Some (Ok o, pre ++ o :: suf).
Proof. intros ->. unfold deref. rewrite list_lookup_middle; reflexivity. Qed.

Lemma store_middle (pre suf : heap) o o' g :
  g = length pre -> store g o' (pre ++ o :: suf) = Some (Ok tt, pre ++ o' :: suf).
Proof.
  intros ->. unfold store.
  destruct (decide (length pre < length (pre ++ o :: suf))%nat) as [_|Hge].
  - rewrite insert_app_r_alt by lia. rewrite Nat.sub_diag. reflexivity.
  - rewrite length_app in Hge. simpl in Hge. lia.
Qed.

(** One step of [next] on the cell right after [pre], from a step of the
    object in it. *)
Lemma Next_middle (pre suf : heap) o g fuel a h' :
  g = length pre ->
  next_obj (next fuel) g o (pre ++ o :: suf) = Some (a, h') ->
  Next g (pre ++ o :: suf) a h'.
Proof.
  intros Hg H. exists (S fuel). simpl. unfold bind.
  rewrite deref_middle by exact Hg. exact H.
Qed.

(** *** The steps of each kind of object

    Every rule is about an object in the cell right after [pre], whose
    sources lie in [pre]. *)

Section Rules.
Variables (pre suf : heap) (g : ref).
Hypothesis Hg : g = length pre.

(** Runs the object's step on top of the framed steps of its sources. *)
Ltac rule_of H :=
  let fuel := fresh "fuel" in
  let Hlen := fresh "Hlen" in
  let Hf := fresh "Hf" in
  destruct H as [fuel H];
  destruct (next_framed _ _ _ _ _ H) as [Hlen Hf];
  eapply (Next_middle _ _ _ _ fuel); [exact Hg|];
  simpl; unfold bind, catch, lift; rewrite Hf; simpl;
  repeat match goal with
    | Heq : _ = _ |- _ => rewrite Heq; simpl
    end;
  try (unfold bind; rewrite store_middle by congruence);
  try reflexivity.

Lemma Next_listiter_cons x l :
  Next g (pre ++ ListIter (x :: l) :: suf) (Ok x) (pre ++ ListIter l :: suf).
Proof.
  eapply (Next_middle _ _ _ _ 0); [exact Hg|]. simpl. unfold bind.
  rewrite store_middle by exact Hg. reflexivity.
Qed.

Lemma Next_listiter_nil :
  Next g (pre ++ ListIter [] :: suf) (Raise StopIteration)
    (pre ++ ListIter [] :: suf).
Proof. eapply (Next_middle _ _ _ _ 0); [exact Hg|]. reflexivity. Qed.

Lemma Next_genfun f i :
  Next g (pre ++ GenFun f i :: suf) (Ok (f i)) (pre ++ GenFun f (S i) :: suf).
Proof.
  eapply (Next_middle _ _ _ _ 0); [exact Hg|]. simpl. unfold bind.
  rewrite store_middle by exact Hg. reflexivity.
Qed.

Lemma Next_genexpr_ok it x pre' :
  Next it pre (Ok x) pre' ->
  Next g (pre ++ GenExpr it false :: suf) (Ok x) (pre' ++ GenExpr it false :: suf).
Proof. intros H. rule_of H. Qed.

Lemma Next_genexpr_raise it e pre' :
  Next it pre (Raise e) pre' ->
  Next g (pre ++ GenExpr it false :: suf) (Raise e) (pre' ++ GenExpr it true :: suf).
Proof. intros H. rule_of H. Qed.

Lemma Next_genexpr_finished it :
  Next g (pre ++ GenExpr it true :: suf) (Raise StopIteration)
    (pre ++ GenExpr it true :: suf).
Proof. eapply (Next_middle _ _ _ _ 0); [exact Hg|]. reflexivity. Qed.

Lemma Next_instance cls it a pre' :
  Next it pre a pre' ->
  Next g (pre ++ Instance cls it :: suf) a (pre' ++ Instance cls it :: suf).
Proof.
  intros [fuel H]. destruct (next_framed _ _ _ _ _ H) as [Hlen Hf].
  eapply (Next_middle _ _ _ _ fuel); [exact Hg|]. destruct cls; apply Hf.
Qed.

Lemma Next_map_ok fn it x pre' :
  Next it pre (Ok x) pre' ->
  Next g (pre ++ MapObj fn it :: suf) (fn x) (pre' ++ MapObj fn it :: suf).
Proof. intros H. rule_of H. Qed.

Lemma Next_map_raise fn it e pre' :
  Next it pre (Raise e) pre' ->
  Next g (pre ++ MapObj fn it :: suf) (Raise e) (pre' ++ MapObj fn it :: suf).
Proof. intros H. rule_of H. Qed.

Lemma Next_filter_accept fn it x good pre' :
  Next it pre (Ok x) pre' -> fn x = Ok good -> truthy good = true ->
  Next g (pre ++ FilterObj fn it :: suf) (Ok x) (pre' ++ FilterObj fn it :: suf).
Proof. intros H Hfn Ht. rule_of H. Qed.

Lemma Next_filter_raise fn it e pre' :
  Next it pre (Raise e) pre' ->
  Next g (pre ++ FilterObj fn it :: suf) (Raise e) (pre' ++ FilterObj fn it :: suf).
Proof. intros H. rule_of H. Qed.

Lemma Next_filter_skip fn it x good pre' a h' :
  Next it pre (Ok x) pre' -> fn x = Ok good -> truthy good = false ->
  Next g (pre' ++ FilterObj fn it :: suf) a h' ->
  Next g (pre ++ FilterObj fn it :: suf) a h'.
Proof.
  intros [f1 H1] Hfn Ht [f2 H2].
  apply (next_mono f1 (Nat.max f1 f2)) in H1; [|lia].
  apply (next_mono f2 (Nat.max f1 f2)) in H2; [|lia].
  destruct (next_framed _ _ _ _ _ H1) as [Hlen Hf].
  eapply (Next_middle _ _ _ _ (Nat.max f1 f2)); [exact Hg|].
  simpl. unfold bind, lift. rewrite Hf, Hfn, Ht. exact H2.
Qed.

Lemma Next_islice_ok it cnt stop x pre' :
  Next it pre (Ok x) pre' -> cnt < stop ->
  Next g (pre ++ IsliceObj (Some it) cnt stop :: suf) (Ok x)
    (pre' ++ IsliceObj (Some it) (cnt + 1) stop :: suf).
Proof.
  intros [fuel H] Hlt. assert (Hle : (stop <=? cnt) = false) by lia.
  destruct (next_framed _ _ _ _ _ H) as [Hlen Hf].
  eapply (Next_middle _ _ _ _ fuel); [exact Hg|].
  simpl. rewrite Hle. unfold bind, catch. rewrite Hf.
  rewrite store_middle by congruence. reflexivity.
Qed.

Lemma Next_islice_raise it cnt stop e pre' :
  Next it pre (Raise e) pre' -> cnt < stop ->
  Next g (pre ++ IsliceObj (Some it) cnt stop :: suf) (Raise e)
    (pre' ++ IsliceObj None cnt stop :: suf).
Proof.
  intros [fuel H] Hlt. assert (Hle : (stop <=? cnt) = false) by lia.
  destruct (next_framed _ _ _ _ _ H) as [Hlen Hf].
  eapply (Next_middle _ _ _ _ fuel); [exact Hg|].
  simpl. rewrite Hle. unfold bind, catch. rewrite Hf. unfold bind.
  rewrite store_middle by congruence. reflexivity.
Qed.

Lemma Next_islice_stop it cnt stop :
  stop <= cnt ->
  Next g (pre ++ IsliceObj (Some it) cnt stop :: suf) (Raise StopIteration)
    (pre ++ IsliceObj None cnt stop :: suf).
Proof.
  intros Hle. apply Z.leb_le in Hle.
  eapply (Next_middle _ _ _ _ 0); [exact Hg|]. simpl. rewrite Hle.
  unfold bind. rewrite store_middle by exact Hg. reflexivity.
Qed.

Lemma Next_takewhile_ok fn it x good pre' :
  Next it pre (Ok x) pre' -> fn x = Ok good -> truthy good = true ->
  Next g (pre ++ TakewhileObj fn it false :: suf) (Ok x)
    (pre' ++ TakewhileObj fn it false :: suf).
Proof. intros H Hfn Ht. rule_of H. Qed.

Lemma Next_takewhile_reject fn it x good pre' :
  Next it pre (Ok x) pre' -> fn x = Ok good -> truthy good = false ->
  Next g (pre ++ TakewhileObj fn it false :: suf) (Raise StopIteration)
    (pre' ++ TakewhileObj fn it true :: suf).
Proof. intros H Hfn Ht. rule_of H. Qed.

Lemma Next_takewhile_raise fn it e pre' :
  Next it pre (Raise e) pre' ->
  Next g (pre ++ TakewhileObj fn it false :: suf) (Raise e)
    (pre' ++ TakewhileObj fn it false :: suf).
Proof. intros H. rule_of H. Qed.

Lemma Next_takewhile_stopped fn it :
  Next g (pre ++ TakewhileObj fn it true :: suf) (Raise StopIteration)
    (pre ++ TakewhileObj fn it true :: suf).
Proof. eapply (Next_middle _ _ _ _ 0); [exact Hg|]. reflexivity. Qed.

Lemma Next_filter_map_yield fn it x v pre' :
  Next it pre (Ok x) pre' -> fn x = Ok v -> v <> VNone ->
  Next g (pre ++ FilterMapGen fn it false :: suf) (Ok v)
    (pre' ++ FilterMapGen fn it false :: suf).
Proof.
  intros H Hfn Hv. destruct H as [fuel H].
  destruct (next_framed _ _ _ _ _ H) as [Hlen Hf].
  eapply (Next_middle _ _ _ _ fuel); [exact Hg|].
  simpl. unfold bind, catch. rewrite Hf, Hfn.
  destruct v; try reflexivity. congruence.
Qed.

Lemma Next_filter_map_raise fn it e pre' :
  Next it pre (Raise e) pre' ->
  Next g (pre ++ FilterMapGen fn it false :: suf) (Raise e)
    (pre' ++ FilterMapGen fn it true :: suf).
Proof. intros H. rule_of H. Qed.

Lemma Next_filter_map_skip fn it x pre' a h' :
  Next it pre (Ok x) pre' -> fn x = Ok VNone ->
  Next g (pre' ++ FilterMapGen fn it false :: suf) a h' ->
  Next g (pre ++ FilterMapGen fn it false :: suf) a h'.
Proof.
  intros [f1 H1] Hfn [f2 H2].
  apply (next_mono f1 (Nat.max f1 f2)) in H1; [|lia].
  apply (next_mono f2 (Nat.max f1 f2)) in H2; [|lia].
  destruct (next_framed _ _ _ _ _ H1) as [Hlen Hf].
  eapply (Next_middle _ _ _ _ (Nat.max f1 f2)); [exact Hg|].
  simpl. unfold bind, catch. rewrite Hf, Hfn. exact H2.
Qed.

(** Two sources pulled one after the other, with one fuel for both. *)
Lemma two_pulls it1 it2 a1 a2 pre1 pre2 (k : heap) :
  Next it1 pre a1 pre1 -> Next it2 pre1 a2 pre2 ->
  exists fuel,
    next fuel it1 (pre ++ k) = Some (a1, pre1 ++ k)
    /\ next fuel it2 (pre1 ++ k) = Some (a2, pre2 ++ k).
Proof.
  intros [f1 H1] [f2 H2]. exists (Nat.max f1 f2).
  apply (next_mono f1 (Nat.max f1 f2)) in H1; [|lia].
  apply (next_mono f2 (Nat.max f1 f2)) in H2; [|lia].
  split; [apply (next_framed _ _ _ _ _ H1) | apply (next_framed _ _ _ _ _ H2)].
Qed.

Lemma Next_zip_ok it1 it2 x y pre1 pre2 :
  Next it1 pre (Ok x) pre1 -> Next it2 pre1 (Ok y) pre2 ->
  Next g (pre ++ ZipObj it1 it2 :: suf) (Ok (VTuple [x; y]))
    (pre2 ++ ZipObj it1 it2 :: suf).
Proof.
  intros H1 H2. destruct (two_pulls _ _ _ _ _ _ (ZipObj it1 it2 :: suf) H1 H2)
    as (fuel & E1 & E2).
  eapply (Next_middle _ _ _ _ fuel); [exact Hg|].
  simpl. unfold bind. rewrite E1, E2. reflexivity.
Qed.

Lemma Next_zip_raise1 it1 it2 e pre1 :
  Next it1 pre (Raise e) pre1 ->
  Next g (pre ++ ZipObj it1 it2 :: suf) (Raise e) (pre1 ++ ZipObj it1 it2 :: suf).
Proof. intros H. rule_of H. Qed.

Lemma Next_zip_raise2 it1 it2 x e pre1 pre2 :
  Next it1 pre (Ok x) pre1 -> Next it2 pre1 (Raise e) pre2 ->
  Next g (pre ++ ZipObj it1 it2 :: suf) (Raise e) (pre2 ++ ZipObj it1 it2 :: suf).
Proof.
  intros H1 H2. destruct (two_pulls _ _ _ _ _ _ (ZipObj it1 it2 :: suf) H1 H2)
    as (fuel & E1 & E2).
  eapply (Next_middle _ _ _ _ fuel); [exact Hg|].
  simpl. unfold bind. rewrite E1, E2. reflexivity.
Qed.

(** [zip_longest] with both sides active, then with one side left. *)
Ltac zl_rule fuel Hf1 Hf2 :=
  eapply (Next_middle _ _ _ _ fuel); [exact Hg|];
  simpl; unfold zl_item, bind, catch, ret;
  repeat first
    [ rewrite Hf1 | rewrite Hf2
    | rewrite store_middle by congruence
    | progress simpl ];
  reflexivity.

Ltac zl_two H1 H2 :=
  let f1 := fresh "f" in
  let f2 := fresh "f" in
  let L1 := fresh "L" in
  let L2 := fresh "L" in
  let Hf1 := fresh "Hf" in
  let Hf2 := fresh "Hf" in
  destruct H1 as [f1 H1]; destruct H2 as [f2 H2];
  apply (next_mono f1 (Nat.max f1 f2)) in H1; [|lia];
  apply (next_mono f2 (Nat.max f1 f2)) in H2; [|lia];
  destruct (next_framed _ _ _ _ _ H1) as [L1 Hf1];
  destruct (next_framed _ _ _ _ _ H2) as [L2 Hf2];
  zl_rule (Nat.max f1 f2) Hf1 Hf2.

Ltac zl_one H1 :=
  let f1 := fresh "f" in
  let L1 := fresh "L" in
  let Hf1 := fresh "Hf" in
  destruct H1 as [f1 H1];
  destruct (next_framed _ _ _ _ _ H1) as [L1 Hf1];
  zl_rule f1 Hf1 Hf1.

Lemma Next_zl_both a b x y pre1 pre2 :
  Next a pre (Ok x) pre1 -> Next b pre1 (Ok y) pre2 ->
  Next g (pre ++ ZipLongestObj (Some a) (Some b) 2 :: suf) (Ok (VTuple [x; y]))
    (pre2 ++ ZipLongestObj (Some a) (Some b) 2 :: suf).
Proof. intros H1 H2. zl_two H1 H2. Qed.

Lemma Next_zl_first_stops a b y pre1 pre2 :
  Next a pre (Raise StopIteration) pre1 -> Next b pre1 (Ok y) pre2 ->
  Next g (pre ++ ZipLongestObj (Some a) (Some b) 2 :: suf)
    (Ok (VTuple [VNone; y]))
    (pre2 ++ ZipLongestObj None (Some b) 1 :: suf).
Proof. intros H1 H2. zl_two H1 H2. Qed.

Lemma Next_zl_second_stops a b x pre1 pre2 :
  Next a pre (Ok x) pre1 -> Next b pre1 (Raise StopIteration) pre2 ->
  Next g (pre ++ ZipLongestObj (Some a) (Some b) 2 :: suf)
    (Ok (VTuple [x; VNone]))
    (pre2 ++ ZipLongestObj (Some a) None 1 :: suf).
Proof. intros H1 H2. zl_two H1 H2. Qed.

Lemma Next_zl_both_stop a b pre1 pre2 :
  Next a pre (Raise StopIteration) pre1 ->
  Next b pre1 (Raise StopIteration) pre2 ->
  Next g (pre ++ ZipLongestObj (Some a) (Some b) 2 :: suf)
    (Raise StopIteration)
    (pre2 ++ ZipLongestObj None (Some b) 0 :: suf).
Proof. intros H1 H2. zl_two H1 H2. Qed.

Lemma Next_zl_only_second b y pre1 :
  Next b pre (Ok y) pre1 ->
  Next g (pre ++ ZipLongestObj None (Some b) 1 :: suf) (Ok (VTuple [VNone; y]))
    (pre1 ++ ZipLongestObj None (Some b) 1 :: suf).
Proof. intros H1. zl_one H1. Qed.

Lemma Next_zl_only_second_stops b pre1 :
  Next b pre (Raise StopIteration) pre1 ->
  Next g (pre ++ ZipLongestObj None (Some b) 1 :: suf) (Raise StopIteration)
    (pre1 ++ ZipLongestObj None (Some b) 0 :: suf).
Proof. intros H1. zl_one H1. Qed.

Lemma Next_zl_only_first a x pre1 :
  Next a pre (Ok x) pre1 ->
  Next g (pre ++ ZipLongestObj (Some a) None 1 :: suf) (Ok (VTuple [x; VNone]))
    (pre1 ++ ZipLongestObj (Some a) None 1 :: suf).
Proof. intros H1. zl_one H1. Qed.

Lemma Next_zl_only_first_stops a pre1 :
  Next a pre (Raise StopIteration) pre1 ->
  Next g (pre ++ ZipLongestObj (Some a) None 1 :: suf) (Raise StopIteration)
    (pre1 ++ ZipLongestObj (Some a) None 0 :: suf).
Proof. intros H1. zl_one H1. Qed.

End Rules.

(** *** Runs of pulls *)

Lemma Pulls_length r h xs h' : Pulls r h xs h' -> length h' = length h.
Proof.
  induction 1 as [|h x h1 xs h' Hn _ IH]; [reflexivity|].
  rewrite IH. eapply Next_length, Hn.
Qed.

Lemma Drain_length r h xs h' : Drain r h xs h' -> length h' = length h.
Proof.
  induction 1 as [h h' Hn|h x h1 xs h' Hn _ IH]; [eapply Next_length, Hn|].
  rewrite IH. eapply Next_length, Hn.
Qed.

Lemma Drain_split r h xs h' :
  Drain r h xs h' <->
  exists h1, Pulls r h xs h1 /\ Next r h1 (Raise StopIteration) h'.
Proof.
  split.
  - induction 1 as [h h' Hn|h x h1 xs h' Hn _ [h2 [IH1 IH2]]].
    + exists h. split; [constructor | exact Hn].
    + exists h2. split; [econstructor; eassumption | exact IH2].
  - intros [h1 [Hp Hn]]. induction Hp as [|h x h2 xs h1 Hx _ IH].
    + constructor; exact Hn.
    + econstructor; [exact Hx | apply IH, Hn].
Qed.

Lemma Pulls_app r h xs h1 ys h2 :
  Pulls r h xs h1 -> Pulls r h1 ys h2 -> Pulls r h (xs ++ ys) h2.
Proof.
  induction 1 as [|h x h3 xs h1 Hn _ IH]; intros Hy; [exact Hy|].
  simpl. econstructor; [exact Hn | apply IH, Hy].
Qed.

Lemma Pulls_app_inv r xs ys : forall h h2,
  Pulls r h (xs ++ ys) h2 -> exists h1, Pulls r h xs h1 /\ Pulls r h1 ys h2.
Proof.
  induction xs as [|x xs IH]; intros h h2 H.
  - exists h. split; [constructor | exact H].
  - simpl in H. inversion H as [|? ? h3 ? ? Hn Hp]; subst.
    destruct (IH _ _ Hp) as [h1 [H1 H2]].
    exists h1. split; [econstructor; eassumption | exact H2].
Qed.

(** The loop of [tuple(it)] follows the pulls. *)
Lemma for_next_Some it h x h1 :
  Next it h (Ok x) h1 -> exists fuel, for_next fuel it h = Some (Ok (Some x), h1).
Proof.
  intros [fuel H]. exists fuel. unfold for_next, catch, bind. rewrite H.
  reflexivity.
Qed.

Lemma for_next_None it h h1 :
  Next it h (Raise StopIteration) h1 ->
  exists fuel, for_next fuel it h = Some (Ok None, h1).
Proof.
  intros [fuel H]. exists fuel. unfold for_next, catch, bind. rewrite H.
  reflexivity.
Qed.

Lemma drain_of_Drain it h xs h' :
  Drain it h xs h' -> exists fuel, drain fuel it h = Some (Ok xs, h').
Proof.
  induction 1 as [h h' Hn|h x h1 xs h' Hn _ [f2 IH]].
  - destruct (for_next_None _ _ _ Hn) as [f1 H1].
    exists (S f1). simpl. unfold bind. rewrite H1. reflexivity.
  - destruct (for_next_Some _ _ _ _ Hn) as [f1 H1].
    exists (S (Nat.max f1 f2)). simpl. unfold bind.
    rewrite (for_next_mono f1 _ it (Nat.le_max_l f1 f2) _ _ H1).
    rewrite (drain_mono f2 _ (Nat.le_max_r f1 f2) it _ _ IH). reflexivity.
Qed.

Lemma for_next_inv fuel it h o h1 :
  for_next fuel it h = Some (Ok o, h1) ->
  match o with
  | Some x => next fuel it h = Some (Ok x, h1)
  | None => next fuel it h = Some (Raise StopIteration, h1)
  end.
Proof.
  unfold for_next, catch, bind.
  destruct (next fuel it h) as [[[x|e] h2]|]; [| |discriminate].
  - intros [= <- <-]. reflexivity.
  - destruct e; intros [= <- <-]. reflexivity.
Qed.

Lemma Drain_of_drain fuel : forall it h xs h',
  drain fuel it h = Some (Ok xs, h') -> Drain it h xs h'.
Proof.
  induction fuel as [|n IH]; intros it h xs h'; [discriminate|].
  simpl. unfold bind at 1.
  destruct (for_next n it h) as [[[[x|]|e] h1]|] eqn:E; try discriminate.
  - apply for_next_inv in E. unfold bind, ret.
    destruct (drain n it h1) as [[[l|e] h2]|] eqn:E2; try discriminate.
    intros [= <- <-]. econstructor; [exists n; exact E | apply IH, E2].
  - apply for_next_inv in E. intros [= <- <-]. constructor. exists n; exact E.
Qed.

(** ** Pulling never changes what a cell is *)

Lemma same_shape_refl h : same_shape h h.
Proof. intros s; reflexivity. Qed.

Lemma same_shape_trans h1 h2 h3 :
  same_shape h1 h2 -> same_shape h2 h3 -> same_shape h1 h3.
Proof. intros H1 H2 s. rewrite H2. apply H1. Qed.

Lemma same_shape_instance h h' s cls it :
  same_shape h h' -> h !! s = Some (Instance cls it) ->
  h' !! s = Some (Instance cls it).
Proof.
  intros H E. specialize (H s). rewrite E in H.
  destruct (h' !! s) as [[]|]; simpl in H; congruence.
Qed.

Lemma same_shape_genexpr h h' s it fin :
  same_shape h h' -> h !! s = Some (GenExpr it fin) ->
  exists fin', h' !! s = Some (GenExpr it fin').
Proof.
  intros H E. specialize (H s). rewrite E in H.
  destruct (h' !! s) as [[]|]; simpl in H; try congruence.
  injection H as ->. eexists; reflexivity.
Qed.

Lemma keeps_pure {A} r o (m : M A) :
  (forall h a h', m h = Some (a, h') -> h' = h) -> keeps r o m.
Proof. intros H h a h' E _. rewrite (H _ _ _ E). apply same_shape_refl. Qed.

Lemma keeps_ret {A} r o (a : A) : keeps r o (ret a).
Proof. apply keeps_pure. intros h b h' [= _ <-]; reflexivity. Qed.

Lemma keeps_raise {A} r o e : keeps r o (@raise A e).
Proof. apply keeps_pure. intros h b h' [= _ <-]; reflexivity. Qed.

Lemma keeps_lift {A} r o (x : res A) : keeps r o (lift x).
Proof. apply keeps_pure. intros h b h' [= _ <-]; reflexivity. Qed.

Lemma keeps_stuck {A} r o : keeps r o (@stuck A).
Proof. intros h a h' [=]. Qed.

Lemma keeps_store r o o' : shape o' = shape o -> keeps r o (store r o').
Proof.
  intros Hs h a h'. unfold store.
  destruct (decide (r < length h)%nat) as [Hlt|]; [|discriminate].
  intros [= _ <-] Hr s.
  destruct (decide (r = s)) as [<-|Hne].
  - rewrite list_lookup_insert_eq by exact Hlt. rewrite Hr. simpl. congruence.
  - rewrite list_lookup_insert_ne by exact Hne. reflexivity.
Qed.

Lemma keeps_bind {A B} r o (m : M A) (k : A -> M B) :
  keeps r o m -> (forall x, keeps r o (k x)) -> keeps r o (bind m k).
Proof.
  intros Hm Hk h b h'. unfold bind.
  destruct (m h) as [[[x|e] h1]|] eqn:E; [| |discriminate].
  - intros H Hr. pose proof (Hm _ _ _ E Hr) as H1.
    eapply same_shape_trans; [exact H1|].
    eapply Hk; [exact H|]. rewrite H1. exact Hr.
  - intros [= _ <-] Hr. eapply Hm; eassumption.
Qed.

Lemma keeps_catch {A} r o (m : M A) (k : exn -> M A) :
  keeps r o m -> (forall e, keeps r o (k e)) -> keeps r o (catch m k).
Proof.
  intros Hm Hk h b h'. unfold catch.
  destruct (m h) as [[[x|e] h1]|] eqn:E; [| |discriminate].
  - intros [= _ <-] Hr. eapply Hm; eassumption.
  - intros H Hr. pose proof (Hm _ _ _ E Hr) as H1.
    eapply same_shape_trans; [exact H1|].
    eapply Hk; [exact H|]. rewrite H1. exact Hr.
Qed.

Ltac keeps_step IH :=
  first
    [ apply keeps_ret | apply keeps_raise | apply keeps_lift
    | apply keeps_stuck | apply keeps_store; reflexivity
    | apply IH
    | apply keeps_bind; [|intros ?]
    | apply keeps_catch; [|intros ?]
    | match goal with
      | |- keeps _ _ (match ?x with _ => _ end) => destruct x
      | |- keeps _ _ (if ?b then _ else _) => destruct b
      end ].

Lemma keeps_zl_item (nx : ref -> M value) r o slot na :
  (forall it, keeps r o (nx it)) -> keeps r o (zl_item nx slot na).
Proof. intros IH. unfold zl_item. repeat keeps_step IH. Qed.

Lemma next_obj_keeps (nx : ref -> M value) r o :
  (forall it, keeps r o (nx it)) -> keeps r o (next_obj nx r o).
Proof.
  intros IH. pose proof (fun s na => keeps_zl_item nx r o s na IH) as IHz.
  destruct o; simpl; repeat (keeps_step IH || apply IHz).
Qed.

Lemma next_same_shape fuel : forall r h a h',
  next fuel r h = Some (a, h') -> same_shape h h'.
Proof.
  induction fuel as [|n IH]; intros r h a h'; [discriminate|].
  simpl. unfold bind at 1, deref.
  destruct (h !! r) as [o|] eqn:E; [|discriminate].
  intros H. eapply (next_obj_keeps (next n) r o); [|exact H|rewrite E; reflexivity].
  intros it h1 a1 h1' H1 _. eapply IH, H1.
Qed.

Lemma Next_same_shape r h a h' : Next r h a h' -> same_shape h h'.
Proof. intros [fuel H]. eapply next_same_shape, H. Qed.

Lemma Pulls_same_shape r h xs h' : Pulls r h xs h' -> same_shape h h'.
Proof.
  induction 1 as [|h x h1 xs h' Hn _ IH]; [apply same_shape_refl|].
  eapply same_shape_trans; [eapply Next_same_shape, Hn | exact IH].
Qed.

Lemma Drain_same_shape r h xs h' : Drain r h xs h' -> same_shape h h'.
Proof.
  intros H. apply Drain_split in H as [h1 [Hp Hn]].
  eapply same_shape_trans; [eapply Pulls_same_shape, Hp|].
  eapply Next_same_shape, Hn.
Qed.

(** ** Instances and their generators *)

Lemma Next_at_instance h self cls it a h' :
  h !! self = Some (Instance cls it) -> Next it h a h' -> Next self h a h'.
Proof.
  intros E [fuel H]. exists (S fuel). simpl. unfold bind, deref. rewrite E.
  destruct cls; exact H.
Qed.

Lemma Next_instance_inv h self cls it a h' :
  h !! self = Some (Instance cls it) -> Next self h a h' -> Next it h a h'.
Proof.
  intros E [[|fuel] H]; [discriminate|]. simpl in H. unfold bind, deref in H.
  rewrite E in H. exists fuel. destruct cls; exact H.
Qed.

Lemma Pulls_at_instance h self cls it xs h' :
  h !! self = Some (Instance cls it) -> Pulls it h xs h' -> Pulls self h xs h'.
Proof.
  intros E H. induction H as [|h x h1 xs h' Hn _ IH]; [constructor|].
  econstructor; [eapply Next_at_instance; eassumption|].
  apply IH. eapply same_shape_instance; [eapply Next_same_shape, Hn | exact E].
Qed.

Lemma Drain_at_instance h self cls it xs h' :
  h !! self = Some (Instance cls it) -> Drain it h xs h' -> Drain self h xs h'.
Proof.
  intros E H. induction H as [h h' Hn|h x h1 xs h' Hn _ IH].
  - constructor. eapply Next_at_instance; eassumption.
  - econstructor; [eapply Next_at_instance; eassumption|].
    apply IH. eapply same_shape_instance; [eapply Next_same_shape, Hn | exact E].
Qed.

Lemma get_iter_eq h self cls it :
  h !! self = Some (Instance cls it) -> get_iter self h = Some (Ok it, h).
Proof. intros E. unfold get_iter, bind, deref. rewrite E. reflexivity. Qed.

Lemma get_iter_inv h self a h' :
  get_iter self h = Some (a, h') ->
  exists cls it, h !! self = Some (Instance cls it) /\ a = Ok it /\ h' = h.
Proof.
  unfold get_iter, bind, deref.
  destruct (h !! self) as [[]|]; try discriminate.
  intros [= <- <-]. eauto.
Qed.

(** The generator wrapped around an iterator passes its elements on and
    finishes with it. *)
Lemma Pulls_genexpr it xs : forall pre pre' suf g,
  Pulls it pre xs pre' -> g = length pre ->
  Pulls g (pre ++ GenExpr it false :: suf) xs (pre' ++ GenExpr it false :: suf).
Proof.
  intros pre pre' suf g H. induction H as [|h x h1 xs h' Hn _ IH]; intros Hg.
  - constructor.
  - econstructor; [apply Next_genexpr_ok; eassumption|].
    apply IH. rewrite (Next_length _ _ _ _ Hn). exact Hg.
Qed.

Lemma Drain_genexpr it xs : forall pre pre' suf g,
  Drain it pre xs pre' -> g = length pre ->
  Drain g (pre ++ GenExpr it false :: suf) xs (pre' ++ GenExpr it true :: suf).
Proof.
  intros pre pre' suf g H. induction H as [h h' Hn|h x h1 xs h' Hn _ IH]; intros Hg.
  - constructor. apply Next_genexpr_raise; assumption.
  - econstructor; [apply Next_genexpr_ok; eassumption|].
    apply IH. rewrite (Next_length _ _ _ _ Hn). exact Hg.
Qed.

(** What [ChainIt(it)] builds for an iterator [it] of the store. *)
Lemma new_ref (h : heap) r :
  (r < length h)%nat ->
  ChainIt.new (IterRef r) h
  = Some (Ok (S (length h)), h ++ [GenExpr r false; Instance KChainIt (length h)]).
Proof.
  intros Hlt. destruct (lookup_lt_is_Some_2 h r Hlt) as [o E].
  unfold ChainIt.new, genexpr, builtin_iter, bind, deref, alloc, ret.
  rewrite E. rewrite length_app, <- app_assoc. simpl.
  rewrite Nat.add_1_r. reflexivity.
Qed.

(** [collect] is the drain of [_iter]. *)
Lemma collect_of_Drain h self cls it xs h' :
  h !! self = Some (Instance cls it) -> Drain it h xs h' ->
  exists fuel, ChainIt.collect fuel self h = Some (Ok (VTuple xs), h').
Proof.
  intros E H. destruct (drain_of_Drain _ _ _ _ H) as [fuel Hd].
  exists fuel. unfold ChainIt.collect, bind.
  rewrite (get_iter_eq _ _ _ _ E), Hd. reflexivity.
Qed.

Lemma collect_inv fuel h self xs h' :
  ChainIt.collect fuel self h = Some (Ok (VTuple xs), h') ->
  exists cls it, h !! self = Some (Instance cls it) /\ Drain it h xs h'.
Proof.
  unfold ChainIt.collect. unfold bind at 1.
  destruct (get_iter self h) as [[a h1]|] eqn:E; [|discriminate].
  destruct (get_iter_inv _ _ _ _ E) as (cls & it & Hs & -> & ->).
  unfold bind, ret.
  destruct (drain fuel it h) as [[[l|e] h2]|] eqn:Ed; try discriminate.
  intros [= <- <-]. exists cls, it. split; [exact Hs|].
  eapply Drain_of_drain, Ed.
Qed.

(** [collect] on the instance that a chaining method has just built over
    the iterator [r]. *)
Lemma collect_wrapped (pre pre' : heap) r xs :
  Drain r pre xs pre' ->
  exists fuel,
    ChainIt.collect fuel (S (length pre))
      (pre ++ [GenExpr r false; Instance KChainIt (length pre)])
    = Some (Ok (VTuple xs),
            pre' ++ [GenExpr r true; Instance KChainIt (length pre)]).
Proof.
  intros H. eapply collect_of_Drain.
  - rewrite lookup_app_r by lia.
    replace (S (length pre) - length pre)%nat with 1%nat by lia. reflexivity.
  - apply Drain_genexpr; [exact H | reflexivity].
Qed.

Lemma Drain_filter fn it xs : forall pre pre' suf g,
  Drain it pre xs pre' -> g = length pre -> total_on fn xs = true ->
  Drain g (pre ++ FilterObj fn it :: suf) (List.filter (holds fn) xs)
    (pre' ++ FilterObj fn it :: suf).
Proof.
  intros pre pre' suf g H. induction H as [h h' Hn|h x h1 xs h' Hn _ IH];
    intros Hg Ht.
  - constructor. apply Next_filter_raise; assumption.
  - simpl in Ht. apply andb_prop in Ht as [Hx Ht].
    assert (Hg1 : g = length h1) by (rewrite (Next_length _ _ _ _ Hn); exact Hg).
    specialize (IH Hg1 Ht). simpl. unfold holds at 1.
    destruct (fn x) as [good|e] eqn:Efn; [|discriminate Hx].
    destruct (truthy good) eqn:Etr.
    + econstructor; [eapply Next_filter_accept; eassumption | exact IH].
    + inversion IH as [? ? Hn'|? y ? ? ? Hn' Hd']; subst.
      * constructor. eapply Next_filter_skip; first [eassumption|reflexivity].
      * econstructor; [|exact Hd'].
        eapply Next_filter_skip; first [eassumption|reflexivity].
Qed.

(** What [filter] builds. *)
Lemma filter_run (h : heap) self cls it fn :
  h !! self = Some (Instance cls it) ->
  ChainIt.filter self fn h
  = Some (Ok (S (S (length h))),
          (h ++ [FilterObj fn it])
            ++ [GenExpr (length h) false; Instance KChainIt (S (length h))]).
Proof.
  intros E. unfold ChainIt.filter. unfold bind at 1.
  rewrite (get_iter_eq _ _ _ _ E). unfold bind at 1, alloc at 1.
  rewrite new_ref by (rewrite length_app; simpl; lia).
  rewrite length_app. simpl. rewrite Nat.add_1_r. reflexivity.
Qed.

(** [C6] For a finite sequence [S] (a [collect] of it returns the tuple
    [xs]) and a predicate that returns on its elements,
    [S.filter(pred).collect()] returns exactly the elements of [xs] for
    which the predicate holds, in their order. *)
Theorem filter_collect (h : heap) self fn xs fuel0 h0
  (Hcollect : ChainIt.collect fuel0 self h = Some (Ok (VTuple xs), h0))
  (Htotal : total_on fn xs = true) :
  exists fuel h',
    (let* f := ChainIt.filter self fn in ChainIt.collect fuel f) h
    = Some (Ok (VTuple (List.filter (holds fn) xs)), h').
Proof.
  destruct (collect_inv _ _ _ _ _ Hcollect) as (cls & it & E & Hd).
  pose proof (Drain_filter fn it xs h h0 [] (length h) Hd eq_refl Htotal) as Hf.
  destruct (collect_wrapped _ _ _ _ Hf) as [fuel Hc].
  exists fuel. eexists. unfold bind. rewrite (filter_run _ _ _ _ _ E).
  rewrite length_app in Hc. simpl in Hc. rewrite Nat.add_1_r in Hc.
  exact Hc.
Qed.

Lemma filter_collect_witness :
  exists fuel h',
    (let* f := ChainIt.filter 2 (fun x => Ok (VBool (negb (py_eqb x (VInt 0))))) in
     ChainIt.collect fuel f)
      [ListIter [VInt 0; VInt 7; VInt 0; VStr ""]; GenExpr 0 false;
       Instance KChainIt 1]
    = Some (Ok (VTuple [VInt 7; VStr ""]), h').
Proof.
  exact (filter_collect
           [ListIter [VInt 0; VInt 7; VInt 0; VStr ""]; GenExpr 0 false;
            Instance KChainIt 1]
           2 (fun x => Ok (VBool (negb (py_eqb x (VInt 0)))))
           [VInt 0; VInt 7; VInt 0; VStr ""] 10
           [ListIter []; GenExpr 0 true; Instance KChainIt 1]
           eq_refl eq_refl).
Defined.

(** ** [fold] and [reduce] *)

Lemma fold_left_res_pure fn (f : value -> value -> value) xs :
  (forall a x, fn a x = Ok (f a x)) ->
  forall acc, fold_left_res fn xs acc = Ok (fold_left f xs acc).
Proof.
  intros Hf. induction xs as [|x xs IH]; intros acc; [reflexivity|].
  simpl. rewrite Hf. apply IH.
Qed.

Lemma reduce_loop_of_Drain fn it h xs h' :
  Drain it h xs h' ->
  forall acc, exists fuel h'',
    reduce_loop fuel fn it acc h = Some (fold_left_res fn xs acc, h'').
Proof.
  induction 1 as [h h' Hn|h x h1 xs h' Hn _ IH]; intros acc.
  - destruct (for_next_None _ _ _ Hn) as [f1 H1].
    exists (S f1), h'. simpl. unfold bind. rewrite H1. reflexivity.
  - destruct (for_next_Some _ _ _ _ Hn) as [f1 H1]. simpl.
    destruct (fn acc x) as [acc'|e] eqn:Efn.
    + destruct (IH acc') as (f2 & h'' & H2).
      exists (S (Nat.max f1 f2)), h''. simpl. unfold bind, lift.
      rewrite (for_next_mono f1 _ it (Nat.le_max_l f1 f2) _ _ H1), Efn.
      apply (reduce_loop_mono f2 _ (Nat.le_max_r f1 f2)), H2.
    + exists (S f1), h1. simpl. unfold bind, lift. rewrite H1, Efn.
      reflexivity.
Qed.

(** [C8] For a finite sequence [S] (a [collect] of it returns [xs]), a
    binary function and an initial value, [S.fold(fn, initial)] returns the
    left-to-right fold of [fn] over [xs] from [initial]; when [S] is empty
    that is [initial] itself. *)
Theorem fold_left_to_right (h : heap) self fn initial xs fuel0 h0
  (Hcollect : ChainIt.collect fuel0 self h = Some (Ok (VTuple xs), h0)) :
  (exists fuel h',
     ChainIt.fold fuel self fn initial h
     = Some (fold_left_res fn xs initial, h'))
  /\ (xs = [] ->
      exists fuel h', ChainIt.fold fuel self fn initial h = Some (Ok initial, h')).
Proof.
  destruct (collect_inv _ _ _ _ _ Hcollect) as (cls & it & E & Hd).
  assert (Hmain : exists fuel h',
             ChainIt.fold fuel self fn initial h
             = Some (fold_left_res fn xs initial, h')).
  { destruct (reduce_loop_of_Drain fn _ _ _ _ Hd initial) as (fuel & h' & H).
    exists fuel, h'. unfold ChainIt.fold, functools_reduce, bind.
    rewrite (get_iter_eq _ _ _ _ E). simpl. exact H. }
  split; [exact Hmain|]. intros ->. exact Hmain.
Qed.

Lemma fold_left_to_right_witness :
  (exists fuel h',
     ChainIt.fold fuel 2
       (fun a x => match a, x with
                   | VInt p, VInt q => Ok (VInt (p + q))
                   | _, _ => Raise TypeError
                   end) (VInt 10)
       [ListIter [VInt 0; VInt 1; VInt 2; VInt 3]; GenExpr 0 false;
        Instance KChainIt 1]
     = Some (Ok (VInt 16), h')).
Proof.
  exact (proj1 (fold_left_to_right
           [ListIter [VInt 0; VInt 1; VInt 2; VInt 3]; GenExpr 0 false;
            Instance KChainIt 1] 2
           (fun a x => match a, x with
                       | VInt p, VInt q => Ok (VInt (p + q))
                       | _, _ => Raise TypeError
                       end) (VInt 10)
           [VInt 0; VInt 1; VInt 2; VInt 3] 10
           [ListIter []; GenExpr 0 true; Instance KChainIt 1] eq_refl)).
Defined.

(** [C1] When the cursor of an instance yields nothing (its first pull is
    [StopIteration]), [reduce(fn)] raises the empty-sequence error, whatever
    [fn] is: [fn] is not called.  The same holds in both classes. *)
Theorem reduce_empty (h : heap) self (fn : callable2) fuel h'
  (Hempty : ChainIt.__next__ fuel self h = Some (Raise StopIteration, h')) :
  ChainIt.reduce fuel self fn h = Some (Raise EmptySequence, h')
  /\ ChainIter.reduce fuel self fn h = Some (Raise EmptySequence, h').
Proof.
  unfold ChainIt.__next__, bind in Hempty.
  destruct (get_iter self h) as [[a h1]|] eqn:E; [|discriminate].
  destruct (get_iter_inv _ _ _ _ E) as (cls & it & Hs & -> & ->).
  unfold ChainIt.reduce, ChainIter.reduce, functools_reduce, bind, catch.
  rewrite E, Hempty. split; reflexivity.
Qed.

Lemma reduce_empty_witness :
  ChainIt.reduce 5 2 (fun _ _ => Raise (UserError 0))
    [ListIter []; GenExpr 0 false; Instance KChainIt 1]
  = Some (Raise EmptySequence,
          [ListIter []; GenExpr 0 true; Instance KChainIt 1]).
Proof.
  exact (proj1 (reduce_empty
           [ListIter []; GenExpr 0 false; Instance KChainIt 1] 2
           (fun _ _ => Raise (UserError 0)) 5
           [ListIter []; GenExpr 0 true; Instance KChainIt 1] eq_refl)).
Defined.

(** ** After exhaustion *)

(** The generator of an instance is finished once it has raised. *)
Lemma genexpr_finished_after h it src fin e h' :
  h !! it = Some (GenExpr src fin) -> Next it h (Raise e) h' ->
  h' !! it = Some (GenExpr src true).
Proof.
  intros E [[|fuel] H]; [discriminate|]. simpl in H.
  unfold bind at 1, deref in H. rewrite E in H. simpl in H.
  destruct fin.
  - injection H as _ <-. exact E.
  - unfold catch in H.
    destruct (next fuel src h) as [[[x|e'] h1]|]; try discriminate.
    unfold bind, store in H.
    destruct (decide (it < length h1)%nat) as [Hlt|]; [|discriminate].
    injection H as _ <-. apply list_lookup_insert_eq, Hlt.
Qed.

Lemma drained_finished h it src fin xs h' :
  h !! it = Some (GenExpr src fin) -> Drain it h xs h' ->
  h' !! it = Some (GenExpr src true).
Proof.
  intros E H. apply Drain_split in H as [h1 [Hp Hn]].
  destruct (same_shape_genexpr _ _ _ _ _ (Pulls_same_shape _ _ _ _ Hp) E)
    as [fin' E1].
  eapply genexpr_finished_after; eassumption.
Qed.

Lemma next_finished fuel h it src :
  h !! it = Some (GenExpr src true) ->
  next (S fuel) it h = Some (Raise StopIteration, h).
Proof. intros E. simpl. unfold bind, deref. rewrite E. reflexivity. Qed.

Lemma for_next_finished fuel h it src :
  h !! it = Some (GenExpr src true) ->
  for_next (S fuel) it h = Some (Ok None, h).
Proof.
  intros E. unfold for_next, catch, bind.
  rewrite (next_finished _ _ _ _ E). reflexivity.
Qed.



(** ** Chaining methods: what they build and what [collect] then gives *)

(** Every chaining method allocates its iterator object [o] and wraps it
    with the constructor. *)
Lemma wrap_run (h : heap) o :
  (let* f := alloc o in ChainIt.new (IterRef f)) h
  = Some (Ok (S (S (length h))),
          (h ++ [o]) ++ [GenExpr (length h) false; Instance KChainIt (S (length h))]).
Proof.
  unfold bind at 1, alloc at 1.
  rewrite new_ref by (rewrite length_app; simpl; lia).
  rewrite length_app. simpl. rewrite Nat.add_1_r. reflexivity.
Qed.

Lemma chained_collect (h pre' : heap) o ys :
  Drain (length h) (h ++ [o]) ys pre' ->
  exists fuel h',
    (let* c := (let* f := alloc o in ChainIt.new (IterRef f)) in
     ChainIt.collect fuel c) h
    = Some (Ok (VTuple ys), h').
Proof.
  intros Hd. destruct (collect_wrapped _ _ _ _ Hd) as [fuel Hc].
  exists fuel. eexists. unfold bind at 1. rewrite wrap_run.
  rewrite length_app in Hc. simpl in Hc. rewrite Nat.add_1_r in Hc.
  exact Hc.
Qed.

(** *** [take] *)

Lemma Drain_islice_full it stop suf xs : forall pre pre1 cnt g,
  Pulls it pre xs pre1 -> g = length pre ->
  cnt + Z.of_nat (length xs) = stop ->
  Drain g (pre ++ IsliceObj (Some it) cnt stop :: suf) xs
    (pre1 ++ IsliceObj None stop stop :: suf).
Proof.
  intros pre pre1 cnt g H. revert cnt.
  induction H as [h|h x h1 xs h' Hn _ IH]; intros cnt Hg Hc.
  - simpl in Hc. replace cnt with stop by lia. constructor.
    apply Next_islice_stop; [exact Hg | lia].
  - simpl length in Hc. econstructor.
    + apply Next_islice_ok; [exact Hg | exact Hn | lia].
    + apply IH; [rewrite (Next_length _ _ _ _ Hn); exact Hg | lia].
Qed.

Lemma Drain_islice_short it stop suf xs : forall pre pre' cnt g,
  Drain it pre xs pre' -> g = length pre ->
  cnt + Z.of_nat (length xs) < stop ->
  exists c,
    Drain g (pre ++ IsliceObj (Some it) cnt stop :: suf) xs
      (pre' ++ IsliceObj None c stop :: suf).
Proof.
  intros pre pre' cnt g H. revert cnt.
  induction H as [h h' Hn|h x h1 xs h' Hn _ IH]; intros cnt Hg Hc.
  - exists cnt. constructor. simpl in Hc.
    apply Next_islice_raise; [exact Hg | exact Hn | lia].
  - simpl length in Hc.
    destruct (IH (cnt + 1)) as [c Hd];
      [rewrite (Next_length _ _ _ _ Hn); exact Hg | lia |].
    exists c. econstructor; [|exact Hd].
    apply Next_islice_ok; [exact Hg | exact Hn | lia].
Qed.

Lemma take_unfold (h : heap) self cls it n fuel :
  h !! self = Some (Instance cls it) -> 0 <= n <= sys_maxsize ->
  (let* t := ChainIt.take self n in ChainIt.collect fuel t) h
  = (let* c := (let* f := alloc (IsliceObj (Some it) 0 n) in
                ChainIt.new (IterRef f)) in
     ChainIt.collect fuel c) h.
Proof.
  intros E Hn. unfold ChainIt.take, itertools_islice.
  replace ((0 <=? n) && (n <=? sys_maxsize)) with true
    by (symmetry; apply andb_true_intro; split; lia).
  unfold bind. rewrite (get_iter_eq _ _ _ _ E). reflexivity.
Qed.

(** [take(n)] of a cursor that gives at least [n] elements. *)
Lemma take_collect_pulls (h : heap) self cls it n xs h1 :
  h !! self = Some (Instance cls it) -> 0 <= n <= sys_maxsize ->
  Pulls it h xs h1 -> Z.of_nat (length xs) = n ->
  exists fuel h',
    (let* t := ChainIt.take self n in ChainIt.collect fuel t) h
    = Some (Ok (VTuple xs), h').
Proof.
  intros E Hn Hp Hlen.
  pose proof (Drain_islice_full it n [] xs h h1 0 (length h) Hp eq_refl) as Hd.
  destruct (chained_collect _ _ _ _ (Hd ltac:(lia))) as (fuel & h' & Hc).
  exists fuel, h'. rewrite (take_unfold _ _ _ _ _ _ E Hn). exact Hc.
Qed.


(** An endless generator gives [f i], [f (i+1)], ... *)
Lemma Pulls_genfun f suf k : forall (pre : heap) i g,
  g = length pre ->
  Pulls g (pre ++ GenFun f i :: suf) (List.map f (seq i k))
    (pre ++ GenFun f (i + k) :: suf).
Proof.
  induction k as [|k IH]; intros pre i g Hg.
  - rewrite Nat.add_0_r. constructor.
  - simpl. econstructor; [apply Next_genfun; exact Hg|].
    replace (i + S k)%nat with (S i + k)%nat by lia. apply IH, Hg.
Qed.

(** What the constructor builds over a fresh endless generator. *)
Lemma new_gen_run (h : heap) f :
  ChainIt.new (IterGen f) h
  = Some (Ok (S (S (length h))),
          (h ++ [GenFun f 0]) ++ [GenExpr (length h) false; Instance KChainIt (S (length h))]).
Proof.
  unfold ChainIt.new, genexpr, builtin_iter, bind, alloc.
  rewrite !length_app, <- !app_assoc. simpl. rewrite !Nat.add_1_r. reflexivity.
Qed.

Lemma new_list_run (h : heap) l :
  ChainIt.new (IterList l) h
  = Some (Ok (S (S (length h))),
          (h ++ [ListIter l]) ++ [GenExpr (length h) false; Instance KChainIt (S (length h))]).
Proof.
  unfold ChainIt.new, genexpr, builtin_iter, bind, alloc.
  rewrite !length_app, <- !app_assoc. simpl. rewrite !Nat.add_1_r. reflexivity.
Qed.

(** The instance over an endless generator gives the generator's
    elements. *)
Lemma Pulls_new_gen (h : heap) f k :
  Pulls (S (length h))
    ((h ++ [GenFun f 0]) ++ [GenExpr (length h) false; Instance KChainIt (S (length h))])
    (List.map f (seq 0 k))
    ((h ++ [GenFun f k]) ++ [GenExpr (length h) false; Instance KChainIt (S (length h))]).
Proof.
  apply Pulls_genexpr; [|rewrite length_app; simpl; lia].
  apply (Pulls_genfun f [] k h 0). reflexivity.
Qed.





(** ** More fuel, larger stores *)

Lemma collect_mono fuel fuel' self :
  (fuel <= fuel')%nat -> le_M (ChainIt.collect fuel self) (ChainIt.collect fuel' self).
Proof.
  intros H. unfold ChainIt.collect.
  apply le_M_bind; [apply le_M_refl|]. intros it.
  apply le_M_bind; [apply drain_mono, H | intros; apply le_M_refl].
Qed.

Lemma next_method_mono fuel fuel' self :
  (fuel <= fuel')%nat ->
  le_M (ChainIt.__next__ fuel self) (ChainIt.__next__ fuel' self).
Proof.
  intros H. unfold ChainIt.__next__.
  apply le_M_bind; [apply le_M_refl|]. intros it. apply next_mono, H.
Qed.

Lemma Pulls_frame r h xs h' k :
  Pulls r h xs h' -> Pulls r (h ++ k) xs (h' ++ k).
Proof.
  induction 1 as [|h x h1 xs h' Hn _ IH]; [constructor|].
  econstructor; [apply Next_frame, Hn | exact IH].
Qed.

Lemma Drain_frame r h xs h' k :
  Drain r h xs h' -> Drain r (h ++ k) xs (h' ++ k).
Proof.
  induction 1 as [h h' Hn|h x h1 xs h' Hn _ IH].
  - constructor. apply Next_frame, Hn.
  - econstructor; [apply Next_frame, Hn | exact IH].
Qed.

Lemma Drain_app_inv r xs ys : forall h h',
  Drain r h (xs ++ ys) h' -> exists h1, Pulls r h xs h1 /\ Drain r h1 ys h'.
Proof.
  induction xs as [|x xs IH]; intros h h' H.
  - exists h. split; [constructor | exact H].
  - simpl in H. inversion H as [|? ? h3 ? ? Hn Hd]; subst.
    destruct (IH _ _ Hd) as [h1 [H1 H2]].
    exists h1. split; [econstructor; eassumption | exact H2].
Qed.

(** A finished generator stays finished: it raises [StopIteration] and
    changes nothing. *)
Lemma Next_finished h it src :
  h !! it = Some (GenExpr src true) -> Next it h (Raise StopIteration) h.
Proof. intros E. exists 1%nat. apply (next_finished 0 _ _ _ E). Qed.

Lemma collect_finished fuel h self cls it src :
  h !! self = Some (Instance cls it) -> h !! it = Some (GenExpr src true) ->
  ChainIt.collect (S (S fuel)) self h = Some (Ok (VTuple []), h).
Proof.
  intros Hs Hi. unfold ChainIt.collect, bind.
  rewrite (get_iter_eq _ _ _ _ Hs). simpl. unfold bind.
  rewrite (for_next_finished fuel _ _ _ Hi). reflexivity.
Qed.

(** *** [take_while] *)

Lemma longest_prefix_spec p xs :
  forallb p (longest_prefix p xs) = true
  /\ (exists rest, xs = longest_prefix p xs ++ rest
                   /\ match rest with [] => True | y :: _ => p y = false end).
Proof.
  induction xs as [|x xs [IH1 [rest [IH2 IH3]]]]; simpl.
  - split; [reflexivity|]. exists []. split; reflexivity || exact Logic.I.
  - destruct (p x) eqn:E; simpl.
    + rewrite E, IH1. split; [reflexivity|].
      exists rest. split; [congruence | exact IH3].
    + split; [reflexivity|]. exists (x :: xs). split; [reflexivity | exact E].
Qed.

Lemma Drain_takewhile_reject fn it suf xs : forall pre pre1 pre2 x good g,
  Pulls it pre xs pre1 -> g = length pre ->
  forallb (holds fn) xs = true ->
  Next it pre1 (Ok x) pre2 -> fn x = Ok good -> truthy good = false ->
  Drain g (pre ++ TakewhileObj fn it false :: suf) xs
    (pre2 ++ TakewhileObj fn it true :: suf).
Proof.
  intros pre pre1 pre2 x good g H.
  induction H as [h|h y h1 ys h' Hn _ IH]; intros Hg Hall Hx Hfn Ht.
  - constructor. eapply Next_takewhile_reject; eassumption.
  - simpl in Hall. apply andb_prop in Hall as [Hy Hall]. unfold holds in Hy.
    destruct (fn y) as [gy|] eqn:Ey; [|discriminate Hy].
    econstructor; [eapply Next_takewhile_ok; eassumption|].
    apply IH; try assumption. rewrite (Next_length _ _ _ _ Hn). exact Hg.
Qed.

Lemma wrapped_lookup_gen (pre : heap) r b o :
  (pre ++ [GenExpr r b; o]) !! length pre = Some (GenExpr r b).
Proof. apply list_lookup_middle. reflexivity. Qed.

Lemma wrapped_lookup_self (pre : heap) o cls it :
  (pre ++ [o; Instance cls it]) !! S (length pre) = Some (Instance cls it).
Proof.
  rewrite lookup_app_r by lia.
  replace (S (length pre) - length pre)%nat with 1%nat by lia. reflexivity.
Qed.

(** [take_while], then [collect] twice on what it returns: the first gives
    the elements that [takewhile] lets through, the second nothing. *)
Lemma take_while_twice (h mid : heap) self cls it fn p b :
  h !! self = Some (Instance cls it) ->
  Drain (length h) (h ++ [TakewhileObj fn it false]) p
    (mid ++ [TakewhileObj fn it b]) ->
  exists fuel0, forall fuel, (fuel0 <= fuel)%nat ->
    forall A (K : value -> value -> M A),
      (let* t := ChainIt.take_while self fn in
       let* a := ChainIt.collect fuel t in
       let* b := ChainIt.collect fuel t in
       K a b) h
      = K (VTuple p) (VTuple [])
          ((mid ++ [TakewhileObj fn it b])
             ++ [GenExpr (length h) true; Instance KChainIt (S (length h))]).
Proof.
  intros E Hd. destruct (collect_wrapped _ _ _ _ Hd) as [f1 H1].
  pose proof (Drain_length _ _ _ _ Hd) as Hlen.
  rewrite !length_app in Hlen. simpl in Hlen.
  rewrite length_app in H1. simpl in H1. rewrite Nat.add_1_r in H1.
  exists (Nat.max f1 2). intros fuel Hfuel A K.
  apply (collect_mono f1 fuel) in H1; [|lia].
  assert (H2 : ChainIt.collect fuel (S (S (length h)))
                 ((mid ++ [TakewhileObj fn it b])
                    ++ [GenExpr (length h) true; Instance KChainIt (S (length h))])
               = Some (Ok (VTuple []),
                       (mid ++ [TakewhileObj fn it b])
                         ++ [GenExpr (length h) true;
                             Instance KChainIt (S (length h))])).
  { destruct fuel as [|[|fuel]]; try lia.
    eapply collect_finished.
    - replace (S (S (length h))) with (S (length (mid ++ [TakewhileObj fn it b])))
        by (rewrite length_app; simpl; lia).
      apply wrapped_lookup_self.
    - replace (S (length h)) with (length (mid ++ [TakewhileObj fn it b]))
        by (rewrite length_app; simpl; lia).
      apply wrapped_lookup_gen. }
  unfold ChainIt.take_while. unfold bind at 1. unfold bind at 1.
  rewrite (get_iter_eq _ _ _ _ E). rewrite wrap_run.
  unfold bind at 1. rewrite H1. unfold bind at 1. rewrite H2. reflexivity.
Qed.

Lemma Next_new_gen (h : heap) f i o :
  Next (S (length h))
    ((h ++ [GenFun f i]) ++ [GenExpr (length h) false; o]) (Ok (f i))
    ((h ++ [GenFun f (S i)]) ++ [GenExpr (length h) false; o]).
Proof.
  apply Next_genexpr_ok; [rewrite length_app; simpl; lia|].
  apply Next_genfun. reflexivity.
Qed.

(** [takewhile] over a finite cursor, for a predicate that returns on the
    elements it is given: the elements after the first failing one are not
    handed to it. *)
Lemma Drain_takewhile_until fn it src suf xs : forall pre pre' fin g,
  Drain it pre xs pre' -> g = length pre ->
  pre !! it = Some (GenExpr src fin) -> returns_until_reject fn xs = true ->
  exists mid b,
    Drain g (pre ++ TakewhileObj fn it false :: suf)
      (longest_prefix (holds fn) xs) (mid ++ TakewhileObj fn it b :: suf)
    /\ Drain it mid (skipn (S (length (longest_prefix (holds fn) xs))) xs) pre'
    /\ same_shape pre mid.
Proof.
  intros pre pre' fin g H. revert fin.
  induction H as [h h' Hn|h x h1 xs h' Hn Hd IH]; intros fin Hg Hi Ht.
  - exists h', false. split; [|split].
    + constructor. apply Next_takewhile_raise; assumption.
    + constructor. eapply Next_finished, genexpr_finished_after; eassumption.
    + eapply Next_same_shape, Hn.
  - simpl in Ht.
    destruct (fn x) as [good|] eqn:Efn; [|discriminate Ht].
    pose proof (Next_same_shape _ _ _ _ Hn) as Hsh.
    assert (Eh : holds fn x = truthy good)
      by (unfold holds; rewrite Efn; reflexivity).
    simpl. rewrite !Eh.
    destruct (truthy good) eqn:Etr.
    + destruct (same_shape_genexpr _ _ _ _ _ Hsh Hi) as [fin1 Hi1].
      destruct (IH fin1) as (mid & b & H1 & H2 & H3);
        [rewrite (Next_length _ _ _ _ Hn); exact Hg | exact Hi1 | exact Ht |].
      exists mid, b. split; [|split].
      * econstructor; [eapply Next_takewhile_ok; eassumption | exact H1].
      * exact H2.
      * eapply same_shape_trans; eassumption.
    + exists h1, true. split; [|split].
      * constructor. eapply Next_takewhile_reject; eassumption.
      * exact Hd.
      * exact Hsh.
Qed.

(** [C5] [take_while] yields the longest prefix on which the predicate
    holds, stops for good, and has consumed the first failing element.

    For every finite [S] (an instance as the constructor builds it, whose
    [collect] would return [xs]) and every predicate that returns on the
    elements it is called on (those up to the first failing one; it may
    hold on all of them): collecting [S.take_while(pred)] gives the longest
    prefix of [xs] on which the predicate holds; collecting it once more
    gives nothing, whatever is left in [S]; and [S] itself then still gives
    the elements after the first failing one, and not that one.

    For every endless generator [f] whose first failing element is [f k],
    from any store: the collection is [f 0 .. f (k-1)], a second one is
    empty, and the next pull on the instance over [f] returns [f (k+1)]. *)
Theorem take_while_prefix (fn : callable) :
  (forall (h : heap) self cls it src fin xs fuel0 h0,
     h !! self = Some (Instance cls it) ->
     h !! it = Some (GenExpr src fin) ->
     ChainIt.collect fuel0 self h = Some (Ok (VTuple xs), h0) ->
     returns_until_reject fn xs = true ->
     exists fuel h',
       (let* t := ChainIt.take_while self fn in
        let* first := ChainIt.collect fuel t in
        let* again := ChainIt.collect fuel t in
        let* rest := ChainIt.collect fuel self in
        ret (VTuple [first; again; rest])) h
       = Some (Ok (VTuple
                     [VTuple (longest_prefix (holds fn) xs);
                      VTuple [];
                      VTuple (skipn (S (length (longest_prefix (holds fn) xs)))
                                xs)]),
               h'))
  /\ (forall (h : heap) (f : nat -> value) k goodk,
        forallb (holds fn) (List.map f (seq 0 k)) = true ->
        fn (f k) = Ok goodk ->
        truthy goodk = false ->
        exists fuel h',
          (let* s := ChainIt.new (IterGen f) in
           let* t := ChainIt.take_while s fn in
           let* first := ChainIt.collect fuel t in
           let* again := ChainIt.collect fuel t in
           let* after := ChainIt.__next__ fuel s in
           ret (VTuple [first; again; after])) h
          = Some (Ok (VTuple [VTuple (List.map f (seq 0 k)); VTuple []; f (S k)]),
                  h')).
Proof.
  split.
  - intros h self cls it src fin xs fuel0 h0 Hself Hiter Hcollect Hreturns.
    destruct (collect_inv _ _ _ _ _ Hcollect) as (cls' & it' & E & Hd).
    rewrite Hself in E. injection E as <- <-.
    destruct (Drain_takewhile_until fn it src [] xs h h0 fin (length h) Hd eq_refl
                Hiter Hreturns) as (mid & b & H1 & H2 & H3).
    destruct (take_while_twice _ _ _ _ _ _ _ _ Hself H1) as [f1 Htw].
    set (HA := (mid ++ [TakewhileObj fn it b])
                 ++ [GenExpr (length h) true; Instance KChainIt (S (length h))]).
    assert (Hs : HA !! self = Some (Instance cls it)).
    { unfold HA. do 2 apply lookup_app_l_Some.
      eapply same_shape_instance; eassumption. }
    destruct (collect_of_Drain HA self cls it _ _ Hs
                (Drain_frame _ _ _ _ _ (Drain_frame _ _ _ _ _ H2)))
      as [f3 H3'].
    exists (Nat.max f1 f3). eexists.
    rewrite (Htw (Nat.max f1 f3) ltac:(lia)).
    unfold bind. fold HA.
    rewrite (collect_mono f3 (Nat.max f1 f3) self ltac:(lia) _ _ H3'). reflexivity.
  - intros h f k goodk Hbefore Hfails Hfalse.
    set (H1 := (h ++ [GenFun f 0])
                 ++ [GenExpr (length h) false; Instance KChainIt (S (length h))]).
    set (Hk := fun i => (h ++ [GenFun f i])
                 ++ [GenExpr (length h) false; Instance KChainIt (S (length h))]).
    assert (Hlen : forall i, length (Hk i) = length H1).
    { intros i. unfold Hk, H1. rewrite !length_app. reflexivity. }
    assert (Hs : forall i, Hk i !! S (S (length h))
                           = Some (Instance KChainIt (S (length h)))).
    { intros i. unfold Hk.
      replace (S (S (length h))) with (S (length (h ++ [GenFun f i])))
        by (rewrite length_app; simpl; lia).
      replace (Instance KChainIt (S (length h)))
        with (Instance KChainIt (length (h ++ [GenFun f i])))
        by (rewrite length_app; simpl; f_equal; lia).
      apply wrapped_lookup_self. }
    pose proof (Drain_takewhile_reject fn (S (length h)) [] _ H1 (Hk k)
                  (Hk (S k)) (f k) goodk (length H1) (Pulls_new_gen h f k)
                  eq_refl Hbefore (Next_new_gen h f k _) Hfails Hfalse) as Hd.
    destruct (take_while_twice _ _ _ _ _ _ _ _ (Hs 0%nat) Hd) as [f1 Htw].
    destruct (Next_frame _ _ _ _
                ([TakewhileObj fn (S (length h)) true]
                   ++ [GenExpr (length H1) true; Instance KChainIt (S (length H1))])
                (Next_new_gen h f (S k) (Instance KChainIt (S (length h)))))
      as [f3 Hn].
    exists (Nat.max f1 f3). eexists.
    unfold bind at 1. rewrite new_gen_run.
    rewrite (Htw (Nat.max f1 f3) ltac:(lia)).
    unfold ChainIt.__next__, bind.
    rewrite (get_iter_eq _ _ KChainIt (S (length h)))
      by (do 2 apply lookup_app_l_Some; apply (Hs (S k))).
    fold (Hk (S k)) in Hn. rewrite app_assoc in Hn. change (Hk 0%nat) with H1.
    rewrite (next_mono f3 (Nat.max f1 f3) _ ltac:(lia) _ _ Hn). reflexivity.
Qed.

Lemma take_while_prefix_witness :
  let below_ten : callable :=
    fun x => match x with
             | VInt z => Ok (VBool (z <? 10))
             | _ => Raise TypeError
             end in
  (exists fuel h',
     (let* t := ChainIt.take_while 2 below_ten in
      let* first := ChainIt.collect fuel t in
      let* again := ChainIt.collect fuel t in
      let* rest := ChainIt.collect fuel 2 in
      ret (VTuple [first; again; rest]))
       [ListIter [VInt 1; VInt 2; VInt 40; VStr "a"; VInt 3]; GenExpr 0 false;
        Instance KChainIt 1]
     = Some (Ok (VTuple [VTuple [VInt 1; VInt 2]; VTuple [];
                         VTuple [VStr "a"; VInt 3]]), h'))
  /\ (exists fuel h',
        (let* s := ChainIt.new (IterGen (fun i => VInt (2 ^ Z.of_nat i))) in
         let* t := ChainIt.take_while s below_ten in
         let* first := ChainIt.collect fuel t in
         let* again := ChainIt.collect fuel t in
         let* after := ChainIt.__next__ fuel s in
         ret (VTuple [first; again; after])) []
        = Some (Ok (VTuple [VTuple [VInt 1; VInt 2; VInt 4; VInt 8]; VTuple [];
                            VInt 32]), h')).
Proof.
  intros below_ten. split.
  - exact (proj1 (take_while_prefix below_ten)
             [ListIter [VInt 1; VInt 2; VInt 40; VStr "a"; VInt 3]; GenExpr 0 false;
              Instance KChainIt 1]
             2%nat KChainIt 1%nat 0%nat false
             [VInt 1; VInt 2; VInt 40; VStr "a"; VInt 3] 10%nat
             [ListIter []; GenExpr 0 true; Instance KChainIt 1]
             eq_refl eq_refl eq_refl eq_refl).
  - exact (proj2 (take_while_prefix below_ten) []
             (fun i => VInt (2 ^ Z.of_nat i)) 4%nat (VBool false)
             eq_refl eq_refl eq_refl).
Defined.

(** ** Pulling from an instance after chaining on it *)

Lemma Drain_map (f : value -> value) it suf xs : forall pre pre' g,
  Drain it pre xs pre' -> g = length pre ->
  Drain g (pre ++ MapObj (fun v => Ok (f v)) it :: suf) (List.map f xs)
    (pre' ++ MapObj (fun v => Ok (f v)) it :: suf).
Proof.
  intros pre pre' g H. induction H as [h h' Hn|h x h1 xs h' Hn _ IH]; intros Hg.
  - constructor. apply Next_map_raise; assumption.
  - simpl. econstructor.
    + apply (Next_map_ok h suf g Hg (fun v => Ok (f v)) it x h1 Hn).
    + apply IH. rewrite (Next_length _ _ _ _ Hn). exact Hg.
Qed.

(** The instance [self] has been chained on (the method built the object
    [o] over its cursor), then [self] is pulled from directly, then the
    chained instance is collected: the pull returns the next element and
    the chained instance never sees it. *)
Lemma reuse_generic (h h1 h2 : heap) self cls it o o' x ys :
  h !! self = Some (Instance cls it) ->
  Next it h (Ok x) h1 ->
  Drain (length h1) (h1 ++ [o]) ys (h2 ++ [o']) ->
  exists fuel h',
    (let* m := (let* f := alloc o in ChainIt.new (IterRef f)) in
     let* y := ChainIt.__next__ fuel self in
     let* rest := ChainIt.collect fuel m in
     ret (VTuple [y; rest])) h
    = Some (Ok (VTuple [x; VTuple ys]), h').
Proof.
  intros E Hn Hd. pose proof (Next_length _ _ _ _ Hn) as Hlen.
  destruct (Next_frame _ _ _ _
              ([o] ++ [GenExpr (length h) false; Instance KChainIt (S (length h))])
              Hn) as [f1 H1].
  rewrite !app_assoc in H1.
  destruct (collect_wrapped _ _ _ _ Hd) as [f2 H2].
  rewrite length_app in H2. simpl in H2. rewrite Nat.add_1_r, Hlen in H2.
  exists (Nat.max f1 f2). eexists.
  unfold bind at 1. rewrite wrap_run.
  unfold ChainIt.__next__, bind.
  rewrite (get_iter_eq _ _ cls it) by (do 2 apply lookup_app_l_Some; exact E).
  rewrite (next_mono f1 (Nat.max f1 f2) _ ltac:(lia) _ _ H1).
  rewrite (collect_mono f2 (Nat.max f1 f2) _ ltac:(lia) _ _ H2). reflexivity.
Qed.

Lemma next_method_inv fuel self (h : heap) a h1 :
  ChainIt.__next__ fuel self h = Some (a, h1) ->
  exists cls it, h !! self = Some (Instance cls it)
                 /\ next fuel it h = Some (a, h1).
Proof.
  unfold ChainIt.__next__. unfold bind at 1.
  destruct (get_iter self h) as [[r hh]|] eqn:Eg; [|discriminate].
  destruct (get_iter_inv _ _ _ _ Eg) as (cls & it & E & -> & ->).
  intros H. exists cls, it. split; [exact E | exact H].
Qed.

(** A pull from [self] after a method has built the object [o] over its
    cursor: the outcome and the change of the store are those of the pull
    without the chaining. *)
Lemma pull_after_wrap (h h1 : heap) self cls it o fuel a :
  h !! self = Some (Instance cls it) -> next fuel it h = Some (a, h1) ->
  exists m k,
    (let* f := alloc o in ChainIt.new (IterRef f)) h = Some (Ok m, h ++ k)
    /\ ChainIt.__next__ fuel self (h ++ k) = Some (a, h1 ++ k).
Proof.
  intros E H.
  exists (S (S (length h))),
    ([o] ++ [GenExpr (length h) false; Instance KChainIt (S (length h))]).
  split.
  - rewrite wrap_run, app_assoc. reflexivity.
  - unfold ChainIt.__next__, bind.
    rewrite (get_iter_eq _ _ cls it) by (apply lookup_app_l_Some, E).
    apply (next_framed fuel it h a h1 H).
Qed.

(** [C4], as the code has it.  Nothing guards an instance that has been
    chained on: after [S.map(f)], [S.filter(pred)] or [S.take(n)], a pull
    from [S] itself raises no error of reuse.  It has the outcome that it
    would have had without the chaining, and changes the store in the same
    way: the next element of the shared cursor, or the plain
    [StopIteration] when the cursor is exhausted.  When [S] has a next
    element [x], the chained instance then goes on from the element after
    [x]. *)
Theorem reuse_after_chaining (h : heap) self
  (f : value -> value) (pred : callable) (n : Z) :
  (forall fuel0 a h1,
     ChainIt.__next__ fuel0 self h = Some (a, h1) ->
     (exists m k,
        ChainIt.map self (fun v => Ok (f v)) h = Some (Ok m, h ++ k)
        /\ ChainIt.__next__ fuel0 self (h ++ k) = Some (a, h1 ++ k))
     /\ (exists m k,
           ChainIt.filter self pred h = Some (Ok m, h ++ k)
           /\ ChainIt.__next__ fuel0 self (h ++ k) = Some (a, h1 ++ k))
     /\ (0 <= n <= sys_maxsize ->
         exists m k,
           ChainIt.take self n h = Some (Ok m, h ++ k)
           /\ ChainIt.__next__ fuel0 self (h ++ k) = Some (a, h1 ++ k)))
  /\ (forall x xs fuel0 h0,
        ChainIt.collect fuel0 self h = Some (Ok (VTuple (x :: xs)), h0) ->
        (exists fuel h',
           (let* m := ChainIt.map self (fun v => Ok (f v)) in
            let* y := ChainIt.__next__ fuel self in
            let* rest := ChainIt.collect fuel m in
            ret (VTuple [y; rest])) h
           = Some (Ok (VTuple [x; VTuple (List.map f xs)]), h'))
        /\ (total_on pred xs = true ->
            exists fuel h',
              (let* m := ChainIt.filter self pred in
               let* y := ChainIt.__next__ fuel self in
               let* rest := ChainIt.collect fuel m in
               ret (VTuple [y; rest])) h
              = Some (Ok (VTuple [x; VTuple (List.filter (holds pred) xs)]), h'))
        /\ (0 <= n <= sys_maxsize ->
            exists fuel h',
              (let* m := ChainIt.take self n in
               let* y := ChainIt.__next__ fuel self in
               let* rest := ChainIt.collect fuel m in
               ret (VTuple [y; rest])) h
              = Some (Ok (VTuple [x; VTuple (firstn (Z.to_nat n) xs)]), h'))).
Proof.
  split.
  - intros fuel0 a h1 Hpull.
    destruct (next_method_inv _ _ _ _ _ Hpull) as (cls & it & E & Hnx).
    split; [|split].
    + destruct (pull_after_wrap h h1 self cls it (MapObj (fun v => Ok (f v)) it)
                  fuel0 a E Hnx) as (m & k & Hw & Hp).
      exists m, k. split; [|exact Hp].
      unfold ChainIt.map. unfold bind at 1.
      rewrite (get_iter_eq _ _ _ _ E). exact Hw.
    + destruct (pull_after_wrap h h1 self cls it (FilterObj pred it)
                  fuel0 a E Hnx) as (m & k & Hw & Hp).
      exists m, k. split; [|exact Hp].
      unfold ChainIt.filter. unfold bind at 1.
      rewrite (get_iter_eq _ _ _ _ E). exact Hw.
    + intros Hn.
      destruct (pull_after_wrap h h1 self cls it (IsliceObj (Some it) 0 n)
                  fuel0 a E Hnx) as (m & k & Hw & Hp).
      exists m, k. split; [|exact Hp].
      unfold ChainIt.take, itertools_islice.
      replace ((0 <=? n) && (n <=? sys_maxsize)) with true
        by (symmetry; apply andb_true_intro; split; lia).
      unfold bind at 1. rewrite (get_iter_eq _ _ _ _ E). exact Hw.
  - intros x xs fuel0 h0 Hcollect.
    destruct (collect_inv _ _ _ _ _ Hcollect) as (cls & it & E & Hd).
    inversion Hd as [|? ? h1 ? ? Hx Hd1]; subst.
    pose proof (Next_length _ _ _ _ Hx) as Hlen.
    split; [|split].
    + destruct (reuse_generic h h1 h0 self cls it _ _ x _ E Hx
                  (Drain_map f it [] xs h1 h0 (length h1) Hd1 eq_refl))
        as (fuel & h' & H).
      exists fuel, h'. unfold ChainIt.map. unfold bind at 1. unfold bind at 1.
      rewrite (get_iter_eq _ _ _ _ E). exact H.
    + intros Htotal.
      destruct (reuse_generic h h1 h0 self cls it _ _ x _ E Hx
                  (Drain_filter pred it xs h1 h0 [] (length h1) Hd1 eq_refl Htotal))
        as (fuel & h' & H).
      exists fuel, h'. unfold ChainIt.filter. unfold bind at 1. unfold bind at 1.
      rewrite (get_iter_eq _ _ _ _ E). exact H.
    + intros Hn.
      assert (Hd' : exists c,
                 Drain (length h1) (h1 ++ [IsliceObj (Some it) 0 n])
                   (firstn (Z.to_nat n) xs) (c.1 ++ [IsliceObj None c.2 n])).
      { destruct (le_lt_dec (Z.to_nat n) (length xs)) as [Hle|Hgt].
        - apply Drain_split in Hd1 as [h2 [Hp _]].
          rewrite <- (take_drop (Z.to_nat n) xs) in Hp.
          apply Pulls_app_inv in Hp as [h3 [Hp _]].
          exists (h3, n). simpl.
          apply (Drain_islice_full it n [] _ h1 h3 0 (length h1) Hp eq_refl).
          rewrite length_take. lia.
        - rewrite take_ge by lia.
          destruct (Drain_islice_short it n [] xs h1 h0 0 (length h1) Hd1 eq_refl)
            as [c Hc]; [lia|].
          exists (h0, c). exact Hc. }
      destruct Hd' as [c Hd'].
      destruct (reuse_generic h h1 _ self cls it _ _ x _ E Hx Hd')
        as (fuel & h' & H).
      exists fuel, h'. unfold ChainIt.take, itertools_islice.
      replace ((0 <=? n) && (n <=? sys_maxsize)) with true
        by (symmetry; apply andb_true_intro; split; lia).
      unfold bind at 1. unfold bind at 1. unfold bind at 1.
      rewrite (get_iter_eq _ _ _ _ E). exact H.
Qed.

Lemma reuse_after_chaining_witness :
  (exists m k,
     ChainIt.map 2 (fun v => Ok (VTuple [v]))
       [ListIter []; GenExpr 0 false; Instance KChainIt 1]
     = Some (Ok m, [ListIter []; GenExpr 0 false; Instance KChainIt 1] ++ k)
     /\ ChainIt.__next__ 10 2
          ([ListIter []; GenExpr 0 false; Instance KChainIt 1] ++ k)
        = Some (Raise StopIteration,
                [ListIter []; GenExpr 0 true; Instance KChainIt 1] ++ k))
  /\ (exists fuel h',
        (let* m := ChainIt.map 2 (fun v => Ok (VTuple [v])) in
         let* y := ChainIt.__next__ fuel 2 in
         let* rest := ChainIt.collect fuel m in
         ret (VTuple [y; rest]))
          [ListIter [VInt 1; VInt 2; VInt 3]; GenExpr 0 false; Instance KChainIt 1]
        = Some (Ok (VTuple [VInt 1; VTuple [VTuple [VInt 2]; VTuple [VInt 3]]]),
                h')).
Proof.
  split.
  - exact (proj1 (proj1 (reuse_after_chaining
                    [ListIter []; GenExpr 0 false; Instance KChainIt 1]
                    2 (fun v => VTuple [v]) (fun v => Ok v) 1)
                   10%nat (Raise StopIteration)
                   [ListIter []; GenExpr 0 true; Instance KChainIt 1] eq_refl)).
  - exact (proj1 (proj2 (reuse_after_chaining
                    [ListIter [VInt 1; VInt 2; VInt 3]; GenExpr 0 false;
                     Instance KChainIt 1]
                    2 (fun v => VTuple [v]) (fun v => Ok v) 1)
                   (VInt 1) [VInt 2; VInt 3] 10%nat
                   [ListIter []; GenExpr 0 true; Instance KChainIt 1] eq_refl)).
Defined.

(** [C4] as stated fails: after [S.map(f)] on [S] over [1, 2, 3], [next(S)]
    returns [1] and raises nothing, and the mapped instance then gives the
    images of [2] and [3] only. *)
Lemma reuse_raises_nothing :
  (let* m := ChainIt.map 2 (fun v => Ok (VTuple [v])) in
   let* y := ChainIt.__next__ 10 2 in
   let* rest := ChainIt.collect 10 m in
   ret (VTuple [y; rest]))
    [ListIter [VInt 1; VInt 2; VInt 3]; GenExpr 0 false; Instance KChainIt 1]
  = Some (Ok (VTuple [VInt 1; VTuple [VTuple [VInt 2]; VTuple [VInt 3]]]),
          [ListIter []; GenExpr 0 true; Instance KChainIt 1;
           MapObj (fun v => Ok (VTuple [v])) 1; GenExpr 3 true;
           Instance KChainIt 4]).
Proof. reflexivity. Qed.

(** ** [zip] and [zip_longest] *)

Lemma length_zip_pairs xs : forall ys,
  length (zip_pairs xs ys) = Nat.min (length xs) (length ys).
Proof.
  induction xs as [|x xs IH]; intros [|y ys]; simpl; try reflexivity.
  rewrite IH. reflexivity.
Qed.

Lemma length_zip_longest_pairs xs : forall ys,
  length (zip_longest_pairs xs ys) = Nat.max (length xs) (length ys).
Proof.
  induction xs as [|x xs IH]; intros [|y ys]; simpl;
    rewrite ?length_map; try reflexivity.
  rewrite IH. reflexivity.
Qed.

(** The second argument of [zip] is a cursor [t] that lives in the cells
    [k] above the store of the first one. *)

Lemma Above_length n t k a k' (H : heap) :
  length H = n -> Above n t k a k' -> length k' = length k.
Proof.
  intros Hn Ha. pose proof (Next_length _ _ _ _ (Ha H Hn)) as Hl.
  rewrite !length_app in Hl. lia.
Qed.

Lemma Drain_zip a t suf xs : forall (h h0 : heap) ys k k' g,
  Drain a h xs h0 -> Drains_above (length h) t k ys k' ->
  g = (length h + length k)%nat ->
  exists pre',
    Drain g ((h ++ k) ++ ZipObj a t :: suf) (zip_pairs xs ys) pre'.
Proof.
  intros h h0 ys k k' g H. revert ys k.
  induction H as [h h' Hn|h x h1 xs h' Hn _ IH]; intros ys k Ht Hg.
  - eexists. constructor. simpl.
    apply Next_zip_raise1; [rewrite length_app; exact Hg|].
    apply Next_frame, Hn.
  - pose proof (Next_length _ _ _ _ Hn) as Hlen.
    inversion Ht as [? ? Ha|? y k1 ys' ? Ha Ht']; subst.
    + eexists. constructor.
      eapply Next_zip_raise2;
        [rewrite length_app; reflexivity | apply Next_frame, Hn|].
      apply Ha, Hlen.
    + pose proof (Above_length _ _ _ _ _ h1 Hlen Ha) as Hk.
      rewrite <- Hlen in Ht'.
      destruct (IH ys' k1 Ht') as [pre' Hd]; [lia|].
      exists pre'. simpl. econstructor; [|exact Hd].
      eapply Next_zip_ok;
        [rewrite length_app; lia | apply Next_frame, Hn|].
      apply Ha, Hlen.
Qed.

(** [zip_longest] once the first side is exhausted. *)
Lemma Drain_zl_second t suf ys : forall (h : heap) k k' g,
  Drains_above (length h) t k ys k' -> g = (length h + length k)%nat ->
  exists pre',
    Drain g ((h ++ k) ++ ZipLongestObj None (Some t) 1 :: suf)
      (List.map (fun y => VTuple [VNone; y]) ys) pre'.
Proof.
  intros h k k' g Ht. induction Ht as [k k' Ha|k y k1 ys k' Ha _ IH]; intros Hg.
  - eexists. constructor.
    apply Next_zl_only_second_stops; [rewrite length_app; exact Hg|].
    apply Ha. reflexivity.
  - pose proof (Above_length _ _ _ _ _ h eq_refl Ha) as Hk.
    destruct IH as [pre' Hd]; [lia|].
    exists pre'. simpl. econstructor; [|exact Hd].
    apply Next_zl_only_second; [rewrite length_app; exact Hg|].
    apply Ha. reflexivity.
Qed.

(** [zip_longest] once the second side is exhausted. *)
Lemma Drain_zl_first a suf xs : forall (h h0 k : heap) g,
  Drain a h xs h0 -> g = (length h + length k)%nat ->
  exists pre',
    Drain g ((h ++ k) ++ ZipLongestObj (Some a) None 1 :: suf)
      (List.map (fun x => VTuple [x; VNone]) xs) pre'.
Proof.
  intros h h0 k g H.
  induction H as [h h' Hn|h x h1 xs h' Hn _ IH]; intros Hg.
  - eexists. constructor.
    apply Next_zl_only_first_stops; [rewrite length_app; exact Hg|].
    apply Next_frame, Hn.
  - destruct IH as [pre' Hd];
      [rewrite (Next_length _ _ _ _ Hn); exact Hg|].
    exists pre'. simpl. econstructor; [|exact Hd].
    apply Next_zl_only_first; [rewrite length_app; exact Hg|].
    apply Next_frame, Hn.
Qed.

Lemma Drain_zip_longest a t suf xs : forall (h h0 : heap) ys k k' g,
  Drain a h xs h0 -> Drains_above (length h) t k ys k' ->
  g = (length h + length k)%nat ->
  exists pre',
    Drain g ((h ++ k) ++ ZipLongestObj (Some a) (Some t) 2 :: suf)
      (zip_longest_pairs xs ys) pre'.
Proof.
  intros h h0 ys k k' g H. revert ys k.
  induction H as [h h' Hn|h x h1 xs h' Hn Hd IH]; intros ys k Ht Hg.
  - pose proof (Next_length _ _ _ _ Hn) as Hlen.
    inversion Ht as [? ? Ha|? y k1 ys' ? Ha Ht']; subst.
    + eexists. constructor.
      eapply Next_zl_both_stop;
        [rewrite length_app; reflexivity | apply Next_frame, Hn|].
      apply Ha, Hlen.
    + pose proof (Above_length _ _ _ _ _ h' Hlen Ha) as Hk.
      rewrite <- Hlen in Ht'.
      destruct (Drain_zl_second t suf ys' h' k1 k' (length h + length k) Ht')
        as [pre' Hd]; [lia|].
      exists pre'. simpl. econstructor; [|exact Hd].
      eapply Next_zl_first_stops;
        [rewrite length_app; reflexivity | apply Next_frame, Hn|].
      apply Ha, Hlen.
  - pose proof (Next_length _ _ _ _ Hn) as Hlen.
    inversion Ht as [? ? Ha|? y k1 ys' ? Ha Ht']; subst.
    + pose proof (Above_length _ _ _ _ _ h1 Hlen Ha) as Hk.
      destruct (Drain_zl_first a suf xs h1 h' k' (length h + length k) Hd)
        as [pre' Hd']; [lia|].
      exists pre'. simpl. econstructor; [|exact Hd'].
      eapply Next_zl_second_stops;
        [rewrite length_app; reflexivity | apply Next_frame, Hn|].
      apply Ha, Hlen.
    + pose proof (Above_length _ _ _ _ _ h1 Hlen Ha) as Hk.
      rewrite <- Hlen in Ht'.
      destruct (IH ys' k1 Ht') as [pre' Hd']; [lia|].
      exists pre'. simpl. econstructor; [|exact Hd'].
      eapply Next_zl_both;
        [rewrite length_app; lia | apply Next_frame, Hn|].
      apply Ha, Hlen.
Qed.

(** A fresh iterator over a container, in the cell right above. *)
Lemma Drains_above_list n ys :
  Drains_above n n [ListIter ys] ys [ListIter []].
Proof.
  induction ys as [|y ys IH].
  - constructor. intros H Hn. apply Next_listiter_nil. congruence.
  - econstructor; [|exact IH].
    intros H Hn. apply Next_listiter_cons. congruence.
Qed.

(** An instance that the constructor has just built over a container, in
    the three cells right above. *)
Lemma Above_fresh_instance n cls l a l' b b' :
  (forall H : heap, length H = n ->
     Next (S n) (H ++ ListIter l :: [GenExpr n b])
       a (H ++ ListIter l' :: [GenExpr n b'])) ->
  Above n (S (S n)) [ListIter l; GenExpr n b; Instance cls (S n)] a
    [ListIter l'; GenExpr n b'; Instance cls (S n)].
Proof.
  intros Hg H Hn.
  change (H ++ [ListIter l; GenExpr n b; Instance cls (S n)])
    with (H ++ [ListIter l; GenExpr n b] ++ [Instance cls (S n)]).
  change (H ++ [ListIter l'; GenExpr n b'; Instance cls (S n)])
    with (H ++ [ListIter l'; GenExpr n b'] ++ [Instance cls (S n)]).
  rewrite !app_assoc.
  apply Next_instance; [rewrite length_app; simpl; lia|].
  apply Hg, Hn.
Qed.

Lemma Drains_above_instance n cls ys :
  Drains_above n (S (S n)) [ListIter ys; GenExpr n false; Instance cls (S n)] ys
    [ListIter []; GenExpr n true; Instance cls (S n)].
Proof.
  induction ys as [|y ys IH].
  - constructor. apply Above_fresh_instance. intros H Hn.
    change (H ++ [ListIter []; GenExpr n false])
      with (H ++ [ListIter []] ++ [GenExpr n false]).
    change (H ++ [ListIter []; GenExpr n true])
      with (H ++ [ListIter []] ++ [GenExpr n true]).
    rewrite !app_assoc.
    apply Next_genexpr_raise; [rewrite length_app; simpl; lia|].
    apply Next_listiter_nil. congruence.
  - econstructor; [|exact IH]. apply Above_fresh_instance. intros H Hn.
    change (H ++ [ListIter (y :: ys); GenExpr n false])
      with (H ++ [ListIter (y :: ys)] ++ [GenExpr n false]).
    change (H ++ [ListIter ys; GenExpr n false])
      with (H ++ [ListIter ys] ++ [GenExpr n false]).
    rewrite !app_assoc.
    apply Next_genexpr_ok; [rewrite length_app; simpl; lia|].
    apply Next_listiter_cons. congruence.
Qed.

Lemma zip_unfold (h : heap) self o ys fuel :
  h !! self = Some o ->
  (let* z := ChainIt.zip self (IterList ys) in ChainIt.collect fuel z) h
  = (let* c := (let* f := alloc (ZipObj self (length h)) in
                ChainIt.new (IterRef f)) in
     ChainIt.collect fuel c) (h ++ [ListIter ys]).
Proof.
  intros E. unfold ChainIt.zip, builtin_zip, builtin_iter, bind, deref, ret.
  repeat (rewrite E; simpl). reflexivity.
Qed.

Lemma zip_longest_unfold (h : heap) self o ys fuel :
  h !! self = Some o ->
  (let* z := ChainIt.zip_longest self (IterList ys) in ChainIt.collect fuel z) h
  = (let* c := (let* f := alloc (ZipLongestObj (Some self) (Some (length h)) 2) in
                ChainIt.new (IterRef f)) in
     ChainIt.collect fuel c) (h ++ [ListIter ys]).
Proof.
  intros E.
  unfold ChainIt.zip_longest, itertools_zip_longest, builtin_iter, bind, deref, ret.
  repeat (rewrite E; simpl). reflexivity.
Qed.

(** The same with an instance [T = ChainIt(ys)] for the other side. *)
Lemma zip_instance_unfold (h : heap) self o ys fuel :
  h !! self = Some o ->
  (let* t := ChainIt.new (IterList ys) in
   let* z := ChainIt.zip self (IterRef t) in ChainIt.collect fuel z) h
  = (let* c := (let* f := alloc (ZipObj self (S (S (length h)))) in
                ChainIt.new (IterRef f)) in
     ChainIt.collect fuel c)
      (h ++ [ListIter ys; GenExpr (length h) false;
             Instance KChainIt (S (length h))]).
Proof.
  intros E. unfold bind at 1. rewrite new_list_run. rewrite <- app_assoc. simpl.
  unfold ChainIt.zip, builtin_zip, builtin_iter, bind, deref, ret.
  rewrite !(lookup_app_l_Some _ _ _ _ E).
  rewrite lookup_app_r by lia.
  replace (S (S (length h)) - length h)%nat with 2%nat by lia. reflexivity.
Qed.

Lemma zip_longest_instance_unfold (h : heap) self o ys fuel :
  h !! self = Some o ->
  (let* t := ChainIt.new (IterList ys) in
   let* z := ChainIt.zip_longest self (IterRef t) in ChainIt.collect fuel z) h
  = (let* c := (let* f := alloc (ZipLongestObj (Some self)
                                   (Some (S (S (length h)))) 2) in
                ChainIt.new (IterRef f)) in
     ChainIt.collect fuel c)
      (h ++ [ListIter ys; GenExpr (length h) false;
             Instance KChainIt (S (length h))]).
Proof.
  intros E. unfold bind at 1. rewrite new_list_run. rewrite <- app_assoc. simpl.
  unfold ChainIt.zip_longest, itertools_zip_longest, builtin_iter, bind, deref, ret.
  rewrite !(lookup_app_l_Some _ _ _ _ E).
  rewrite lookup_app_r by lia.
  replace (S (S (length h)) - length h)%nat with 2%nat by lia. reflexivity.
Qed.

(** [C7] For a finite [S] (its [collect] would return [xs]) and a finite
    [T] with the elements [ys], given as a container or as an instance
    [ChainIt(ys)] of its own: [S.zip(T).collect()] is the pairs at the
    positions both have, [min(len S, len T)] of them, and
    [S.zip_longest(T).collect()] has [max(len S, len T)] pairs, the missing
    side filled with [None]. *)
Theorem zip_lengths (h : heap) self xs ys fuel0 h0
  (Hcollect : ChainIt.collect fuel0 self h = Some (Ok (VTuple xs), h0)) :
  (exists fuel h',
     (let* z := ChainIt.zip self (IterList ys) in ChainIt.collect fuel z) h
     = Some (Ok (VTuple (zip_pairs xs ys)), h'))
  /\ (exists fuel h',
        (let* t := ChainIt.new (IterList ys) in
         let* z := ChainIt.zip self (IterRef t) in ChainIt.collect fuel z) h
        = Some (Ok (VTuple (zip_pairs xs ys)), h'))
  /\ length (zip_pairs xs ys) = Nat.min (length xs) (length ys)
  /\ (exists fuel h',
        (let* z := ChainIt.zip_longest self (IterList ys) in
         ChainIt.collect fuel z) h
        = Some (Ok (VTuple (zip_longest_pairs xs ys)), h'))
  /\ (exists fuel h',
        (let* t := ChainIt.new (IterList ys) in
         let* z := ChainIt.zip_longest self (IterRef t) in
         ChainIt.collect fuel z) h
        = Some (Ok (VTuple (zip_longest_pairs xs ys)), h'))
  /\ length (zip_longest_pairs xs ys) = Nat.max (length xs) (length ys).
Proof.
  destruct (collect_inv _ _ _ _ _ Hcollect) as (cls & it & E & Hd).
  pose proof (Drain_at_instance _ _ _ _ _ _ E Hd) as Hs.
  pose proof (Drains_above_list (length h) ys) as Hl.
  pose proof (Drains_above_instance (length h) KChainIt ys) as Hi.
  repeat apply conj.
  - destruct (Drain_zip self _ [] xs h h0 ys _ _ _ Hs Hl eq_refl) as [pre' Hz].
    rewrite <- length_app in Hz.
    destruct (chained_collect _ _ _ _ Hz) as (fuel & h' & Hc).
    exists fuel, h'. rewrite (zip_unfold _ _ _ _ _ E). exact Hc.
  - destruct (Drain_zip self _ [] xs h h0 ys _ _ _ Hs Hi eq_refl) as [pre' Hz].
    rewrite <- length_app in Hz.
    destruct (chained_collect _ _ _ _ Hz) as (fuel & h' & Hc).
    exists fuel, h'. rewrite (zip_instance_unfold _ _ _ _ _ E). exact Hc.
  - apply length_zip_pairs.
  - destruct (Drain_zip_longest self _ [] xs h h0 ys _ _ _ Hs Hl eq_refl)
      as [pre' Hz].
    rewrite <- length_app in Hz.
    destruct (chained_collect _ _ _ _ Hz) as (fuel & h' & Hc).
    exists fuel, h'. rewrite (zip_longest_unfold _ _ _ _ _ E). exact Hc.
  - destruct (Drain_zip_longest self _ [] xs h h0 ys _ _ _ Hs Hi eq_refl)
      as [pre' Hz].
    rewrite <- length_app in Hz.
    destruct (chained_collect _ _ _ _ Hz) as (fuel & h' & Hc).
    exists fuel, h'. rewrite (zip_longest_instance_unfold _ _ _ _ _ E). exact Hc.
  - apply length_zip_longest_pairs.
Qed.

Lemma zip_lengths_witness :
  exists fuel h',
    (let* z := ChainIt.zip_longest 2 (IterList [VInt 3; VInt 2; VInt 1]) in
     ChainIt.collect fuel z)
      [ListIter [VInt 0; VInt 1; VInt 2; VInt 3; VInt 4]; GenExpr 0 false;
       Instance KChainIt 1]
    = Some (Ok (VTuple [VTuple [VInt 0; VInt 3]; VTuple [VInt 1; VInt 2];
                        VTuple [VInt 2; VInt 1]; VTuple [VInt 3; VNone];
                        VTuple [VInt 4; VNone]]), h').
Proof.
  exact (proj1 (proj2 (proj2 (proj2 (zip_lengths
           [ListIter [VInt 0; VInt 1; VInt 2; VInt 3; VInt 4]; GenExpr 0 false;
            Instance KChainIt 1]
           2 [VInt 0; VInt 1; VInt 2; VInt 3; VInt 4] [VInt 3; VInt 2; VInt 1] 10
           [ListIter []; GenExpr 0 true; Instance KChainIt 1] eq_refl))))).
Defined.

(** ** [find], [nth] and [filter_map]: the absent value is [None] *)

Lemma nth_loop_of_Drain it h xs h' :
  Drain it h xs h' -> forall idx n, idx <= n ->
  exists fuel h'',
    ChainIt.nth_loop fuel it idx n h
    = Some (Ok (List.nth (Z.to_nat (n - idx)) xs VNone), h'').
Proof.
  induction 1 as [h h' Hn|h x h1 xs h' Hn _ IH]; intros idx n Hle.
  - destruct (for_next_None _ _ _ Hn) as [f1 H1].
    exists (S f1), h'. simpl. unfold bind. rewrite H1.
    destruct (Z.to_nat (n - idx)); reflexivity.
  - destruct (for_next_Some _ _ _ _ Hn) as [f1 H1].
    destruct (Z.eqb_spec idx n) as [->|Hne].
    + exists (S f1), h1. simpl. unfold bind. rewrite H1, Z.eqb_refl, Z.sub_diag.
      reflexivity.
    + destruct (IH (idx + 1) n ltac:(lia)) as (f2 & h'' & H2).
      exists (S (Nat.max f1 f2)), h''. simpl. unfold bind.
      rewrite (for_next_mono f1 _ it (Nat.le_max_l f1 f2) _ _ H1).
      replace (idx =? n) with false by (symmetry; apply Z.eqb_neq, Hne).
      replace (Z.to_nat (n - idx)) with (S (Z.to_nat (n - (idx + 1)))) by lia.
      apply (nth_loop_mono f2 _ (Nat.le_max_r f1 f2)), H2.
Qed.

Lemma Drain_filter_map (f : value -> value) it suf xs : forall pre pre' g,
  Drain it pre xs pre' -> g = length pre ->
  Drain g (pre ++ FilterMapGen (fun v => Ok (f v)) it false :: suf)
    (List.filter not_none (List.map f xs))
    (pre' ++ FilterMapGen (fun v => Ok (f v)) it true :: suf).
Proof.
  intros pre pre' g H. induction H as [h h' Hn|h x h1 xs h' Hn _ IH]; intros Hg.
  - constructor. apply Next_filter_map_raise; assumption.
  - assert (Hg1 : g = length h1) by (rewrite (Next_length _ _ _ _ Hn); exact Hg).
    specialize (IH Hg1). simpl.
    destruct (not_none (f x)) eqn:En.
    + econstructor; [|exact IH].
      eapply (Next_filter_map_yield h suf g Hg (fun v => Ok (f v)));
        [exact Hn | reflexivity|].
      intros Ef. rewrite Ef in En. discriminate En.
    + assert (Ef : f x = VNone) by (destruct (f x); try discriminate En; reflexivity).
      inversion IH as [? ? Hn'|? y ? ? ? Hn' Hd']; subst.
      * constructor.
        eapply (Next_filter_map_skip h suf (length h) eq_refl (fun v => Ok (f v)));
          [exact Hn | simpl; rewrite Ef; reflexivity | exact Hn'].
      * econstructor; [|exact Hd'].
        eapply (Next_filter_map_skip h suf (length h) eq_refl (fun v => Ok (f v)));
          [exact Hn | simpl; rewrite Ef; reflexivity | exact Hn'].
Qed.

Lemma nth_none xs : forall k,
  forallb not_none xs = true ->
  List.nth k xs VNone = VNone <-> (length xs <= k)%nat.
Proof.
  induction xs as [|x xs IH]; intros k Hn.
  - destruct k; simpl; split; (reflexivity || lia).
  - simpl in Hn. apply andb_prop in Hn as [Hx Hn]. destruct k; simpl.
    + split; [intros ->; discriminate Hx | lia].
    + rewrite (IH k Hn). lia.
Qed.

Lemma find_loop_first fn it h xs h' :
  Drain it h xs h' ->
  exists fuel h'',
    ChainIt.find_loop fuel fn it h = Some (find_first fn xs, h'').
Proof.
  induction 1 as [h h' Hn|h x h1 xs h' Hn _ IH].
  - destruct (for_next_None _ _ _ Hn) as [f1 H1].
    exists (S f1), h'. simpl. unfold bind. rewrite H1. reflexivity.
  - destruct (for_next_Some _ _ _ _ Hn) as [f1 H1].
    destruct IH as (f2 & h2 & H2).
    simpl find_first. destruct (fn x) as [good|e] eqn:Efn.
    + destruct (truthy good) eqn:Etr.
      * exists (S f1), h1. simpl. unfold bind, lift.
        rewrite H1, Efn, Etr. reflexivity.
      * exists (S (Nat.max f1 f2)), h2. simpl. unfold bind, lift.
        rewrite (for_next_mono f1 _ it (Nat.le_max_l f1 f2) _ _ H1), Efn, Etr.
        apply (find_loop_mono f2 _ (Nat.le_max_r f1 f2)), H2.
    + exists (S f1), h1. simpl. unfold bind, lift. rewrite H1, Efn. reflexivity.
Qed.

Lemma find_first_match fn before x after :
  forallb (rejects fn) before = true -> holds fn x = true ->
  find_first fn (before ++ x :: after) = Ok x.
Proof.
  intros Hb Hx. induction before as [|y before IH]; simpl.
  - unfold holds in Hx. destruct (fn x) as [good|]; [|discriminate Hx].
    rewrite Hx. reflexivity.
  - simpl in Hb. apply andb_prop in Hb as [Hy Hb]. unfold rejects in Hy.
    destruct (fn y) as [good|]; [|discriminate Hy].
    destruct (truthy good); [discriminate Hy | apply IH, Hb].
Qed.

Lemma find_first_absent fn xs :
  forallb not_none xs = true ->
  find_first fn xs = Ok VNone <-> forallb (rejects fn) xs = true.
Proof.
  induction xs as [|x xs IH]; intros Hn; [split; reflexivity|].
  simpl in Hn. apply andb_prop in Hn as [Hx Hn]. simpl. unfold rejects at 1.
  destruct (fn x) as [good|e]; [destruct (truthy good)|]; simpl.
  - split; [|discriminate]. intros [= ->]. discriminate Hx.
  - apply IH, Hn.
  - split; discriminate.
Qed.

(** [C2], as the code has it.  The absent result of [find] and [nth], and
    the drop signal of [filter_map], is Python's [None], which is a value
    that a sequence may hold.  For every finite [S] (its [collect] would
    return [xs]), elements that are [None] included: [find] returns the
    first element on which the predicate returns a true value, whatever
    comes after it, and [None] when the predicate returns a false one on
    all; [nth(n)] returns the element at index [n], else [None];
    [filter_map(f)] yields every result of [f] that is not [None], false or
    empty ones included.  When no element of [S] is [None], [find] and
    [nth] return [None] exactly when there is nothing to return. *)
Theorem absent_is_none (h : heap) self pred (f : value -> value) n xs fuel0 h0
  (Hcollect : ChainIt.collect fuel0 self h = Some (Ok (VTuple xs), h0)) :
  (exists fuel h',
     ChainIt.find fuel self pred h = Some (find_first pred xs, h'))
  /\ (forall before x after,
        xs = before ++ x :: after ->
        forallb (rejects pred) before = true -> holds pred x = true ->
        find_first pred xs = Ok x)
  /\ (forallb not_none xs = true ->
      (find_first pred xs = Ok VNone <-> forallb (rejects pred) xs = true))
  /\ (exists fuel h',
        ChainIt.nth fuel self n h
        = Some (Ok (if n <? 0 then VNone else List.nth (Z.to_nat n) xs VNone), h'))
  /\ (forallb not_none xs = true ->
      ((if n <? 0 then VNone else List.nth (Z.to_nat n) xs VNone) = VNone
       <-> n < 0 \/ Z.of_nat (length xs) <= n))
  /\ (exists fuel h',
        (let* m := ChainIt.filter_map self (fun v => Ok (f v)) in
         ChainIt.collect fuel m) h
        = Some (Ok (VTuple (List.filter not_none (List.map f xs))), h'))
  /\ forallb not_none (List.filter not_none (List.map f xs)) = true.
Proof.
  destruct (collect_inv _ _ _ _ _ Hcollect) as (cls & it & E & Hd).
  split; [|split; [|split; [|split; [|split; [|split]]]]].
  - destruct (find_loop_first pred _ _ _ _ Hd) as (fuel & h' & H).
    exists fuel, h'. unfold ChainIt.find, bind.
    rewrite (get_iter_eq _ _ _ _ E). exact H.
  - intros before x after -> Hb Hx. apply find_first_match; assumption.
  - apply find_first_absent.
  - unfold ChainIt.nth. destruct (Z.ltb_spec n 0) as [Hneg|Hpos].
    + exists 0%nat, h. reflexivity.
    + destruct (nth_loop_of_Drain _ _ _ _ Hd 0 n Hpos) as (fuel & h' & H).
      exists fuel, h'. unfold bind. rewrite (get_iter_eq _ _ _ _ E).
      rewrite Z.sub_0_r in H. exact H.
  - intros Hnone. split.
    + destruct (Z.ltb_spec n 0) as [Hneg|Hpos]; [intros _; left; exact Hneg|].
      intros H. right. apply (nth_none xs _ Hnone) in H. lia.
    + destruct (Z.ltb_spec n 0) as [Hneg|Hpos]; [reflexivity|].
      intros [Hneg|Hlen]; [lia|]. apply (nth_none xs _ Hnone). lia.
  - destruct (chained_collect _ _ _ _
                (Drain_filter_map f it [] xs h h0 (length h) Hd eq_refl))
      as (fuel & h' & H).
    exists fuel, h'. unfold ChainIt.filter_map. unfold bind at 1. unfold bind at 1.
    rewrite (get_iter_eq _ _ _ _ E). exact H.
  - apply forallb_forall. intros v Hv. apply filter_In in Hv. apply Hv.
Qed.

Lemma absent_is_none_witness :
  exists fuel h',
    ChainIt.find fuel 2 (fun v => Ok (VBool (py_eqb v (VInt 0))))
      [ListIter [VNone; VInt 0; VStr ""]; GenExpr 0 false; Instance KChainIt 1]
    = Some (Ok (VInt 0), h').
Proof.
  exact (proj1 (absent_is_none
           [ListIter [VNone; VInt 0; VStr ""]; GenExpr 0 false; Instance KChainIt 1]
           2 (fun v => Ok (VBool (py_eqb v (VInt 0)))) (fun v => v) 1
           [VNone; VInt 0; VStr ""] 10
           [ListIter []; GenExpr 0 true; Instance KChainIt 1]
           eq_refl)).
Defined.

(** [C2] as stated fails when the element is [None] itself: [find] and
    [nth] return the same [None] for a sequence that holds [None] as on an
    empty one, and [filter_map] drops a [None] that [fn] returned as a
    legitimate result. *)
Lemma none_is_ambiguous :
  let holding_none := [ListIter [VNone]; GenExpr 0 false; Instance KChainIt 1] in
  let empty := [ListIter []; GenExpr 0 false; Instance KChainIt 1] in
  let always : callable := fun _ => Ok (VBool true) in
  let run (m : M value) (h : heap) := fst <$> m h in
  run (ChainIt.find 10 2 always) holding_none = Some (Ok VNone)
  /\ run (ChainIt.find 10 2 always) empty = Some (Ok VNone)
  /\ run (ChainIt.nth 10 2 0) holding_none = Some (Ok VNone)
  /\ run (ChainIt.nth 10 2 0) empty = Some (Ok VNone)
  /\ run (let* m := ChainIt.filter_map 2 (fun v => Ok v) in ChainIt.collect 10 m)
       holding_none = Some (Ok (VTuple []))
  /\ run (let* m := ChainIt.filter_map 2 (fun v => Ok v) in ChainIt.collect 10 m)
       empty = Some (Ok (VTuple [])).
Proof. repeat split. Qed.

(** ** The two classes run alike

    The texts of [ChainIt] and [ChainIter] differ in the class name and in
    how [zip] and [zip_longest] name the iterator of [self].  A store of
    one class is turned into a store of the other by renaming the class of
    its instances; every run of one class is, under that renaming, the run
    of the other. *)

Lemma sim_ret {A} (a : A) : sim (ret a) (ret a).
Proof. intros h; reflexivity. Qed.

Lemma sim_raise {A} e : sim (@raise A e) (raise e).
Proof. intros h; reflexivity. Qed.

Lemma sim_lift {A} (r : res A) : sim (lift r) (lift r).
Proof. intros h; reflexivity. Qed.

Lemma sim_stuck {A} : sim (@stuck A) stuck.
Proof. intros h; reflexivity. Qed.

Lemma sim_bind {A B} (m1 m2 : M A) (k1 k2 : A -> M B) :
  sim m1 m2 -> (forall x, sim (k1 x) (k2 x)) -> sim (bind m1 k1) (bind m2 k2).
Proof.
  intros Hm Hk h. unfold bind. rewrite Hm.
  destruct (m1 h) as [[[x|e] h1]|]; simpl; [apply Hk | reflexivity..].
Qed.

Lemma sim_catch {A} (m1 m2 : M A) (k1 k2 : exn -> M A) :
  sim m1 m2 -> (forall e, sim (k1 e) (k2 e)) -> sim (catch m1 k1) (catch m2 k2).
Proof.
  intros Hm Hk h. unfold catch. rewrite Hm.
  destruct (m1 h) as [[[x|e] h1]|]; simpl; [reflexivity | apply Hk | reflexivity].
Qed.

Lemma retag_lookup (h : heap) r : retag h !! r = retag_obj <$> (h !! r).
Proof. unfold retag. apply list_lookup_fmap. Qed.

Lemma retag_length (h : heap) : length (retag h) = length h.
Proof. unfold retag. apply length_map. Qed.

Lemma sim_deref_bind {B} r (k1 k2 : obj -> M B) :
  (forall o, sim (k1 o) (k2 (retag_obj o))) ->
  sim (bind (deref r) k1) (bind (deref r) k2).
Proof.
  intros Hk h. unfold bind, deref. rewrite retag_lookup.
  destruct (h !! r) as [o|]; simpl; [apply Hk | reflexivity].
Qed.

Lemma sim_store r o1 o2 : o2 = retag_obj o1 -> sim (store r o1) (store r o2).
Proof.
  intros -> h. unfold store. rewrite retag_length.
  destruct (decide (r < length h)%nat); [|reflexivity].
  simpl. unfold retag. rewrite list_fmap_insert. reflexivity.
Qed.

Lemma sim_alloc o1 o2 : o2 = retag_obj o1 -> sim (alloc o1) (alloc o2).
Proof.
  intros -> h. unfold alloc. rewrite retag_length. simpl.
  unfold retag. rewrite map_app. reflexivity.
Qed.

Ltac sim_step IH :=
  first
    [ apply sim_ret | apply sim_raise | apply sim_lift | apply sim_stuck
    | apply sim_store; reflexivity
    | apply sim_alloc; reflexivity
    | apply IH
    | apply sim_deref_bind; intros ?
    | apply sim_bind; [|intros ?]
    | apply sim_catch; [|intros ?]
    | match goal with
      | |- sim (match ?x with _ => _ end) _ => destruct x; simpl
      | |- sim (if ?b then _ else _) _ => destruct b
      end ].

Lemma sim_zl_item (nx : ref -> M value) slot na :
  (forall r, sim (nx r) (nx r)) -> sim (zl_item nx slot na) (zl_item nx slot na).
Proof. intros IH. unfold zl_item. repeat sim_step IH. Qed.

Lemma next_obj_sim (nx : ref -> M value) r o :
  (forall r, sim (nx r) (nx r)) ->
  sim (next_obj nx r o) (next_obj nx r (retag_obj o)).
Proof.
  intros IH. pose proof (fun s na => sim_zl_item nx s na IH) as IHz.
  destruct o; simpl; repeat (sim_step IH || apply IHz).
Qed.

Lemma next_sim fuel : forall r, sim (next fuel r) (next fuel r).
Proof.
  induction fuel as [|n IH]; intros r; [apply sim_stuck|].
  simpl. apply sim_deref_bind. intros o. apply next_obj_sim, IH.
Qed.

Create HintDb sim discriminated.
#[local] Hint Resolve next_sim : sim.

(** Takes a goal [sim m1 m2] apart; the recursive calls and the parts
    already compared are closed from the context and the hint base. *)
Ltac sim_go :=
  repeat first
    [ match goal with H : _ |- sim _ _ => apply H end
    | solve [auto 2 with sim nocore]
    | sim_step sim_stuck ].

Lemma for_next_sim fuel it : sim (for_next fuel it) (for_next fuel it).
Proof. unfold for_next. sim_go. Qed.
#[local] Hint Resolve for_next_sim : sim.

Lemma drain_sim fuel : forall it, sim (drain fuel it) (drain fuel it).
Proof. induction fuel as [|n IH]; intros it; simpl; sim_go. Qed.
#[local] Hint Resolve drain_sim : sim.

Lemma drain_set_sim fuel : forall it acc,
  sim (drain_set fuel it acc) (drain_set fuel it acc).
Proof. induction fuel as [|n IH]; intros it acc; simpl; sim_go. Qed.
#[local] Hint Resolve drain_set_sim : sim.

Lemma reduce_loop_sim fuel : forall fn it acc,
  sim (reduce_loop fuel fn it acc) (reduce_loop fuel fn it acc).
Proof. induction fuel as [|n IH]; intros fn it acc; simpl; sim_go. Qed.
#[local] Hint Resolve reduce_loop_sim : sim.

Lemma functools_reduce_sim fuel fn it initial :
  sim (functools_reduce fuel fn it initial) (functools_reduce fuel fn it initial).
Proof. unfold functools_reduce. sim_go. Qed.
#[local] Hint Resolve functools_reduce_sim : sim.

Lemma call_consumer_sim fuel : forall fn seen it,
  sim (call_consumer fuel fn seen it) (call_consumer fuel fn seen it).
Proof. induction fuel as [|n IH]; intros fn seen it; simpl; sim_go. Qed.
#[local] Hint Resolve call_consumer_sim : sim.

Lemma get_iter_sim self : sim (get_iter self) (get_iter self).
Proof. unfold get_iter. sim_go. Qed.
#[local] Hint Resolve get_iter_sim : sim.

Lemma deref_then_sim {A} r (a : A) : sim (deref r >> ret a) (deref r >> ret a).
Proof. sim_go. Qed.
#[local] Hint Resolve deref_then_sim : sim.

Lemma builtin_iter_sim x : sim (builtin_iter x) (builtin_iter x).
Proof. destruct x; simpl; sim_go. Qed.
#[local] Hint Resolve builtin_iter_sim : sim.

Lemma genexpr_sim x : sim (genexpr x) (genexpr x).
Proof. unfold genexpr. sim_go. Qed.
#[local] Hint Resolve genexpr_sim : sim.

Lemma builtin_zip_sim a b : sim (builtin_zip a b) (builtin_zip a b).
Proof. unfold builtin_zip. sim_go. Qed.
#[local] Hint Resolve builtin_zip_sim : sim.

Lemma itertools_zip_longest_sim a b :
  sim (itertools_zip_longest a b) (itertools_zip_longest a b).
Proof. unfold itertools_zip_longest. sim_go. Qed.
#[local] Hint Resolve itertools_zip_longest_sim : sim.

Lemma builtin_enumerate_sim a : sim (builtin_enumerate a) (builtin_enumerate a).
Proof. unfold builtin_enumerate. sim_go. Qed.
#[local] Hint Resolve builtin_enumerate_sim : sim.

Lemma itertools_islice_sim it n : sim (itertools_islice it n) (itertools_islice it n).
Proof. unfold itertools_islice. sim_go. Qed.
#[local] Hint Resolve itertools_islice_sim : sim.

(** *** Method by method *)

Lemma new_sim x : sim (ChainIt.new x) (ChainIter.new x).
Proof. unfold ChainIt.new, ChainIter.new. sim_go. Qed.
#[local] Hint Resolve new_sim : sim.

Lemma iter_method_sim self : sim (ChainIt.__iter__ self) (ChainIter.__iter__ self).
Proof. unfold ChainIt.__iter__, ChainIter.__iter__. sim_go. Qed.

Lemma next_method_sim fuel self :
  sim (ChainIt.__next__ fuel self) (ChainIter.__next__ fuel self).
Proof. unfold ChainIt.__next__, ChainIter.__next__. sim_go. Qed.

Lemma collect_sim fuel self :
  sim (ChainIt.collect fuel self) (ChainIter.collect fuel self).
Proof. unfold ChainIt.collect, ChainIter.collect. sim_go. Qed.

Lemma collect_frozenset_sim fuel self :
  sim (ChainIt.collect_frozenset fuel self) (ChainIter.collect_frozenset fuel self).
Proof. unfold ChainIt.collect_frozenset, ChainIter.collect_frozenset. sim_go. Qed.

Lemma collect_list_sim fuel self :
  sim (ChainIt.collect_list fuel self) (ChainIter.collect_list fuel self).
Proof. unfold ChainIt.collect_list, ChainIter.collect_list. sim_go. Qed.

Lemma collect_set_sim fuel self :
  sim (ChainIt.collect_set fuel self) (ChainIter.collect_set fuel self).
Proof. unfold ChainIt.collect_set, ChainIter.collect_set. sim_go. Qed.

Lemma collect_with_sim fuel self fn :
  sim (ChainIt.collect_with fuel self fn) (ChainIter.collect_with fuel self fn).
Proof. unfold ChainIt.collect_with, ChainIter.collect_with. sim_go. Qed.

Lemma enumerate_sim self : sim (ChainIt.enumerate self) (ChainIter.enumerate self).
Proof. unfold ChainIt.enumerate, ChainIter.enumerate. sim_go. Qed.

Lemma filter_sim self fn : sim (ChainIt.filter self fn) (ChainIter.filter self fn).
Proof. unfold ChainIt.filter, ChainIter.filter. sim_go. Qed.

Lemma filter_map_sim self fn :
  sim (ChainIt.filter_map self fn) (ChainIter.filter_map self fn).
Proof. unfold ChainIt.filter_map, ChainIter.filter_map. sim_go. Qed.

Lemma find_loop_sim fuel : forall fn it,
  sim (ChainIt.find_loop fuel fn it) (ChainIter.find_loop fuel fn it).
Proof. induction fuel as [|n IH]; intros fn it; simpl; sim_go. Qed.
#[local] Hint Resolve find_loop_sim : sim.

Lemma find_sim fuel self fn :
  sim (ChainIt.find fuel self fn) (ChainIter.find fuel self fn).
Proof. unfold ChainIt.find, ChainIter.find. sim_go. Qed.

Lemma flat_map_sim self fn :
  sim (ChainIt.flat_map self fn) (ChainIter.flat_map self fn).
Proof. unfold ChainIt.flat_map, ChainIter.flat_map. sim_go. Qed.

Lemma fold_sim fuel self fn initializer :
  sim (ChainIt.fold fuel self fn initializer) (ChainIter.fold fuel self fn initializer).
Proof. unfold ChainIt.fold, ChainIter.fold. sim_go. Qed.

Lemma map_sim self fn : sim (ChainIt.map self fn) (ChainIter.map self fn).
Proof. unfold ChainIt.map, ChainIter.map. sim_go. Qed.

Lemma nth_loop_sim fuel : forall it idx n,
  sim (ChainIt.nth_loop fuel it idx n) (ChainIter.nth_loop fuel it idx n).
Proof. induction fuel as [|k IH]; intros it idx n; simpl; sim_go. Qed.
#[local] Hint Resolve nth_loop_sim : sim.

Lemma nth_sim fuel self n : sim (ChainIt.nth fuel self n) (ChainIter.nth fuel self n).
Proof. unfold ChainIt.nth, ChainIter.nth. sim_go. Qed.

Lemma reduce_sim fuel self fn :
  sim (ChainIt.reduce fuel self fn) (ChainIter.reduce fuel self fn).
Proof. unfold ChainIt.reduce, ChainIter.reduce. sim_go. Qed.

Lemma take_sim self n : sim (ChainIt.take self n) (ChainIter.take self n).
Proof. unfold ChainIt.take, ChainIter.take. sim_go. Qed.

Lemma take_while_sim self fn :
  sim (ChainIt.take_while self fn) (ChainIter.take_while self fn).
Proof. unfold ChainIt.take_while, ChainIter.take_while. sim_go. Qed.

(** [iter(self)] in one text, [self.__iter__()] in the other. *)
Lemma zip_sim self other : sim (ChainIt.zip self other) (ChainIter.zip self other).
Proof.
  unfold ChainIt.zip, ChainIter.zip, ChainIter.__iter__, builtin_iter. sim_go.
Qed.

Lemma zip_longest_sim self other :
  sim (ChainIt.zip_longest self other) (ChainIter.zip_longest self other).
Proof.
  unfold ChainIt.zip_longest, ChainIter.zip_longest, ChainIter.__iter__,
    builtin_iter.
  sim_go.
Qed.

(** *** Programs over the API *)

Lemma resolve_sim env s : sim (resolve env s) (resolve env s).
Proof. destruct s; simpl; sim_go. Qed.
#[local] Hint Resolve resolve_sim : sim.

Lemma apply_chain_sim env self op :
  sim (apply_chain chainit_package env self op)
      (apply_chain chainiter_package env self op).
Proof.
  destruct op; simpl;
    first [ apply enumerate_sim | apply filter_sim | apply filter_map_sim
          | apply flat_map_sim | apply map_sim | apply take_sim
          | apply take_while_sim
          | apply sim_bind; [apply resolve_sim | intros ?; apply zip_sim]
          | apply sim_bind; [apply resolve_sim | intros ?; apply zip_longest_sim] ].
Qed.

Lemma apply_terminal_sim fuel self op :
  sim (apply_terminal chainit_package fuel self op)
      (apply_terminal chainiter_package fuel self op).
Proof.
  destruct op; simpl;
    first [ apply next_method_sim | apply collect_sim | apply collect_frozenset_sim
          | apply collect_list_sim | apply collect_set_sim | apply collect_with_sim
          | apply find_sim | apply fold_sim | apply nth_sim | apply reduce_sim ].
Qed.

Lemma run_program_sim fuel cmds : forall env,
  sim (run_program chainit_package fuel cmds env)
      (run_program chainiter_package fuel cmds env).
Proof.
  induction cmds as [|c cmds IH]; intros env; [apply sim_ret|].
  destruct c as [src|i op|i op]; simpl.
  - apply sim_bind; [apply resolve_sim|]. intros x.
    apply sim_bind; [apply new_sim|]. intros r. apply IH.
  - destruct (env !! i) as [self|]; [|apply sim_stuck].
    apply sim_bind; [apply apply_chain_sim|]. intros r. apply IH.
  - destruct (env !! i) as [self|]; [|apply sim_stuck].
    apply sim_bind; [apply apply_terminal_sim|]. intros v.
    apply sim_bind; [apply IH|]. intros vs. apply sim_ret.
Qed.

Lemma decorator_sim {Args : Type} (fn : Args -> res iterable) args :
  sim (chainit fn args) (chainiter fn args).
Proof.
  unfold chainit, chainiter. apply sim_bind; [apply sim_lift|].
  intros x. apply new_sim.
Qed.

(** [C9] The two packages behave alike.  Every program over the API
    (instances made from any sources, any chaining and consuming methods in
    any order and with any arguments, pulls from instances already chained
    on included) has, run with [chainiter], the outcome it has with
    [chainit]: the same values returned or the same exception, no result
    with the same fuel, and the same store up to the class name of the
    instances.  The same holds of what the two decorators return.  From the
    empty store the outcomes are equal as they are. *)
Theorem packages_equivalent :
  (forall fuel cmds env h,
     run_program chainiter_package fuel cmds env (retag h)
     = retag_out (run_program chainit_package fuel cmds env h))
  /\ (forall (Args : Type) (fn : Args -> res iterable) args h,
        chainiter fn args (retag h) = retag_out (chainit fn args h))
  /\ (forall fuel cmds,
        fst <$> run_program chainiter_package fuel cmds [] []
        = fst <$> run_program chainit_package fuel cmds [] []).
Proof.
  split; [|split].
  - intros fuel cmds env h. apply run_program_sim.
  - intros Args fn args h. apply decorator_sim.
  - intros fuel cmds.
    pose proof (run_program_sim fuel cmds [] []) as H. simpl in H. rewrite H.
    destruct (run_program chainit_package fuel cmds [] []) as [[a h]|];
      reflexivity.
Qed.

(** * Further properties of the classes *)

(** ** More steps: [enumerate], [chain.from_iterable], a function that raises *)

Section MoreRules.
Variables (pre suf : heap) (g : ref).
Hypothesis Hg : g = length pre.

Lemma Next_enumerate_ok it count x pre' :
  Next it pre (Ok x) pre' ->
  Next g (pre ++ EnumerateObj it count :: suf) (Ok (VTuple [VInt count; x]))
    (pre' ++ EnumerateObj it (count + 1) :: suf).
Proof.
  intros [fuel H]. destruct (next_framed _ _ _ _ _ H) as [Hlen Hf].
  eapply (Next_middle _ _ _ _ fuel); [exact Hg|].
  simpl. unfold bind. rewrite Hf. rewrite store_middle by congruence.
  reflexivity.
Qed.

Lemma Next_enumerate_raise it count e pre' :
  Next it pre (Raise e) pre' ->
  Next g (pre ++ EnumerateObj it count :: suf) (Raise e)
    (pre' ++ EnumerateObj it count :: suf).
Proof.
  intros [fuel H]. destruct (next_framed _ _ _ _ _ H) as [Hlen Hf].
  eapply (Next_middle _ _ _ _ fuel); [exact Hg|].
  simpl. unfold bind. rewrite Hf. reflexivity.
Qed.

Lemma Next_chain_item src x l :
  Next g (pre ++ ChainObj (Some src) (Some (x :: l)) :: suf) (Ok x)
    (pre ++ ChainObj (Some src) (Some l) :: suf).
Proof.
  eapply (Next_middle _ _ _ _ 0); [exact Hg|]. simpl. unfold bind.
  rewrite store_middle by exact Hg. reflexivity.
Qed.

Lemma Next_chain_inner_done src a h' :
  Next g (pre ++ ChainObj (Some src) None :: suf) a h' ->
  Next g (pre ++ ChainObj (Some src) (Some []) :: suf) a h'.
Proof.
  intros [fuel H]. eapply (Next_middle _ _ _ _ fuel); [exact Hg|].
  simpl. unfold bind. rewrite store_middle by exact Hg. exact H.
Qed.

Lemma Next_chain_fetch src v l pre' a h' :
  Next src pre (Ok v) pre' -> iter_value v = Ok l ->
  Next g (pre' ++ ChainObj (Some src) (Some l) :: suf) a h' ->
  Next g (pre ++ ChainObj (Some src) None :: suf) a h'.
Proof.
  intros [f1 H1] Hv [f2 H2].
  apply (next_mono f1 (Nat.max f1 f2)) in H1; [|lia].
  apply (next_mono f2 (Nat.max f1 f2)) in H2; [|lia].
  destruct (next_framed _ _ _ _ _ H1) as [Hlen Hf].
  eapply (Next_middle _ _ _ _ (Nat.max f1 f2)); [exact Hg|].
  simpl. unfold bind, catch. rewrite Hf, Hv.
  rewrite store_middle by congruence. exact H2.
Qed.

Lemma Next_chain_source_raise src e pre' :
  Next src pre (Raise e) pre' ->
  Next g (pre ++ ChainObj (Some src) None :: suf) (Raise e)
    (pre' ++ ChainObj None None :: suf).
Proof.
  intros [fuel H]. destruct (next_framed _ _ _ _ _ H) as [Hlen Hf].
  eapply (Next_middle _ _ _ _ fuel); [exact Hg|].
  simpl. unfold bind, catch. rewrite Hf.
  rewrite store_middle by congruence. reflexivity.
Qed.

Lemma Next_chain_not_iterable src v e pre' :
  Next src pre (Ok v) pre' -> iter_value v = Raise e ->
  Next g (pre ++ ChainObj (Some src) None :: suf) (Raise e)
    (pre' ++ ChainObj None None :: suf).
Proof.
  intros [fuel H] Hv. destruct (next_framed _ _ _ _ _ H) as [Hlen Hf].
  eapply (Next_middle _ _ _ _ fuel); [exact Hg|].
  simpl. unfold bind, catch. rewrite Hf, Hv.
  rewrite store_middle by congruence. reflexivity.
Qed.

(** The function of [filter_map] raises: the generator is finished, and a
    [StopIteration] that escapes its body becomes a [RuntimeError]. *)
Lemma Next_filter_map_fn_raises fn it x e pre' :
  Next it pre (Ok x) pre' -> fn x = Raise e ->
  Next g (pre ++ FilterMapGen fn it false :: suf)
    (Raise (match e with StopIteration => RuntimeError | _ => e end))
    (pre' ++ FilterMapGen fn it true :: suf).
Proof.
  intros [fuel H] Hfn. destruct (next_framed _ _ _ _ _ H) as [Hlen Hf].
  eapply (Next_middle _ _ _ _ fuel); [exact Hg|].
  simpl. unfold bind, catch. rewrite Hf, Hfn.
  destruct e; rewrite store_middle by congruence; reflexivity.
Qed.

End MoreRules.

(** ** Pipelines *)

(** A cursor that steps like another one drains like it. *)
Lemma Drain_transport g (A B : heap) ys h' :
  (forall a h1, Next g A a h1 -> Next g B a h1) ->
  Drain g A ys h' -> Drain g B ys h'.
Proof.
  intros Hstep Hd. inversion Hd as [? ? Hn|? y h1 ? ? Hn Hd1]; subst.
  - constructor. apply Hstep, Hn.
  - econstructor; [apply Hstep, Hn | exact Hd1].
Qed.

Lemma Drain_enumerate a suf xs : forall pre pre' count g,
  Drain a pre xs pre' -> g = length pre ->
  exists count',
    Drain g (pre ++ EnumerateObj a count :: suf) (enumerate_from count xs)
      (pre' ++ EnumerateObj a count' :: suf).
Proof.
  intros pre pre' count g H. revert count.
  induction H as [h h' Hn|h x h1 xs h' Hn _ IH]; intros count Hg.
  - exists count. constructor. apply Next_enumerate_raise; assumption.
  - destruct (IH (count + 1)) as [c' Hd];
      [rewrite (Next_length _ _ _ _ Hn); exact Hg|].
    exists c'. simpl. econstructor; [|exact Hd].
    apply Next_enumerate_ok; assumption.
Qed.

Lemma Drain_chain_inner src suf (pre : heap) g ys h' :
  g = length pre -> forall l,
  Drain g (pre ++ ChainObj (Some src) None :: suf) ys h' ->
  Drain g (pre ++ ChainObj (Some src) (Some l) :: suf) (l ++ ys) h'.
Proof.
  intros Hg l. induction l as [|x l IH]; intros Hd; simpl.
  - eapply Drain_transport; [|exact Hd].
    intros a h1. apply Next_chain_inner_done, Hg.
  - econstructor; [apply Next_chain_item, Hg | apply IH, Hd].
Qed.

Lemma Drain_chain src suf vs : forall pre pre' g,
  Drain src pre vs pre' -> g = length pre ->
  forallb iterable_value vs = true ->
  Drain g (pre ++ ChainObj (Some src) None :: suf)
    (List.concat (List.map items vs)) (pre' ++ ChainObj None None :: suf).
Proof.
  intros pre pre' g H. induction H as [h h' Hn|h v h1 vs h' Hn _ IH];
    intros Hg Hit.
  - constructor. apply Next_chain_source_raise; assumption.
  - simpl in Hit. apply andb_prop in Hit as [Hv Hit].
    assert (Hg1 : g = length h1) by (rewrite (Next_length _ _ _ _ Hn); exact Hg).
    specialize (IH Hg1 Hit). simpl. unfold iterable_value in Hv.
    unfold items at 1.
    destruct (iter_value v) as [l|] eqn:El; [|discriminate Hv].
    eapply Drain_transport; [|apply (Drain_chain_inner src suf h1 g _ _ Hg1 l IH)].
    intros a h2. eapply Next_chain_fetch; eassumption.
Qed.

Lemma Drain_takewhile_only fn it suf xs : forall pre pre' g,
  Drain it pre xs pre' -> g = length pre -> total_on fn xs = true ->
  exists final,
    Drain g (pre ++ TakewhileObj fn it false :: suf)
      (longest_prefix (holds fn) xs) final.
Proof.
  intros pre pre' g H. induction H as [h h' Hn|h x h1 xs h' Hn _ IH];
    intros Hg Ht.
  - eexists. constructor. apply Next_takewhile_raise; eassumption.
  - simpl in Ht. apply andb_prop in Ht as [Hx Ht].
    destruct (fn x) as [good|] eqn:Efn; [|discriminate Hx].
    simpl. unfold holds at 1. rewrite Efn. destruct (truthy good) eqn:Etr.
    + destruct IH as [final Hd];
        [rewrite (Next_length _ _ _ _ Hn); exact Hg | exact Ht|].
      exists final. econstructor; [|exact Hd].
      eapply Next_takewhile_ok; eassumption.
    + eexists. constructor. eapply Next_takewhile_reject; eassumption.
Qed.

Lemma Drain_islice it n suf xs (pre pre' : heap) g :
  Drain it pre xs pre' -> g = length pre -> 0 <= n ->
  exists final,
    Drain g (pre ++ IsliceObj (Some it) 0 n :: suf) (firstn (Z.to_nat n) xs) final.
Proof.
  intros Hd Hg Hn.
  destruct (le_lt_dec (Z.to_nat n) (length xs)) as [Hle|Hgt].
  - apply Drain_split in Hd as [h1 [Hp _]].
    rewrite <- (take_drop (Z.to_nat n) xs) in Hp.
    apply Pulls_app_inv in Hp as [h2 [Hp _]].
    eexists. apply (Drain_islice_full it n suf _ pre h2 0 g Hp Hg).
    rewrite length_take. lia.
  - rewrite take_ge by lia.
    destruct (Drain_islice_short it n suf xs pre pre' 0 g Hd Hg) as [c Hc]; [lia|].
    eexists. exact Hc.
Qed.

Lemma total_on_pure p xs : total_on (pure p) xs = true.
Proof. induction xs as [|x xs IH]; [reflexivity | exact IH]. Qed.

(** The instance that a chaining method returns is ready with what its
    iterator object gives. *)
Lemma ready_wrap (h pre' : heap) o ys :
  Drain (length h) (h ++ [o]) ys pre' ->
  exists r H1,
    (let* f := alloc o in ChainIt.new (IterRef f)) h = Some (Ok r, H1)
    /\ ready H1 r ys.
Proof.
  intros Hd. eexists. eexists. split; [apply wrap_run|].
  exists KChainIt, (S (length h)). eexists. split.
  - replace (S (S (length h))) with (S (length (h ++ [o])))
      by (rewrite length_app; simpl; lia).
    replace (Instance KChainIt (S (length h)))
      with (Instance KChainIt (length (h ++ [o])))
      by (rewrite length_app; simpl; f_equal; lia).
    apply wrapped_lookup_self.
  - apply Drain_genexpr; [exact Hd | rewrite length_app; simpl; lia].
Qed.

(** One chaining method: it returns an instance that is ready with the
    elements that the method's list function gives. *)
Lemma chain_step (h : heap) self op xs :
  ready h self xs -> admissible op xs = true ->
  exists r H1,
    apply_chain chainit_package [] self (chain_op_of op) h = Some (Ok r, H1)
    /\ ready H1 r (denote op xs).
Proof.
  intros (cls & it & h0 & E & Hd) Hadm.
  pose proof (get_iter_eq _ _ _ _ E) as Hget.
  destruct op as [|p|f|f|f|n|p]; simpl in *.
  - destruct (Drain_enumerate self [] xs h h0 0 (length h)
                (Drain_at_instance _ _ _ _ _ _ E Hd) eq_refl) as [c' Hd'].
    destruct (ready_wrap _ _ _ _ Hd') as (r & H1 & Hrun & Hr).
    exists r, H1. split; [|exact Hr].
    unfold ChainIt.enumerate, builtin_enumerate, builtin_iter.
    unfold bind at 1. unfold bind at 1. unfold bind at 1. unfold deref.
    rewrite E. simpl. exact Hrun.
  - destruct (ready_wrap _ _ _ _
                (Drain_filter (pure p) it xs h h0 [] (length h) Hd eq_refl
                   (total_on_pure p xs))) as (r & H1 & Hrun & Hr).
    exists r, H1. split; [|exact Hr].
    unfold ChainIt.filter. unfold bind at 1. unfold bind at 1.
    rewrite Hget. exact Hrun.
  - destruct (ready_wrap _ _ _ _
                (Drain_filter_map f it [] xs h h0 (length h) Hd eq_refl))
      as (r & H1 & Hrun & Hr).
    exists r, H1. split; [|exact Hr].
    unfold ChainIt.filter_map. unfold bind at 1. unfold bind at 1.
    rewrite Hget. exact Hrun.
  - pose proof (Drain_map f it [] xs h h0 (length h) Hd eq_refl) as Hm.
    assert (Hit : forallb iterable_value (List.map f xs) = true).
    { rewrite forallb_forall in *. intros v Hv.
      apply in_map_iff in Hv as (x & <- & Hx). apply Hadm, Hx. }
    pose proof (Drain_chain (length h) [] _ _ _ (length (h ++ [MapObj (pure f) it]))
                  Hm eq_refl Hit) as Hc.
    rewrite map_map in Hc.
    destruct (ready_wrap _ _ _ _ Hc) as (r & H1 & Hrun & Hr).
    exists r, H1. split; [|exact Hr].
    unfold ChainIt.flat_map. unfold bind at 1. unfold bind at 1.
    rewrite Hget. unfold bind at 1, alloc at 1. exact Hrun.
  - destruct (ready_wrap _ _ _ _
                (Drain_map f it [] xs h h0 (length h) Hd eq_refl))
      as (r & H1 & Hrun & Hr).
    exists r, H1. split; [|exact Hr].
    unfold ChainIt.map. unfold bind at 1. unfold bind at 1.
    rewrite Hget. exact Hrun.
  - apply andb_prop in Hadm as [Hn0 Hn1].
    destruct (Drain_islice it n [] xs h h0 (length h) Hd eq_refl) as [final Hd'];
      [lia|].
    destruct (ready_wrap _ _ _ _ Hd') as (r & H1 & Hrun & Hr).
    exists r, H1. split; [|exact Hr].
    unfold ChainIt.take, itertools_islice. rewrite Hn0, Hn1. simpl.
    unfold bind at 1. unfold bind at 1. rewrite Hget. exact Hrun.
  - destruct (Drain_takewhile_only (pure p) it [] xs h h0 (length h) Hd eq_refl
                (total_on_pure p xs)) as [final Hd'].
    destruct (ready_wrap _ _ _ _ Hd') as (r & H1 & Hrun & Hr).
    exists r, H1. split; [|exact Hr].
    unfold ChainIt.take_while. unfold bind at 1. unfold bind at 1.
    rewrite Hget. exact Hrun.
Qed.

Lemma chain_all_ready ops : forall (h : heap) self xs,
  ready h self xs -> admissible_all ops xs = true ->
  exists r H1,
    chain_all ops self h = Some (Ok r, H1) /\ ready H1 r (denote_all ops xs).
Proof.
  induction ops as [|op ops IH]; intros h self xs Hr Hadm.
  - exists self, h. split; [reflexivity | exact Hr].
  - simpl in Hadm. apply andb_prop in Hadm as [Ha Hadm].
    destruct (chain_step h self op xs Hr Ha) as (s & H1 & Hrun & Hr1).
    destruct (IH H1 s _ Hr1 Hadm) as (r & H2 & Hrun2 & Hr2).
    exists r, H2. split; [|exact Hr2].
    simpl. unfold bind. rewrite Hrun. exact Hrun2.
Qed.

(** Chaining methods compose like the list functions they stand for: for
    an instance whose [collect] would return [xs],
    [self.op1(..).op2(..)...collect()] returns what the list functions of
    [op1], [op2], ... make of [xs], one after the other. *)
Theorem pipeline_collect (h : heap) self ops xs fuel0 h0
  (Hcollect : ChainIt.collect fuel0 self h = Some (Ok (VTuple xs), h0))
  (Hadmissible : admissible_all ops xs = true) :
  exists fuel h',
    (let* last := chain_all ops self in ChainIt.collect fuel last) h
    = Some (Ok (VTuple (denote_all ops xs)), h').
Proof.
  destruct (collect_inv _ _ _ _ _ Hcollect) as (cls & it & E & Hd).
  destruct (chain_all_ready ops h self xs) as (r & H1 & Hrun & Hr);
    [exists cls, it, h0; split; assumption | exact Hadmissible|].
  destruct Hr as (cls1 & it1 & h1 & E1 & Hd1).
  destruct (collect_of_Drain _ _ _ _ _ _ E1 Hd1) as [fuel Hc].
  exists fuel, h1. unfold bind. rewrite Hrun. exact Hc.
Qed.

Lemma pipeline_collect_witness :
  exists fuel h',
    (let* last :=
       chain_all
         [PEnumerate;
          PFilter (fun t => match t with
                            | VTuple [VInt i; _] => VBool (i mod 2 =? 0)
                            | _ => VNone
                            end);
          PMap (fun t => match t with VTuple [_; x] => x | _ => VNone end);
          PFlatMap (fun v => VTuple [v; v]);
          PTake 3] 2 in
     ChainIt.collect fuel last)
      [ListIter [VStr "a"; VStr "b"; VStr "c"; VStr "d"]; GenExpr 0 false;
       Instance KChainIt 1]
    = Some (Ok (VTuple [VStr "a"; VStr "a"; VStr "c"]), h').
Proof.
  exact (pipeline_collect
           [ListIter [VStr "a"; VStr "b"; VStr "c"; VStr "d"]; GenExpr 0 false;
            Instance KChainIt 1]
           2
           [PEnumerate;
            PFilter (fun t => match t with
                              | VTuple [VInt i; _] => VBool (i mod 2 =? 0)
                              | _ => VNone
                              end);
            PMap (fun t => match t with VTuple [_; x] => x | _ => VNone end);
            PFlatMap (fun v => VTuple [v; v]);
            PTake 3]
           [VStr "a"; VStr "b"; VStr "c"; VStr "d"] 10
           [ListIter []; GenExpr 0 true; Instance KChainIt 1]
           eq_refl eq_refl).
Defined.

(** ** What the consuming methods leave in the cursor *)

Lemma find_mono fuel fuel' self fn :
  (fuel <= fuel')%nat ->
  le_M (ChainIt.find fuel self fn) (ChainIt.find fuel' self fn).
Proof.
  intros H. unfold ChainIt.find.
  apply le_M_bind; [apply le_M_refl|]. intros it. apply find_loop_mono, H.
Qed.

Lemma nth_mono fuel fuel' self n :
  (fuel <= fuel')%nat ->
  le_M (ChainIt.nth fuel self n) (ChainIt.nth fuel' self n).
Proof.
  intros H. unfold ChainIt.nth. destruct (n <? 0); [apply le_M_refl|].
  apply le_M_bind; [apply le_M_refl|]. intros it. apply nth_loop_mono, H.
Qed.

(** A drained generator gives nothing more. *)
Lemma Drain_finished h it src :
  h !! it = Some (GenExpr src true) -> Drain it h [] h.
Proof. intros E. constructor. eapply Next_finished, E. Qed.

Lemma find_loop_rest fn it src xs : forall (h h0 : heap) fin,
  Drain it h xs h0 -> h !! it = Some (GenExpr src fin) ->
  total_on fn xs = true ->
  exists fuel h1,
    ChainIt.find_loop fuel fn it h
    = Some (Ok (hd VNone (List.filter (holds fn) xs)), h1)
    /\ Drain it h1 (after_first (holds fn) xs) h0
    /\ same_shape h h1.
Proof.
  intros h h0 fin H. revert fin.
  induction H as [h h' Hn|h x h1 xs h' Hn Hd IH]; intros fin Hi Ht.
  - destruct (for_next_None _ _ _ Hn) as [f1 H1].
    exists (S f1), h'. split; [|split].
    + simpl. unfold bind. rewrite H1. reflexivity.
    + eapply Drain_finished, genexpr_finished_after; eassumption.
    + eapply Next_same_shape, Hn.
  - simpl in Ht. apply andb_prop in Ht as [Hx Ht].
    destruct (for_next_Some _ _ _ _ Hn) as [f1 H1].
    pose proof (Next_same_shape _ _ _ _ Hn) as Hsh.
    destruct (fn x) as [good|] eqn:Efn; [|discriminate Hx].
    assert (Eh : holds fn x = truthy good)
      by (unfold holds; rewrite Efn; reflexivity).
    simpl. rewrite !Eh.
    destruct (truthy good) eqn:Etr.
    + exists (S f1), h1. split; [|split; [exact Hd | exact Hsh]].
      simpl. unfold bind, lift. rewrite H1, Efn, Etr. reflexivity.
    + destruct (same_shape_genexpr _ _ _ _ _ Hsh Hi) as [fin1 Hi1].
      destruct (IH fin1 Hi1 Ht) as (f2 & h2 & H2 & Hrest & Hsh2).
      exists (S (Nat.max f1 f2)), h2. split; [|split].
      * simpl. unfold bind, lift.
        rewrite (for_next_mono f1 _ it (Nat.le_max_l f1 f2) _ _ H1), Efn, Etr.
        apply (find_loop_mono f2 _ (Nat.le_max_r f1 f2)), H2.
      * exact Hrest.
      * eapply same_shape_trans; eassumption.
Qed.

Lemma nth_loop_rest it src xs : forall (h h0 : heap) fin idx n,
  Drain it h xs h0 -> h !! it = Some (GenExpr src fin) -> idx <= n ->
  exists fuel h1,
    ChainIt.nth_loop fuel it idx n h
    = Some (Ok (List.nth (Z.to_nat (n - idx)) xs VNone), h1)
    /\ Drain it h1 (skipn (S (Z.to_nat (n - idx))) xs) h0
    /\ same_shape h h1.
Proof.
  intros h h0 fin idx n H. revert fin idx.
  induction H as [h h' Hn|h x h1 xs h' Hn Hd IH]; intros fin idx Hi Hle.
  - destruct (for_next_None _ _ _ Hn) as [f1 H1].
    exists (S f1), h'. split; [|split].
    + simpl. unfold bind. rewrite H1. destruct (Z.to_nat (n - idx)); reflexivity.
    + eapply Drain_finished, genexpr_finished_after; eassumption.
    + eapply Next_same_shape, Hn.
  - destruct (for_next_Some _ _ _ _ Hn) as [f1 H1].
    pose proof (Next_same_shape _ _ _ _ Hn) as Hsh.
    destruct (Z.eqb_spec idx n) as [->|Hne].
    + exists (S f1), h1. split; [|split; [|exact Hsh]].
      * simpl. unfold bind. rewrite H1, Z.eqb_refl, Z.sub_diag. reflexivity.
      * rewrite Z.sub_diag. exact Hd.
    + destruct (same_shape_genexpr _ _ _ _ _ Hsh Hi) as [fin1 Hi1].
      destruct (IH fin1 (idx + 1) Hi1 ltac:(lia)) as (f2 & h2 & H2 & Hrest & Hsh2).
      exists (S (Nat.max f1 f2)), h2.
      replace (Z.to_nat (n - idx)) with (S (Z.to_nat (n - (idx + 1)))) by lia.
      split; [|split].
      * simpl. unfold bind.
        rewrite (for_next_mono f1 _ it (Nat.le_max_l f1 f2) _ _ H1).
        replace (idx =? n) with false by (symmetry; apply Z.eqb_neq, Hne).
        apply (nth_loop_mono f2 _ (Nat.le_max_r f1 f2)), H2.
      * exact Hrest.
      * eapply same_shape_trans; eassumption.
Qed.

(** [find] consumes the elements up to the one it returns and no more: a
    [collect] after it returns the elements after the first one for which
    the predicate holds (none when [find] found nothing). *)
Theorem find_then_rest (h : heap) self cls it src fin pred xs fuel0 h0
  (Hself : h !! self = Some (Instance cls it))
  (Hiter : h !! it = Some (GenExpr src fin))
  (Hcollect : ChainIt.collect fuel0 self h = Some (Ok (VTuple xs), h0))
  (Htotal : total_on pred xs = true) :
  exists fuel h',
    (let* found := ChainIt.find fuel self pred in
     let* rest := ChainIt.collect fuel self in
     ret (VTuple [found; rest])) h
    = Some (Ok (VTuple [hd VNone (List.filter (holds pred) xs);
                        VTuple (after_first (holds pred) xs)]), h').
Proof.
  destruct (collect_inv _ _ _ _ _ Hcollect) as (cls' & it' & E & Hd).
  rewrite Hself in E. injection E as <- <-.
  destruct (find_loop_rest pred it src xs h h0 fin Hd Hiter Htotal)
    as (f1 & h1 & H1 & Hrest & Hsh).
  pose proof (same_shape_instance _ _ _ _ _ Hsh Hself) as Hself1.
  destruct (collect_of_Drain _ _ _ _ _ _ Hself1 Hrest) as [f2 H2].
  exists (Nat.max f1 f2), h0. unfold bind at 1.
  assert (Hf : ChainIt.find (Nat.max f1 f2) self pred h
               = Some (Ok (hd VNone (List.filter (holds pred) xs)), h1)).
  { apply (find_mono f1 _ self pred (Nat.le_max_l f1 f2)).
    unfold ChainIt.find, bind. rewrite (get_iter_eq _ _ _ _ Hself). exact H1. }
  rewrite Hf. unfold bind.
  rewrite (collect_mono f2 (Nat.max f1 f2) self ltac:(lia) _ _ H2). reflexivity.
Qed.

Lemma find_then_rest_witness :
  exists fuel h',
    (let* found := ChainIt.find fuel 2 (int_pred (fun z => 1 <? z)) in
     let* rest := ChainIt.collect fuel 2 in
     ret (VTuple [found; rest]))
      [ListIter [VInt 1; VInt 5; VInt 0; VInt 7]; GenExpr 0 false;
       Instance KChainIt 1]
    = Some (Ok (VTuple [VInt 5; VTuple [VInt 0; VInt 7]]), h').
Proof.
  exact (find_then_rest
           [ListIter [VInt 1; VInt 5; VInt 0; VInt 7]; GenExpr 0 false;
            Instance KChainIt 1]
           2 KChainIt 1 0 false (int_pred (fun z => 1 <? z))
           [VInt 1; VInt 5; VInt 0; VInt 7] 10
           [ListIter []; GenExpr 0 true; Instance KChainIt 1]
           eq_refl eq_refl eq_refl eq_refl).
Defined.

(** [nth(n)] consumes the elements [0 .. n] and no more, whatever it
    returns; with a negative [n] it consumes nothing. *)
Theorem nth_then_rest (h : heap) self cls it src fin n xs fuel0 h0
  (Hself : h !! self = Some (Instance cls it))
  (Hiter : h !! it = Some (GenExpr src fin))
  (Hcollect : ChainIt.collect fuel0 self h = Some (Ok (VTuple xs), h0)) :
  exists fuel h',
    (let* elem := ChainIt.nth fuel self n in
     let* rest := ChainIt.collect fuel self in
     ret (VTuple [elem; rest])) h
    = Some (Ok (VTuple
                  [if n <? 0 then VNone else List.nth (Z.to_nat n) xs VNone;
                   VTuple (if n <? 0 then xs else skipn (S (Z.to_nat n)) xs)]),
            h').
Proof.
  destruct (collect_inv _ _ _ _ _ Hcollect) as (cls' & it' & E & Hd).
  rewrite Hself in E. injection E as <- <-.
  destruct (Z.ltb_spec n 0) as [Hneg|Hpos].
  - exists fuel0, h0. unfold bind at 1. unfold ChainIt.nth.
    replace (n <? 0) with true by (symmetry; apply Z.ltb_lt, Hneg).
    unfold ret at 1. unfold bind. rewrite Hcollect. reflexivity.
  - destruct (nth_loop_rest it src xs h h0 fin 0 n Hd Hiter Hpos)
      as (f1 & h1 & H1 & Hrest & Hsh).
    rewrite Z.sub_0_r in H1, Hrest.
    pose proof (same_shape_instance _ _ _ _ _ Hsh Hself) as Hself1.
    destruct (collect_of_Drain _ _ _ _ _ _ Hself1 Hrest) as [f2 H2].
    exists (Nat.max f1 f2), h0. unfold bind at 1.
    assert (Hf : ChainIt.nth (Nat.max f1 f2) self n h
                 = Some (Ok (List.nth (Z.to_nat n) xs VNone), h1)).
    { apply (nth_mono f1 _ self n (Nat.le_max_l f1 f2)).
      unfold ChainIt.nth.
      replace (n <? 0) with false by (symmetry; apply Z.ltb_ge, Hpos).
      unfold bind. rewrite (get_iter_eq _ _ _ _ Hself). exact H1. }
    rewrite Hf. unfold bind.
    rewrite (collect_mono f2 (Nat.max f1 f2) self ltac:(lia) _ _ H2). reflexivity.
Qed.

Lemma nth_then_rest_witness :
  exists fuel h',
    (let* elem := ChainIt.nth fuel 2 1 in
     let* rest := ChainIt.collect fuel 2 in
     ret (VTuple [elem; rest]))
      [ListIter [VInt 1; VInt 5; VInt 0; VInt 7]; GenExpr 0 false;
       Instance KChainIt 1]
    = Some (Ok (VTuple [VInt 5; VTuple [VInt 0; VInt 7]]), h').
Proof.
  exact (nth_then_rest
           [ListIter [VInt 1; VInt 5; VInt 0; VInt 7]; GenExpr 0 false;
            Instance KChainIt 1]
           2 KChainIt 1 0 false 1
           [VInt 1; VInt 5; VInt 0; VInt 7] 10
           [ListIter []; GenExpr 0 true; Instance KChainIt 1]
           eq_refl eq_refl eq_refl).
Defined.

(** [reduce] on a sequence that has a first element: the fold of the
    function over the other elements, from the first one. *)
Theorem reduce_nonempty (h : heap) self fn x xs fuel0 h0
  (Hcollect : ChainIt.collect fuel0 self h = Some (Ok (VTuple (x :: xs)), h0)) :
  exists fuel h',
    ChainIt.reduce fuel self fn h = Some (fold_left_res fn xs x, h').
Proof.
  destruct (collect_inv _ _ _ _ _ Hcollect) as (cls & it & E & Hd).
  inversion Hd as [|? ? h1 ? ? Hx Hd1]; subst.
  destruct Hx as [f1 H1].
  destruct (reduce_loop_of_Drain fn _ _ _ _ Hd1 x) as (f2 & h' & H2).
  exists (Nat.max f1 f2), h'.
  unfold ChainIt.reduce, functools_reduce, bind, catch.
  rewrite (get_iter_eq _ _ _ _ E).
  rewrite (next_mono f1 (Nat.max f1 f2) it ltac:(lia) _ _ H1).
  apply (reduce_loop_mono f2 _ (Nat.le_max_r f1 f2)), H2.
Qed.

Lemma reduce_nonempty_witness :
  exists fuel h',
    ChainIt.reduce fuel 2 add
      [ListIter [VInt 0; VInt 1; VInt 2; VInt 3]; GenExpr 0 false;
       Instance KChainIt 1]
    = Some (Ok (VInt 6), h').
Proof.
  exact (reduce_nonempty
           [ListIter [VInt 0; VInt 1; VInt 2; VInt 3]; GenExpr 0 false;
            Instance KChainIt 1]
           2 add (VInt 0) [VInt 1; VInt 2; VInt 3] 10
           [ListIter []; GenExpr 0 true; Instance KChainIt 1] eq_refl).
Defined.

(** A chained instance is collected, then the instance it was chained on:
    [mid] is the store of the latter once the former is drained. *)
Lemma chained_then_rest (h k mid k' h0 : heap) o o' self cls it ys rest :
  h !! self = Some (Instance cls it) -> same_shape h mid ->
  Drain (length (h ++ k)) ((h ++ k) ++ [o]) ys ((mid ++ k') ++ [o']) ->
  Drain it mid rest h0 ->
  exists fuel h',
    (let* c := (let* f := alloc o in ChainIt.new (IterRef f)) in
     let* a := ChainIt.collect fuel c in
     let* b := ChainIt.collect fuel self in
     ret (VTuple [a; b])) (h ++ k)
    = Some (Ok (VTuple [VTuple ys; VTuple rest]), h').
Proof.
  intros Hself Hsh Hd Hrest.
  destruct (collect_wrapped _ _ _ _ Hd) as [f1 H1].
  pose proof (same_shape_instance _ _ _ _ _ Hsh Hself) as Hself1.
  set (top := [GenExpr (length (h ++ k)) true;
               Instance KChainIt (length ((h ++ k) ++ [o]))]) in H1.
  assert (Hs : (((mid ++ k') ++ [o']) ++ top) !! self = Some (Instance cls it)).
  { rewrite <- !app_assoc. apply lookup_app_l_Some, Hself1. }
  assert (Hr : Drain it (((mid ++ k') ++ [o']) ++ top) rest
                 (((h0 ++ k') ++ [o']) ++ top)).
  { rewrite <- !app_assoc. apply Drain_frame, Hrest. }
  destruct (collect_of_Drain _ _ _ _ _ _ Hs Hr) as [f2 H2].
  exists (Nat.max f1 f2). eexists. unfold bind at 1. rewrite wrap_run.
  rewrite !length_app in H1. simpl in H1. rewrite !Nat.add_1_r in H1.
  rewrite !length_app. unfold bind at 1.
  rewrite (collect_mono f1 (Nat.max f1 f2) _ (Nat.le_max_l f1 f2) _ _ H1).
  unfold bind at 1.
  rewrite (collect_mono f2 (Nat.max f1 f2) _ (Nat.le_max_r f1 f2) _ _ H2).
  reflexivity.
Qed.

Lemma Drain_islice_rest it src fin n suf xs (pre pre' : heap) g :
  Drain it pre xs pre' -> g = length pre -> 0 <= n ->
  pre !! it = Some (GenExpr src fin) ->
  exists mid c,
    Drain g (pre ++ IsliceObj (Some it) 0 n :: suf) (firstn (Z.to_nat n) xs)
      (mid ++ IsliceObj None c n :: suf)
    /\ Drain it mid (skipn (Z.to_nat n) xs) pre'
    /\ same_shape pre mid.
Proof.
  intros Hd Hg Hn Hi.
  destruct (Z.le_gt_cases n (Z.of_nat (length xs))) as [Hle|Hgt].
  - pose proof Hd as Hd'. rewrite <- (take_drop (Z.to_nat n) xs) in Hd'.
    destruct (Drain_app_inv _ _ _ _ _ Hd') as (h1 & Hp & Hrest).
    exists h1, n. split; [|split; [exact Hrest | eapply Pulls_same_shape, Hp]].
    apply Drain_islice_full; [exact Hp | exact Hg |].
    rewrite length_take. lia.
  - rewrite take_ge, drop_ge by lia.
    destruct (Drain_islice_short it n suf xs pre pre' 0 g Hd Hg) as [c Hc]; [lia|].
    exists pre', c. split; [exact Hc|]. split.
    + eapply Drain_finished, drained_finished; eassumption.
    + eapply Drain_same_shape, Hd.
Qed.

Lemma take_run (h : heap) self cls it n :
  h !! self = Some (Instance cls it) -> 0 <= n <= sys_maxsize ->
  ChainIt.take self n h
  = (let* f := alloc (IsliceObj (Some it) 0 n) in ChainIt.new (IterRef f)) h.
Proof.
  intros E Hn. unfold ChainIt.take, itertools_islice.
  replace ((0 <=? n) && (n <=? sys_maxsize)) with true
    by (symmetry; apply andb_true_intro; split; lia).
  unfold bind. rewrite (get_iter_eq _ _ _ _ E). reflexivity.
Qed.

(** [take(n)] pulls no more than [n] elements from the instance it is
    called on: once the taken ones are collected, that instance still
    gives every element from position [n] on. *)
Theorem take_then_rest (h : heap) self cls it src fin n xs fuel0 h0
  (Hself : h !! self = Some (Instance cls it))
  (Hiter : h !! it = Some (GenExpr src fin))
  (Hcollect : ChainIt.collect fuel0 self h = Some (Ok (VTuple xs), h0))
  (Hn : 0 <= n <= sys_maxsize) :
  exists fuel h',
    (let* t := ChainIt.take self n in
     let* taken := ChainIt.collect fuel t in
     let* rest := ChainIt.collect fuel self in
     ret (VTuple [taken; rest])) h
    = Some (Ok (VTuple [VTuple (firstn (Z.to_nat n) xs);
                        VTuple (skipn (Z.to_nat n) xs)]), h').
Proof.
  destruct (collect_inv _ _ _ _ _ Hcollect) as (cls' & it' & E & Hd).
  rewrite Hself in E. injection E as <- <-.
  destruct (Drain_islice_rest it src fin n [] xs h h0 (length h) Hd eq_refl
              (proj1 Hn) Hiter) as (mid & c & Ht & Hrest & Hsh).
  destruct (chained_then_rest h [] mid [] h0 (IsliceObj (Some it) 0 n)
              (IsliceObj None c n) self cls it (firstn (Z.to_nat n) xs)
              (skipn (Z.to_nat n) xs) Hself Hsh) as (fuel & h' & Hc).
  - rewrite !app_nil_r. exact Ht.
  - exact Hrest.
  - exists fuel, h'. rewrite app_nil_r in Hc.
    unfold bind at 1. rewrite (take_run _ _ _ _ _ Hself Hn).
    unfold bind at 1 in Hc. exact Hc.
Qed.

Lemma take_then_rest_witness :
  exists fuel h',
    (let* t := ChainIt.take 2 2 in
     let* taken := ChainIt.collect fuel t in
     let* rest := ChainIt.collect fuel 2 in
     ret (VTuple [taken; rest]))
      [ListIter [VInt 1; VInt 5; VInt 0; VInt 7]; GenExpr 0 false;
       Instance KChainIt 1]
    = Some (Ok (VTuple [VTuple [VInt 1; VInt 5]; VTuple [VInt 0; VInt 7]]), h').
Proof.
  refine (take_then_rest
           [ListIter [VInt 1; VInt 5; VInt 0; VInt 7]; GenExpr 0 false;
            Instance KChainIt 1]
           2 KChainIt 1 0 false 2
           [VInt 1; VInt 5; VInt 0; VInt 7] 10
           [ListIter []; GenExpr 0 true; Instance KChainIt 1]
           eq_refl eq_refl eq_refl _).
  unfold sys_maxsize. lia.
Defined.

Lemma Drain_zip_rest self cls it src suf xs : forall (h h0 : heap) fin ys g,
  Drain it h xs h0 -> h !! self = Some (Instance cls it) ->
  h !! it = Some (GenExpr src fin) -> g = S (length h) ->
  exists mid l,
    Drain g ((h ++ [ListIter ys]) ++ ZipObj self (length h) :: suf)
      (zip_pairs xs ys) ((mid ++ [ListIter l]) ++ ZipObj self (length h) :: suf)
    /\ Drain it mid (skipn (S (length ys)) xs) h0
    /\ same_shape h mid.
Proof.
  intros h h0 fin ys g H. revert fin ys.
  induction H as [h h' Hn|h x h1 xs h' Hn Hd IH]; intros fin ys Hs Hi Hg.
  - exists h', ys. split; [|split].
    + constructor. apply Next_zip_raise1; [rewrite length_app; simpl; lia|].
      apply Next_frame. eapply Next_at_instance; eassumption.
    + eapply Drain_finished, genexpr_finished_after; eassumption.
    + eapply Next_same_shape, Hn.
  - pose proof (Next_length _ _ _ _ Hn) as Hlen.
    pose proof (Next_same_shape _ _ _ _ Hn) as Hsh.
    pose proof (Next_at_instance _ _ _ _ _ _ Hs Hn) as Hself.
    destruct ys as [|y ys].
    + exists h1, []. split; [|split; [exact Hd | exact Hsh]].
      constructor.
      eapply Next_zip_raise2;
        [rewrite length_app; simpl; lia | apply Next_frame, Hself|].
      apply Next_listiter_nil. congruence.
    + pose proof (same_shape_instance _ _ _ _ _ Hsh Hs) as Hs1.
      destruct (same_shape_genexpr _ _ _ _ _ Hsh Hi) as [fin1 Hi1].
      destruct (IH fin1 ys Hs1 Hi1) as (mid & l & Hz & Hrest & Hsh1); [lia|].
      exists mid, l. split; [|split].
      * simpl zip_pairs. econstructor.
        -- eapply Next_zip_ok;
             [rewrite length_app; simpl; lia | apply Next_frame, Hself|].
           apply Next_listiter_cons. congruence.
        -- rewrite <- Hlen. exact Hz.
      * exact Hrest.
      * eapply same_shape_trans; eassumption.
Qed.

Lemma zip_run (h : heap) self o ys :
  h !! self = Some o ->
  ChainIt.zip self (IterList ys) h
  = (let* f := alloc (ZipObj self (length h)) in ChainIt.new (IterRef f))
      (h ++ [ListIter ys]).
Proof.
  intros E. unfold ChainIt.zip, builtin_zip, builtin_iter, bind, deref, ret.
  repeat (rewrite E; simpl). reflexivity.
Qed.

(** [zip] pulls from the instance first and from the other side second:
    when the other side has [m] elements and ends first, the instance has
    lost [m + 1] of its own, one more than the pairs that came out. *)
Theorem zip_then_rest (h : heap) self cls it src fin xs ys fuel0 h0
  (Hself : h !! self = Some (Instance cls it))
  (Hiter : h !! it = Some (GenExpr src fin))
  (Hcollect : ChainIt.collect fuel0 self h = Some (Ok (VTuple xs), h0)) :
  exists fuel h',
    (let* z := ChainIt.zip self (IterList ys) in
     let* pairs := ChainIt.collect fuel z in
     let* rest := ChainIt.collect fuel self in
     ret (VTuple [pairs; rest])) h
    = Some (Ok (VTuple [VTuple (zip_pairs xs ys);
                        VTuple (skipn (S (length ys)) xs)]), h').
Proof.
  destruct (collect_inv _ _ _ _ _ Hcollect) as (cls' & it' & E & Hd).
  rewrite Hself in E. injection E as <- <-.
  destruct (Drain_zip_rest self cls it src [] xs h h0 fin ys _ Hd Hself Hiter
              eq_refl) as (mid & l & Hz & Hrest & Hsh).
  destruct (chained_then_rest h [ListIter ys] mid [ListIter l] h0
              (ZipObj self (length h)) (ZipObj self (length h)) self cls it
              (zip_pairs xs ys) (skipn (S (length ys)) xs) Hself Hsh)
    as (fuel & h' & Hc).
  - rewrite length_app. simpl. rewrite Nat.add_1_r. exact Hz.
  - exact Hrest.
  - exists fuel, h'. unfold bind at 1. rewrite (zip_run _ _ _ _ Hself).
    unfold bind at 1 in Hc. exact Hc.
Qed.

Lemma zip_then_rest_witness :
  exists fuel h',
    (let* z := ChainIt.zip 2 (IterList [VStr "a"]) in
     let* pairs := ChainIt.collect fuel z in
     let* rest := ChainIt.collect fuel 2 in
     ret (VTuple [pairs; rest]))
      [ListIter [VInt 1; VInt 5; VInt 0; VInt 7]; GenExpr 0 false;
       Instance KChainIt 1]
    = Some (Ok (VTuple [VTuple [VTuple [VInt 1; VStr "a"]];
                        VTuple [VInt 0; VInt 7]]), h').
Proof.
  exact (zip_then_rest
           [ListIter [VInt 1; VInt 5; VInt 0; VInt 7]; GenExpr 0 false;
            Instance KChainIt 1]
           2 KChainIt 1 0 false
           [VInt 1; VInt 5; VInt 0; VInt 7] [VStr "a"] 10
           [ListIter []; GenExpr 0 true; Instance KChainIt 1]
           eq_refl eq_refl eq_refl).
Defined.

(** ** [collect_with] *)

Lemma oks_values vs : oks (List.map Ok vs) = vs.
Proof. induction vs as [|v vs IH]; simpl; [|rewrite IH]; reflexivity. Qed.

Lemma oks_app l1 l2 : oks (l1 ++ l2) = oks l1 ++ oks l2.
Proof.
  induction l1 as [|[v|e] l1 IH]; simpl; [reflexivity| |exact IH].
  rewrite IH. reflexivity.
Qed.

Lemma draining_pending g vs : draining g (List.map Ok vs) = None.
Proof.
  unfold draining. destruct vs as [|v vs] using rev_ind; [reflexivity|].
  rewrite map_app. simpl. rewrite last_snoc. reflexivity.
Qed.

Lemma draining_done g vs :
  draining g (List.map Ok vs ++ [Raise StopIteration]) = Some (g vs).
Proof.
  unfold draining. rewrite last_snoc, oks_app, oks_values. simpl.
  rewrite app_nil_r. reflexivity.
Qed.

Lemma call_consumer_draining g r xs (h h' : heap) :
  Drain r h xs h' ->
  forall vs, exists fuel0, forall fuel, (fuel0 <= fuel)%nat ->
    call_consumer fuel (draining g) (List.map Ok vs) r h = Some (g (vs ++ xs), h').
Proof.
  induction 1 as [h h' [f1 H1]|h x h1 xs h' [f1 H1] _ IH]; intros vs.
  - exists (S (S f1)). intros [|[|n]] Hf; try lia.
    cbn [call_consumer]. rewrite draining_pending. unfold bind, catch.
    rewrite (next_mono f1 (S n) r ltac:(lia) _ _ H1).
    unfold ret. rewrite draining_done, app_nil_r. reflexivity.
  - destruct (IH (vs ++ [x])) as [f2 H2].
    exists (S (Nat.max f1 f2)). intros [|n] Hf; [lia|].
    cbn [call_consumer]. rewrite draining_pending. unfold bind, catch.
    rewrite (next_mono f1 n r ltac:(lia) _ _ H1). unfold ret.
    change [Ok x] with (List.map (@Ok value) [x]). rewrite <- map_app.
    rewrite H2 by lia. rewrite <- app_assoc. reflexivity.
Qed.

(** [collect_with(fn)] for a function that reads its argument to the end
    and then returns [g] of the elements it read ([tuple], [list],
    [sep.join], [sum]): the result is [g] of what [collect] would return,
    and the instance is left as [collect] leaves it. *)
Theorem collect_with_draining (h : heap) self g xs fuel0 h0
  (Hcollect : ChainIt.collect fuel0 self h = Some (Ok (VTuple xs), h0)) :
  exists fuel,
    ChainIt.collect_with fuel self (draining g) h = Some (g xs, h0).
Proof.
  destruct (collect_inv _ _ _ _ _ Hcollect) as (cls & it & E & Hd).
  pose proof (Drain_at_instance _ _ _ _ _ _ E Hd) as Hs.
  destruct (call_consumer_draining g self xs h h0 Hs []) as [f Hf].
  exists f. unfold ChainIt.collect_with. apply (Hf f), Nat.le_refl.
Qed.

Lemma collect_with_draining_witness :
  exists fuel,
    ChainIt.collect_with fuel 2
      (draining (fun vs => Ok (VInt (Z.of_nat (length vs)))))
      [ListIter [VInt 1; VInt 5; VInt 0; VInt 7]; GenExpr 0 false;
       Instance KChainIt 1]
    = Some (Ok (VInt 4), [ListIter []; GenExpr 0 true; Instance KChainIt 1]).
Proof.
  exact (collect_with_draining
           [ListIter [VInt 1; VInt 5; VInt 0; VInt 7]; GenExpr 0 false;
            Instance KChainIt 1]
           2 (fun vs => Ok (VInt (Z.of_nat (length vs))))
           [VInt 1; VInt 5; VInt 0; VInt 7] 10
           [ListIter []; GenExpr 0 true; Instance KChainIt 1] eq_refl).
Defined.

(** ** [collect_set] and [collect_frozenset] *)

Lemma value_nested_ind (P : value -> Prop) :
  P VNone -> (forall b, P (VBool b)) -> (forall z, P (VInt z)) ->
  (forall s, P (VStr s)) ->
  (forall l, Forall P l -> P (VTuple l)) ->
  (forall l, Forall P l -> P (VList l)) ->
  (forall f l, Forall P l -> P (VSet f l)) ->
  forall v, P v.
Proof.
  intros HN HB HI HS HT HL HM. fix IH 1.
  intros [ |b|z|s|l|l|f l]; [exact HN | apply HB | apply HI | apply HS | | | ].
  - apply HT. induction l as [|x l IHl]; constructor; [apply IH | exact IHl].
  - apply HL. induction l as [|x l IHl]; constructor; [apply IH | exact IHl].
  - apply HM. induction l as [|x l IHl]; constructor; [apply IH | exact IHl].
Qed.

(** Every value equals itself. *)
Lemma py_eqb_refl v : py_eqb v v = true.
Proof.
  induction v as [ |b|z|s|l Hl|l Hl|f l Hl] using value_nested_ind; simpl.
  - reflexivity.
  - destruct b; reflexivity.
  - apply Z.eqb_refl.
  - apply String.eqb_refl.
  - induction Hl as [|x l Hx _ IH]; [reflexivity|]. rewrite Hx. exact IH.
  - induction Hl as [|x l Hx _ IH]; [reflexivity|]. rewrite Hx. exact IH.
  - rewrite Nat.eqb_refl. simpl. apply forallb_forall. intros x Hin.
    apply existsb_exists. exists x. split; [exact Hin|].
    rewrite List.Forall_forall in Hl. apply Hl, Hin.
Qed.

Lemma set_add_distinct x s : distinct s = true -> distinct (set_add x s) = true.
Proof.
  unfold set_add. destruct (existsb (py_eqb x) s) eqn:E; [tauto|].
  induction s as [|y s IH]; intros Hd; [reflexivity|].
  simpl in E, Hd |- *. apply orb_false_elim in E as [Exy Es].
  apply andb_prop in Hd as [Hy Hs].
  rewrite existsb_app. simpl. rewrite Exy, orb_false_r, Hy. simpl.
  apply IH; assumption.
Qed.

Lemma set_add_has x s : existsb (py_eqb x) (set_add x s) = true.
Proof.
  unfold set_add. destruct (existsb (py_eqb x) s) eqn:E; [exact E|].
  rewrite existsb_app. simpl. rewrite py_eqb_refl, orb_true_r. reflexivity.
Qed.

Lemma set_add_keeps x y s :
  existsb (py_eqb y) s = true -> existsb (py_eqb y) (set_add x s) = true.
Proof.
  intros H. unfold set_add. destruct (existsb (py_eqb x) s); [exact H|].
  rewrite existsb_app, H. reflexivity.
Qed.

Lemma set_add_from x y s : In y (set_add x s) -> In y s \/ y = x.
Proof.
  unfold set_add. destruct (existsb (py_eqb x) s); [tauto|].
  intros H. apply in_app_or in H as [H|[H|[]]]; [tauto | right; congruence].
Qed.

Lemma fold_set_add_distinct xs : forall acc,
  distinct acc = true ->
  distinct (fold_left (fun acc x => set_add x acc) xs acc) = true.
Proof.
  induction xs as [|x xs IH]; intros acc H; [exact H|].
  simpl. apply IH, set_add_distinct, H.
Qed.

Lemma fold_set_add_has xs : forall acc x,
  In x xs \/ existsb (py_eqb x) acc = true ->
  existsb (py_eqb x) (fold_left (fun acc x => set_add x acc) xs acc) = true.
Proof.
  induction xs as [|y xs IH]; intros acc x H; simpl.
  - destruct H as [[]|H]; exact H.
  - apply IH. destruct H as [[->|H]|H]; [right; apply set_add_has | tauto |].
    right. apply set_add_keeps, H.
Qed.

Lemma fold_set_add_from xs : forall acc y,
  In y (fold_left (fun acc x => set_add x acc) xs acc) -> In y acc \/ In y xs.
Proof.
  induction xs as [|x xs IH]; intros acc y H; simpl in *; [tauto|].
  destruct (IH _ _ H) as [H1|H1]; [|tauto].
  destruct (set_add_from _ _ _ H1) as [H2|H2]; [tauto | subst; tauto].
Qed.

Lemma drain_set_mono fuel : forall fuel', (fuel <= fuel')%nat ->
  forall it acc, le_M (drain_set fuel it acc) (drain_set fuel' it acc).
Proof. loop_mono fuel. Qed.

Lemma drain_set_of_Drain it h xs h' :
  Drain it h xs h' -> forallb hashable xs = true ->
  forall acc, exists fuel,
    drain_set fuel it acc h
    = Some (Ok (fold_left (fun acc x => set_add x acc) xs acc), h').
Proof.
  induction 1 as [h h' Hn|h x h1 xs h' Hn _ IH]; intros Hh acc.
  - destruct (for_next_None _ _ _ Hn) as [f1 H1].
    exists (S f1). simpl. unfold bind. rewrite H1. reflexivity.
  - simpl in Hh. apply andb_prop in Hh as [Hx Hh].
    destruct (for_next_Some _ _ _ _ Hn) as [f1 H1].
    destruct (IH Hh (set_add x acc)) as [f2 H2].
    exists (S (Nat.max f1 f2)). simpl. unfold bind.
    rewrite (for_next_mono f1 _ it (Nat.le_max_l f1 f2) _ _ H1), Hx.
    apply (drain_set_mono f2 _ (Nat.le_max_r f1 f2)), H2.
Qed.

(** [collect_set] and [collect_frozenset] of hashable elements: the members
    are the elements that [collect] would return, each kept once; no two
    members are equal, every element equals a member, and every member is
    one of the elements. *)
Theorem collect_set_members (h : heap) self xs fuel0 h0
  (Hcollect : ChainIt.collect fuel0 self h = Some (Ok (VTuple xs), h0))
  (Hhash : forallb hashable xs = true) :
  exists fuel,
    ChainIt.collect_set fuel self h = Some (Ok (VSet false (set_of xs)), h0)
    /\ ChainIt.collect_frozenset fuel self h
       = Some (Ok (VSet true (set_of xs)), h0)
    /\ distinct (set_of xs) = true
    /\ (forall x, In x xs -> existsb (py_eqb x) (set_of xs) = true)
    /\ (forall y, In y (set_of xs) -> In y xs).
Proof.
  destruct (collect_inv _ _ _ _ _ Hcollect) as (cls & it & E & Hd).
  destruct (drain_set_of_Drain _ _ _ _ Hd Hhash []) as [fuel Hs].
  exists fuel. repeat split.
  - unfold ChainIt.collect_set, bind.
    rewrite (get_iter_eq _ _ _ _ E), Hs. reflexivity.
  - unfold ChainIt.collect_frozenset, bind.
    rewrite (get_iter_eq _ _ _ _ E), Hs. reflexivity.
  - apply fold_set_add_distinct. reflexivity.
  - intros x Hx. apply fold_set_add_has. left. exact Hx.
  - intros y Hy. destruct (fold_set_add_from _ _ _ Hy) as [[]|H]. exact H.
Qed.

Lemma collect_set_members_witness :
  exists fuel,
    ChainIt.collect_set fuel 2
      [ListIter [VInt 1; VBool true; VInt 0; VInt 1]; GenExpr 0 false;
       Instance KChainIt 1]
    = Some (Ok (VSet false [VInt 1; VInt 0]),
            [ListIter []; GenExpr 0 true; Instance KChainIt 1]).
Proof.
  destruct (collect_set_members
              [ListIter [VInt 1; VBool true; VInt 0; VInt 1]; GenExpr 0 false;
               Instance KChainIt 1]
              2 [VInt 1; VBool true; VInt 0; VInt 1] 10
              [ListIter []; GenExpr 0 true; Instance KChainIt 1]
              eq_refl eq_refl) as [fuel [H _]].
  exists fuel. exact H.
Defined.

Lemma drain_set_unhashable it before x : forall (h hA h1 : heap) acc,
  Pulls it h before hA -> Next it hA (Ok x) h1 ->
  forallb hashable before = true -> hashable x = false ->
  exists fuel, drain_set fuel it acc h = Some (Raise TypeError, h1).
Proof.
  intros h hA h1 acc Hp. revert acc.
  induction Hp as [h|h y h2 ys hA Hn _ IH]; intros acc Hx Hb Hu.
  - destruct (for_next_Some _ _ _ _ Hx) as [f1 H1].
    exists (S f1). simpl. unfold bind. rewrite H1, Hu. reflexivity.
  - simpl in Hb. apply andb_prop in Hb as [Hy Hb].
    destruct (for_next_Some _ _ _ _ Hn) as [f1 H1].
    destruct (IH (set_add y acc) Hx Hb Hu) as [f2 H2].
    exists (S (Nat.max f1 f2)). simpl. unfold bind.
    rewrite (for_next_mono f1 _ it (Nat.le_max_l f1 f2) _ _ H1), Hy.
    apply (drain_set_mono f2 _ (Nat.le_max_r f1 f2)), H2.
Qed.

(** An element without a hash ends [collect_set] and [collect_frozenset]
    with [TypeError]; the elements up to it and that element are consumed,
    the ones after it are still in the instance. *)
Theorem collect_set_unhashable (h : heap) self before x after fuel0 h0
  (Hcollect : ChainIt.collect fuel0 self h
              = Some (Ok (VTuple (before ++ x :: after)), h0))
  (Hbefore : forallb hashable before = true)
  (Hx : hashable x = false) :
  exists fuel h1,
    ChainIt.collect_set fuel self h = Some (Raise TypeError, h1)
    /\ ChainIt.collect_frozenset fuel self h = Some (Raise TypeError, h1)
    /\ ChainIt.collect fuel self h1 = Some (Ok (VTuple after), h0).
Proof.
  destruct (collect_inv _ _ _ _ _ Hcollect) as (cls & it & E & Hd).
  destruct (Drain_app_inv _ _ _ _ _ Hd) as (hA & Hp & Hd1).
  inversion Hd1 as [|? ? h1 ? ? Hn Hrest]; subst.
  destruct (drain_set_unhashable it before x h hA h1 [] Hp Hn Hbefore Hx)
    as [f1 H1].
  assert (Hsh : same_shape h h1).
  { eapply same_shape_trans;
      [eapply Pulls_same_shape, Hp | eapply Next_same_shape, Hn]. }
  pose proof (same_shape_instance _ _ _ _ _ Hsh E) as E1.
  destruct (collect_of_Drain _ _ _ _ _ _ E1 Hrest) as [f2 H2].
  exists (Nat.max f1 f2), h1. repeat split.
  - unfold ChainIt.collect_set, bind. rewrite (get_iter_eq _ _ _ _ E).
    rewrite (drain_set_mono f1 _ (Nat.le_max_l f1 f2) _ _ _ _ H1). reflexivity.
  - unfold ChainIt.collect_frozenset, bind. rewrite (get_iter_eq _ _ _ _ E).
    rewrite (drain_set_mono f1 _ (Nat.le_max_l f1 f2) _ _ _ _ H1). reflexivity.
  - apply (collect_mono f2 _ self (Nat.le_max_r f1 f2)), H2.
Qed.

Lemma collect_set_unhashable_witness :
  exists fuel h1,
    ChainIt.collect_set fuel 2
      [ListIter [VInt 1; VList []; VInt 0]; GenExpr 0 false; Instance KChainIt 1]
    = Some (Raise TypeError, h1)
    /\ ChainIt.collect fuel 2 h1
       = Some (Ok (VTuple [VInt 0]),
               [ListIter []; GenExpr 0 true; Instance KChainIt 1]).
Proof.
  destruct (collect_set_unhashable
              [ListIter [VInt 1; VList []; VInt 0]; GenExpr 0 false;
               Instance KChainIt 1]
              2 [VInt 1] (VList []) [VInt 0] 10
              [ListIter []; GenExpr 0 true; Instance KChainIt 1]
              eq_refl eq_refl eq_refl) as (fuel & h1 & H1 & _ & H3).
  exists fuel, h1. split; [exact H1 | exact H3].
Defined.

(** ** A function that raises *)

(** [tuple(it)] when a pull raises after the elements [vs]. *)
Lemma drain_raises it vs e : forall (h hm h' : heap),
  Pulls it h vs hm -> Next it hm (Raise e) h' ->
  exists fuel,
    drain fuel it h = Some (if is_stop e then Ok vs else Raise e, h').
Proof.
  intros h hm h' Hp. induction Hp as [h|h y h1 ys hm Hn _ IH]; intros He.
  - destruct He as [f1 H1]. exists (S f1). simpl.
    unfold bind, for_next, catch, bind. rewrite H1.
    destruct e; reflexivity.
  - destruct (for_next_Some _ _ _ _ Hn) as [f1 H1].
    destruct (IH He) as [f2 H2].
    exists (S (Nat.max f1 f2)). simpl. unfold bind at 1.
    rewrite (for_next_mono f1 _ it (Nat.le_max_l f1 f2) _ _ H1).
    unfold bind.
    rewrite (drain_mono f2 _ (Nat.le_max_r f1 f2) it _ _ H2).
    destruct e; reflexivity.
Qed.

(** A chained instance whose cursor raises [e] after the elements [vs]:
    what its [collect] does, what a second one does, and what the instance
    it was chained on still gives. *)
Lemma chained_raises (h hm mid h0 : heap) o o' self cls it vs e rest :
  h !! self = Some (Instance cls it) -> same_shape h mid ->
  Pulls (length h) (h ++ [o]) vs hm ->
  Next (length h) hm (Raise e) (mid ++ [o']) ->
  Drain it mid rest h0 ->
  exists fuel m h1 h2 h3,
    (let* f := alloc o in ChainIt.new (IterRef f)) h = Some (Ok m, h1)
    /\ ChainIt.collect fuel m h1
       = Some (if is_stop e then Ok (VTuple vs) else Raise e, h2)
    /\ ChainIt.collect fuel m h2 = Some (Ok (VTuple []), h2)
    /\ ChainIt.collect fuel self h2 = Some (Ok (VTuple rest), h3).
Proof.
  intros Hself Hsh Hp He Hrest.
  set (top := [Instance KChainIt (S (length h))]).
  assert (Hlo : length (h ++ [o]) = S (length h))
    by (rewrite length_app, Nat.add_1_r; reflexivity).
  pose proof (Pulls_length _ _ _ _ Hp) as Hlm.
  pose proof (Pulls_genexpr (length h) vs (h ++ [o]) hm top (S (length h)) Hp
                (eq_sym Hlo)) as Hp'.
  assert (He' : Next (S (length h)) (hm ++ GenExpr (length h) false :: top)
                  (Raise e) ((mid ++ [o']) ++ GenExpr (length h) true :: top)).
  { apply Next_genexpr_raise; [congruence | exact He]. }
  destruct (drain_raises _ _ _ _ _ _ Hp' He') as [f1 H1].
  pose proof (Next_length _ _ _ _ He) as Hlmid.
  set (h2 := (mid ++ [o']) ++ GenExpr (length h) true :: top).
  assert (Hm1 : ((h ++ [o]) ++ GenExpr (length h) false :: top) !! S (S (length h))
                = Some (Instance KChainIt (S (length h)))).
  { rewrite lookup_app_r by lia. rewrite Hlo.
    replace (S (S (length h)) - S (length h))%nat with 1%nat by lia. reflexivity. }
  assert (Hm2 : h2 !! S (S (length h)) = Some (Instance KChainIt (S (length h)))).
  { unfold h2. rewrite lookup_app_r by lia. rewrite Hlmid, Hlm, Hlo.
    replace (S (S (length h)) - S (length h))%nat with 1%nat by lia. reflexivity. }
  assert (Hg2 : h2 !! S (length h) = Some (GenExpr (length h) true)).
  { unfold h2. rewrite lookup_app_r by lia. rewrite Hlmid, Hlm, Hlo.
    rewrite Nat.sub_diag. reflexivity. }
  pose proof (same_shape_instance _ _ _ _ _ Hsh Hself) as Hself1.
  assert (Hs2 : h2 !! self = Some (Instance cls it)).
  { unfold h2. rewrite <- app_assoc. apply lookup_app_l_Some, Hself1. }
  assert (Hr : Drain it h2 rest ((h0 ++ [o']) ++ GenExpr (length h) true :: top)).
  { unfold h2. rewrite <- !app_assoc. apply Drain_frame, Hrest. }
  destruct (collect_of_Drain _ _ _ _ _ _ Hs2 Hr) as [f3 H3].
  exists (S (S (Nat.max f1 f3))), (S (S (length h))).
  exists ((h ++ [o]) ++ GenExpr (length h) false :: top), h2.
  eexists. split; [apply wrap_run|]. split; [|split].
  - unfold ChainIt.collect, bind at 1. rewrite (get_iter_eq _ _ _ _ Hm1).
    unfold bind.
    rewrite (drain_mono f1 (S (S (Nat.max f1 f3))) ltac:(lia) _ _ _ H1).
    destruct e; reflexivity.
  - eapply collect_finished; eassumption.
  - apply (collect_mono f3 (S (S (Nat.max f1 f3))) self ltac:(lia)), H3.
Qed.

Lemma Pulls_map fn it suf xs : forall (pre pre' : heap) g,
  Pulls it pre xs pre' -> g = length pre -> total_on fn xs = true ->
  Pulls g (pre ++ MapObj fn it :: suf) (values_of fn xs)
    (pre' ++ MapObj fn it :: suf).
Proof.
  intros pre pre' g H. induction H as [h|h x h1 xs h' Hn _ IH]; intros Hg Ht.
  - constructor.
  - simpl in Ht |- *. apply andb_prop in Ht as [Hx Ht].
    pose proof (Next_map_ok h suf g Hg fn it x h1 Hn) as Hm.
    destruct (fn x) as [v|] eqn:Efn; [|discriminate Hx].
    econstructor; [exact Hm|].
    apply IH; [rewrite (Next_length _ _ _ _ Hn); exact Hg | exact Ht].
Qed.

Lemma map_run (h : heap) self cls it fn :
  h !! self = Some (Instance cls it) ->
  ChainIt.map self fn h
  = (let* f := alloc (MapObj fn it) in ChainIt.new (IterRef f)) h.
Proof.
  intros E. unfold ChainIt.map. unfold bind at 1.
  rewrite (get_iter_eq _ _ _ _ E). reflexivity.
Qed.

(** The function given to [map] raises [e] on an element [x].  Collecting
    the mapped instance raises [e]; when [e] is [StopIteration] it raises
    nothing and returns the values before [x], as if the sequence ended
    there.  Either way the mapped instance is finished, and the elements
    after [x] are still in the instance it was made from. *)
Theorem map_fn_raises (h : heap) self fn before x after e fuel0 h0
  (Hcollect : ChainIt.collect fuel0 self h
              = Some (Ok (VTuple (before ++ x :: after)), h0))
  (Hbefore : total_on fn before = true)
  (Hx : fn x = Raise e) :
  exists fuel m h1 h2 h3,
    ChainIt.map self fn h = Some (Ok m, h1)
    /\ ChainIt.collect fuel m h1
       = Some (if is_stop e then Ok (VTuple (values_of fn before)) else Raise e,
               h2)
    /\ ChainIt.collect fuel m h2 = Some (Ok (VTuple []), h2)
    /\ ChainIt.collect fuel self h2 = Some (Ok (VTuple after), h3).
Proof.
  destruct (collect_inv _ _ _ _ _ Hcollect) as (cls & it & E & Hd).
  destruct (Drain_app_inv _ _ _ _ _ Hd) as (hA & Hp & Hd1).
  inversion Hd1 as [|? ? hB ? ? Hn Hrest]; subst.
  assert (Hsh : same_shape h hB).
  { eapply same_shape_trans;
      [eapply Pulls_same_shape, Hp | eapply Next_same_shape, Hn]. }
  pose proof (Pulls_map fn it [] before h hA (length h) Hp eq_refl Hbefore)
    as Hpm.
  pose proof (Next_map_ok hA [] (length h)
                (eq_sym (Pulls_length _ _ _ _ Hp)) fn it x hB Hn) as Hnm.
  rewrite Hx in Hnm.
  destruct (chained_raises h _ hB h0 (MapObj fn it) (MapObj fn it) self cls it
              (values_of fn before) e after E Hsh Hpm Hnm Hrest)
    as (fuel & m & h1 & h2 & h3 & Hw & H1 & H2 & H3).
  exists fuel, m, h1, h2, h3. rewrite (map_run _ _ _ _ _ E). tauto.
Qed.

Lemma map_fn_raises_witness :
  exists fuel m h1 h2 h3,
    ChainIt.map 2
      (fun v => if py_eqb v (VInt 5) then Raise StopIteration else Ok v)
      [ListIter [VInt 1; VInt 5; VInt 0; VInt 7]; GenExpr 0 false;
       Instance KChainIt 1]
    = Some (Ok m, h1)
    /\ ChainIt.collect fuel m h1 = Some (Ok (VTuple [VInt 1]), h2)
    /\ ChainIt.collect fuel m h2 = Some (Ok (VTuple []), h2)
    /\ ChainIt.collect fuel 2 h2 = Some (Ok (VTuple [VInt 0; VInt 7]), h3).
Proof.
  exact (map_fn_raises
           [ListIter [VInt 1; VInt 5; VInt 0; VInt 7]; GenExpr 0 false;
            Instance KChainIt 1]
           2 (fun v => if py_eqb v (VInt 5) then Raise StopIteration else Ok v)
           [VInt 1] (VInt 5) [VInt 0; VInt 7] StopIteration 10
           [ListIter []; GenExpr 0 true; Instance KChainIt 1]
           eq_refl eq_refl eq_refl).
Defined.

(** Pulls and a last pull, from a store whose first pull does what the
    first pull of another store does. *)
Lemma Pulls_head_swap r (h1 h2 : heap) ys hm a final :
  (forall b h', Next r h2 b h' -> Next r h1 b h') ->
  Pulls r h2 ys hm -> Next r hm a final ->
  exists hm', Pulls r h1 ys hm' /\ Next r hm' a final.
Proof.
  intros Hsw Hp Hl. destruct Hp as [h2|h2 y h3 l hm Hy Hp].
  - exists h1. split; [constructor | apply Hsw, Hl].
  - exists hm. split; [|exact Hl].
    econstructor; [apply Hsw, Hy | exact Hp].
Qed.

Lemma Pulls_filter_map_then fn it suf before : forall (pre pre1 : heap) g a final,
  Pulls it pre before pre1 -> g = length pre -> total_on fn before = true ->
  Next g (pre1 ++ FilterMapGen fn it false :: suf) a final ->
  exists hm,
    Pulls g (pre ++ FilterMapGen fn it false :: suf)
      (List.filter not_none (values_of fn before)) hm
    /\ Next g hm a final.
Proof.
  intros pre pre1 g a final H.
  induction H as [h|h x h1 xs h' Hn _ IH]; intros Hg Ht Hlast.
  - eexists. split; [constructor | exact Hlast].
  - simpl in Ht |- *. apply andb_prop in Ht as [Hx Ht].
    assert (Hg1 : g = length h1) by (rewrite (Next_length _ _ _ _ Hn); exact Hg).
    destruct (IH Hg1 Ht Hlast) as (hm & Hp & Hl).
    destruct (fn x) as [v|] eqn:Efn; [|discriminate Hx].
    destruct (not_none v) eqn:Ev.
    + simpl. rewrite Ev. exists hm. split; [|exact Hl].
      econstructor; [|exact Hp].
      eapply (Next_filter_map_yield h suf g Hg fn); [exact Hn | exact Efn|].
      intros ->. discriminate Ev.
    + assert (v = VNone) as -> by (destruct v; try discriminate Ev; reflexivity).
      simpl. eapply Pulls_head_swap; [|exact Hp | exact Hl].
      intros b hb Hb.
      eapply (Next_filter_map_skip h suf g Hg fn); eassumption.
Qed.

Lemma filter_map_run (h : heap) self cls it fn :
  h !! self = Some (Instance cls it) ->
  ChainIt.filter_map self fn h
  = (let* f := alloc (FilterMapGen fn it false) in ChainIt.new (IterRef f)) h.
Proof.
  intros E. unfold ChainIt.filter_map. unfold bind at 1.
  rewrite (get_iter_eq _ _ _ _ E). reflexivity.
Qed.

(** The function given to [filter_map] raises [e] on an element [x].
    Collecting the new instance raises [e], and [RuntimeError] when [e] is
    [StopIteration]: here, unlike in [map], a [StopIteration] of the
    function never passes for the end of the sequence.  The new instance is
    finished, and the elements after [x] are still in the instance it was
    made from. *)
Theorem filter_map_fn_raises (h : heap) self fn before x after e fuel0 h0
  (Hcollect : ChainIt.collect fuel0 self h
              = Some (Ok (VTuple (before ++ x :: after)), h0))
  (Hbefore : total_on fn before = true)
  (Hx : fn x = Raise e) :
  exists fuel m h1 h2 h3,
    ChainIt.filter_map self fn h = Some (Ok m, h1)
    /\ ChainIt.collect fuel m h1
       = Some (Raise (if is_stop e then RuntimeError else e), h2)
    /\ ChainIt.collect fuel m h2 = Some (Ok (VTuple []), h2)
    /\ ChainIt.collect fuel self h2 = Some (Ok (VTuple after), h3).
Proof.
  destruct (collect_inv _ _ _ _ _ Hcollect) as (cls & it & E & Hd).
  destruct (Drain_app_inv _ _ _ _ _ Hd) as (hA & Hp & Hd1).
  inversion Hd1 as [|? ? hB ? ? Hn Hrest]; subst.
  assert (Hsh : same_shape h hB).
  { eapply same_shape_trans;
      [eapply Pulls_same_shape, Hp | eapply Next_same_shape, Hn]. }
  pose proof (Next_filter_map_fn_raises hA [] (length h)
                (eq_sym (Pulls_length _ _ _ _ Hp)) fn it x e hB Hn Hx) as Hlast.
  destruct (Pulls_filter_map_then fn it [] before h hA (length h) _ _ Hp eq_refl
              Hbefore Hlast) as (hm & Hpm & Hnm).
  destruct (chained_raises h hm hB h0 (FilterMapGen fn it false)
              (FilterMapGen fn it true) self cls it _ _ after E Hsh Hpm Hnm Hrest)
    as (fuel & m & h1 & h2 & h3 & Hw & H1 & H2 & H3).
  exists fuel, m, h1, h2, h3. rewrite (filter_map_run _ _ _ _ _ E).
  split; [exact Hw|]. split; [|tauto].
  rewrite H1. destruct e; reflexivity.
Qed.

Lemma filter_map_fn_raises_witness :
  exists fuel m h1 h2 h3,
    ChainIt.filter_map 2
      (fun v => if py_eqb v (VInt 5) then Raise StopIteration else Ok v)
      [ListIter [VInt 1; VInt 5; VInt 0; VInt 7]; GenExpr 0 false;
       Instance KChainIt 1]
    = Some (Ok m, h1)
    /\ ChainIt.collect fuel m h1 = Some (Raise RuntimeError, h2)
    /\ ChainIt.collect fuel m h2 = Some (Ok (VTuple []), h2)
    /\ ChainIt.collect fuel 2 h2 = Some (Ok (VTuple [VInt 0; VInt 7]), h3).
Proof.
  exact (filter_map_fn_raises
           [ListIter [VInt 1; VInt 5; VInt 0; VInt 7]; GenExpr 0 false;
            Instance KChainIt 1]
           2 (fun v => if py_eqb v (VInt 5) then Raise StopIteration else Ok v)
           [VInt 1] (VInt 5) [VInt 0; VInt 7] StopIteration 10
           [ListIter []; GenExpr 0 true; Instance KChainIt 1]
           eq_refl eq_refl eq_refl).
Defined.

(** ** Chaining allocates and pulls nothing *)

Lemma bind_assoc {A B C} (m : M A) (f : A -> M B) (g : B -> M C) (h : heap) :
  bind (bind m f) g h = bind m (fun x => bind (f x) g) h.
Proof. unfold bind. destruct (m h) as [[[a|e] h1]|]; reflexivity. Qed.

Lemma bind_iter_ref {A} (K : ref -> M A) (h : heap) r o :
  h !! r = Some o -> bind (builtin_iter (IterRef r)) K h = K r h.
Proof. intros E. unfold builtin_iter, bind, deref, ret. rewrite E. reflexivity. Qed.

Lemma bind_get_iter {A} (K : ref -> M A) (h : heap) self cls it :
  h !! self = Some (Instance cls it) -> bind (get_iter self) K h = K it h.
Proof. intros E. unfold bind. rewrite (get_iter_eq _ _ _ _ E). reflexivity. Qed.

Lemma builds_alloc o (K : ref -> M ref) (h : heap) :
  builds (K (length h)) (h ++ [o]) -> builds (let* f := alloc o in K f) h.
Proof.
  intros (r & k & it & Hm & Hl & Hr). exists r, ([o] ++ k), it.
  unfold bind, alloc. rewrite app_assoc. split; [exact Hm|].
  split; [exact Hl|]. rewrite length_app in Hr. lia.
Qed.

Lemma builds_new_ref (h : heap) r :
  (r < length h)%nat -> builds (ChainIt.new (IterRef r)) h.
Proof.
  intros Hr. unfold builds. rewrite (new_ref h r Hr).
  exists (S (length h)), [GenExpr r false; Instance KChainIt (length h)], (length h).
  split; [reflexivity|]. split; [|lia].
  rewrite lookup_app_r by lia.
  replace (S (length h) - length h)%nat with 1%nat by lia. reflexivity.
Qed.

Lemma builds_new (h : heap) x :
  match x with IterRef t => (t < length h)%nat | _ => True end ->
  builds (ChainIt.new x) h.
Proof.
  destruct x as [l|f|t]; intros Hx; [| |apply builds_new_ref, Hx].
  - unfold builds. rewrite new_list_run, <- app_assoc.
    do 3 eexists. split; [reflexivity|]. split; [|lia].
    rewrite lookup_app_r by lia.
    replace (S (S (length h)) - length h)%nat with 2%nat by lia. reflexivity.
  - unfold builds. rewrite new_gen_run, <- app_assoc.
    do 3 eexists. split; [reflexivity|]. split; [|lia].
    rewrite lookup_app_r by lia.
    replace (S (S (length h)) - length h)%nat with 2%nat by lia. reflexivity.
Qed.

Lemma builds_wrap o (h : heap) :
  builds (let* f := alloc o in ChainIt.new (IterRef f)) h.
Proof. apply builds_alloc, builds_new_ref. rewrite length_app. simpl. lia. Qed.

Lemma builds_iter_then (K : ref -> obj) (h : heap) x :
  match x with IterRef t => (t < length h)%nat | _ => True end ->
  builds (bind (builtin_iter x)
            (fun ib => let* f := alloc (K ib) in ChainIt.new (IterRef f))) h.
Proof.
  intros Hx. destruct x as [l|f|t].
  - change (builtin_iter (IterList l)) with (alloc (ListIter l)).
    apply builds_alloc, builds_wrap.
  - change (builtin_iter (IterGen f)) with (alloc (GenFun f 0)).
    apply builds_alloc, builds_wrap.
  - destruct (lookup_lt_is_Some_2 h t Hx) as [o E].
    unfold builds. rewrite (bind_iter_ref _ _ _ _ E). apply builds_wrap.
Qed.

(** No chaining method and no construction pulls an element or changes an
    object that exists: each returns a new instance and only adds cells to
    the store.  The instance chained on is left as it was, and nothing
    marks it as used. *)
Theorem chaining_is_lazy (h : heap) self cls it (fn : callable)
  (other : iterable) (n : Z)
  (Hself : h !! self = Some (Instance cls it))
  (Hother : match other with IterRef t => (t < length h)%nat | _ => True end)
  (Hn : 0 <= n <= sys_maxsize) :
  builds (ChainIt.enumerate self) h
  /\ builds (ChainIt.filter self fn) h
  /\ builds (ChainIt.filter_map self fn) h
  /\ builds (ChainIt.flat_map self fn) h
  /\ builds (ChainIt.map self fn) h
  /\ builds (ChainIt.take self n) h
  /\ builds (ChainIt.take_while self fn) h
  /\ builds (ChainIt.zip self other) h
  /\ builds (ChainIt.zip_longest self other) h
  /\ builds (ChainIt.new other) h.
Proof.
  repeat split.
  - unfold builds, ChainIt.enumerate, builtin_enumerate.
    rewrite bind_assoc, (bind_iter_ref _ _ _ _ Hself). apply builds_wrap.
  - unfold builds, ChainIt.filter. rewrite (bind_get_iter _ _ _ _ _ Hself).
    apply builds_wrap.
  - unfold builds. rewrite (filter_map_run _ _ _ _ _ Hself). apply builds_wrap.
  - unfold builds, ChainIt.flat_map. rewrite (bind_get_iter _ _ _ _ _ Hself).
    apply builds_alloc, builds_wrap.
  - unfold builds. rewrite (map_run _ _ _ _ _ Hself). apply builds_wrap.
  - unfold builds. rewrite (take_run _ _ _ _ _ Hself Hn). apply builds_wrap.
  - unfold builds, ChainIt.take_while. rewrite (bind_get_iter _ _ _ _ _ Hself).
    apply builds_wrap.
  - unfold builds, ChainIt.zip, builtin_zip.
    rewrite (bind_iter_ref _ _ _ _ Hself), bind_assoc,
      (bind_iter_ref _ _ _ _ Hself), bind_assoc.
    apply (builds_iter_then (fun ib => ZipObj self ib) h other Hother).
  - unfold builds, ChainIt.zip_longest, itertools_zip_longest.
    rewrite (bind_iter_ref _ _ _ _ Hself), bind_assoc,
      (bind_iter_ref _ _ _ _ Hself), bind_assoc.
    apply (builds_iter_then
             (fun ib => ZipLongestObj (Some self) (Some ib) 2) h other Hother).
  - apply builds_new, Hother.
Qed.

Lemma chaining_is_lazy_witness :
  builds (ChainIt.map 2 (fun v => Ok (VTuple [v])))
    [ListIter [VInt 1; VInt 5]; GenExpr 0 false; Instance KChainIt 1]
  /\ builds (ChainIt.zip 2 (IterRef 2))
       [ListIter [VInt 1; VInt 5]; GenExpr 0 false; Instance KChainIt 1].
Proof.
  assert (Hn : 0 <= 1 <= sys_maxsize) by (unfold sys_maxsize; lia).
  assert (Ht : (2 < 3)%nat) by lia.
  pose proof (chaining_is_lazy
                [ListIter [VInt 1; VInt 5]; GenExpr 0 false; Instance KChainIt 1]
                2 KChainIt 1 (fun v => Ok (VTuple [v])) (IterRef 2) 1
                eq_refl Ht Hn) as H.
  split; [apply H | apply H].
Defined.

(** ** From the constructor and the decorator to [collect] *)

Lemma Drain_listiter l : forall (pre suf : heap) g,
  g = length pre ->
  Drain g (pre ++ ListIter l :: suf) l (pre ++ ListIter [] :: suf).
Proof.
  induction l as [|x l IH]; intros pre suf g Hg.
  - constructor. apply Next_listiter_nil, Hg.
  - econstructor; [apply Next_listiter_cons, Hg | apply IH, Hg].
Qed.

Lemma new_list_drain (h : heap) l :
  exists r h1 it h0,
    ChainIt.new (IterList l) h = Some (Ok r, h1)
    /\ h1 !! r = Some (Instance KChainIt it) /\ Drain it h1 l h0.
Proof.
  exists (S (S (length h))). eexists. exists (S (length h)). eexists.
  split; [apply new_list_run|]. split.
  - rewrite lookup_app_r by (rewrite length_app; simpl; lia).
    rewrite length_app. simpl.
    replace (S (S (length h)) - (length h + 1))%nat with 1%nat by lia.
    reflexivity.
  - apply Drain_genexpr;
      [apply Drain_listiter; reflexivity | rewrite length_app; simpl; lia].
Qed.

(** An instance made from a container gives back the elements of the
    container, in order: [ChainIt(l).collect()] is [tuple(l)],
    [ChainIt(l).collect_list()] is [list(l)], and [ChainIt(l).nth(i)] is
    [l[i]] for an index within [l] ([None] outside). *)
Theorem new_collect_roundtrip (h : heap) (l : list value) (i : nat) :
  exists fuel,
    (exists h', (let* c := ChainIt.new (IterList l) in ChainIt.collect fuel c) h
                = Some (Ok (VTuple l), h'))
    /\ (exists h', (let* c := ChainIt.new (IterList l) in
                    ChainIt.collect_list fuel c) h
                   = Some (Ok (VList l), h'))
    /\ (exists h', (let* c := ChainIt.new (IterList l) in
                    ChainIt.nth fuel c (Z.of_nat i)) h
                   = Some (Ok (List.nth i l VNone), h')).
Proof.
  destruct (new_list_drain h l) as (r & h1 & it & h0 & Hnew & Hr & Hd).
  destruct (drain_of_Drain _ _ _ _ Hd) as [f1 H1].
  destruct (nth_loop_of_Drain it h1 l h0 Hd 0 (Z.of_nat i) ltac:(lia))
    as (f2 & h2 & H2).
  exists (Nat.max f1 f2). repeat split.
  - exists h0. unfold bind at 1. rewrite Hnew.
    unfold ChainIt.collect, bind. rewrite (get_iter_eq _ _ _ _ Hr).
    rewrite (drain_mono f1 _ (Nat.le_max_l f1 f2) it _ _ H1). reflexivity.
  - exists h0. unfold bind at 1. rewrite Hnew.
    unfold ChainIt.collect_list, bind. rewrite (get_iter_eq _ _ _ _ Hr).
    rewrite (drain_mono f1 _ (Nat.le_max_l f1 f2) it _ _ H1). reflexivity.
  - exists h2. unfold bind at 1. rewrite Hnew.
    unfold ChainIt.nth.
    replace (Z.of_nat i <? 0) with false by (symmetry; apply Z.ltb_ge; lia).
    unfold bind. rewrite (get_iter_eq _ _ _ _ Hr).
    rewrite (nth_loop_mono f2 _ (Nat.le_max_r f1 f2) it _ _ _ _ H2).
    rewrite Z.sub_0_r, Nat2Z.id. reflexivity.
Qed.

(** A function decorated with [chainit] returns an instance over what the
    function returns: collecting it gives the elements of the returned
    container.  When the function raises, the decorated one raises the same
    exception and makes no instance; so does the one decorated with
    [chainiter]. *)
Theorem decorator_collect {Args : Type} (fn : Args -> res iterable) args
  (h : heap) :
  (forall l, fn args = Ok (IterList l) ->
     exists fuel h',
       (let* c := chainit fn args in ChainIt.collect fuel c) h
       = Some (Ok (VTuple l), h'))
  /\ (forall e, fn args = Raise e ->
        chainit fn args h = Some (Raise e, h)
        /\ chainiter fn args h = Some (Raise e, h)).
Proof.
  split.
  - intros l Hfn.
    destruct (new_list_drain h l) as (r & h1 & it & h0 & Hnew & Hr & Hd).
    destruct (collect_of_Drain _ _ _ _ _ _ Hr Hd) as [fuel Hc].
    exists fuel, h0. unfold chainit. unfold bind at 1, bind at 1, lift.
    rewrite Hfn, Hnew. exact Hc.
  - intros e Hfn. unfold chainit, chainiter, bind, lift. rewrite Hfn.
    split; reflexivity.
Qed.

Lemma decorator_collect_witness :
  (exists fuel h',
     (let* c := chainit (fun n : nat => if Nat.eqb n 0 then Raise ValueError
                                        else Ok (IterList (range n)))
                  3%nat in
      ChainIt.collect fuel c) []
     = Some (Ok (VTuple [VInt 0; VInt 1; VInt 2]), h'))
  /\ chainit (fun n : nat => if Nat.eqb n 0 then Raise ValueError
                             else Ok (IterList (range n)))
       0%nat [] = Some (Raise ValueError, []).
Proof.
  split.
  - exact (proj1 (decorator_collect
                    (fun n : nat => if Nat.eqb n 0 then Raise ValueError
                                    else Ok (IterList (range n)))
                    3%nat []) [VInt 0; VInt 1; VInt 2] eq_refl).
  - exact (proj1 (proj2 (decorator_collect
                    (fun n : nat => if Nat.eqb n 0 then Raise ValueError
                                    else Ok (IterList (range n)))
                    0%nat []) ValueError eq_refl)).
Defined.

(** ** [flat_map] of a result that cannot be iterated over *)

Lemma Pulls_chain_items src suf (pre : heap) g l : g = length pre ->
  forall ys hm a final,
  Pulls g (pre ++ ChainObj (Some src) None :: suf) ys hm -> Next g hm a final ->
  exists hm',
    Pulls g (pre ++ ChainObj (Some src) (Some l) :: suf) (l ++ ys) hm'
    /\ Next g hm' a final.
Proof.
  intros Hg ys hm a final Hp Hl. induction l as [|x l IH].
  - eapply Pulls_head_swap; [|exact Hp | exact Hl].
    intros b hb. apply Next_chain_inner_done, Hg.
  - destruct IH as (hm' & Hp' & Hl'). exists hm'. split; [|exact Hl'].
    simpl. econstructor; [apply Next_chain_item, Hg | exact Hp'].
Qed.

Lemma Pulls_chain_then src suf vs : forall (pre pre1 : heap) g a final,
  Pulls src pre vs pre1 -> g = length pre ->
  forallb iterable_value vs = true ->
  Next g (pre1 ++ ChainObj (Some src) None :: suf) a final ->
  exists hm,
    Pulls g (pre ++ ChainObj (Some src) None :: suf)
      (List.concat (List.map items vs)) hm
    /\ Next g hm a final.
Proof.
  intros pre pre1 g a final H.
  induction H as [h|h v h1 vs h' Hn _ IH]; intros Hg Hi Hlast.
  - eexists. split; [constructor | exact Hlast].
  - simpl in Hi |- *. apply andb_prop in Hi as [Hv Hi].
    assert (Hg1 : g = length h1) by (rewrite (Next_length _ _ _ _ Hn); exact Hg).
    destruct (IH Hg1 Hi Hlast) as (hm & Hp & Hl).
    unfold iterable_value in Hv. unfold items at 1.
    destruct (iter_value v) as [l|] eqn:Ev; [|discriminate Hv].
    destruct (Pulls_chain_items src suf h1 g l Hg1 _ _ _ _ Hp Hl)
      as (hm' & Hp' & Hl').
    eapply Pulls_head_swap; [|exact Hp' | exact Hl'].
    intros b hb Hb. eapply (Next_chain_fetch h suf g Hg); eassumption.
Qed.

Lemma flat_map_run (h : heap) self cls it fn :
  h !! self = Some (Instance cls it) ->
  ChainIt.flat_map self fn h
  = (let* f := alloc (ChainObj (Some (length h)) None) in ChainIt.new (IterRef f))
      (h ++ [MapObj fn it]).
Proof.
  intros E. unfold ChainIt.flat_map. unfold bind at 1.
  rewrite (get_iter_eq _ _ _ _ E). reflexivity.
Qed.

(** The function given to [flat_map] returns, on an element [x], a value
    that cannot be iterated over (a number, [None]).  Collecting the new
    instance raises [TypeError], also when the elements before [x] gave
    results; the new instance is finished, and the elements after [x] are
    still in the instance it was made from. *)
Theorem flat_map_not_iterable (h : heap) self fn before x after v fuel0 h0
  (Hcollect : ChainIt.collect fuel0 self h
              = Some (Ok (VTuple (before ++ x :: after)), h0))
  (Htotal : total_on fn before = true)
  (Hbefore : forallb iterable_value (values_of fn before) = true)
  (Hx : fn x = Ok v)
  (Hv : iterable_value v = false) :
  exists fuel m h1 h2 h3,
    ChainIt.flat_map self fn h = Some (Ok m, h1)
    /\ ChainIt.collect fuel m h1 = Some (Raise TypeError, h2)
    /\ ChainIt.collect fuel m h2 = Some (Ok (VTuple []), h2)
    /\ ChainIt.collect fuel self h2 = Some (Ok (VTuple after), h3).
Proof.
  destruct (collect_inv _ _ _ _ _ Hcollect) as (cls & it & E & Hd).
  destruct (Drain_app_inv _ _ _ _ _ Hd) as (hA & Hp & Hd1).
  inversion Hd1 as [|? ? hB ? ? Hn Hrest]; subst.
  set (mo := MapObj fn it).
  pose proof (Pulls_length _ _ _ _ Hp) as HlA.
  pose proof (Next_length _ _ _ _ Hn) as HlB.
  assert (Hsh : same_shape (h ++ [mo]) (hB ++ [mo])).
  { eapply same_shape_trans;
      [eapply Pulls_same_shape, Pulls_frame, Hp
      | eapply Next_same_shape, Next_frame, Hn]. }
  pose proof (Pulls_map fn it [] before h hA (length h) Hp eq_refl Htotal) as Hpm.
  pose proof (Next_map_ok hA [] (length h) (eq_sym HlA) fn it x hB Hn) as Hnm.
  rewrite Hx in Hnm. fold mo in Hpm, Hnm.
  assert (Hlo : length (h ++ [mo]) = S (length h))
    by (rewrite length_app, Nat.add_1_r; reflexivity).
  assert (HloA : length (hA ++ [mo]) = S (length h))
    by (rewrite length_app, Nat.add_1_r, HlA; reflexivity).
  unfold iterable_value in Hv.
  destruct (iter_value v) as [l|e] eqn:Ev; [discriminate Hv|].
  assert (e = TypeError) as -> by (destruct v; simpl in Ev; congruence).
  pose proof (Next_chain_not_iterable (hA ++ [mo]) [] (S (length h))
                (eq_sym HloA) (length h) v TypeError (hB ++ [mo]) Hnm Ev) as Hlast.
  destruct (Pulls_chain_then (length h) [] (values_of fn before) (h ++ [mo])
              (hA ++ [mo]) (S (length h)) _ _ Hpm (eq_sym Hlo) Hbefore Hlast)
    as (hm & Hpc & Hnc).
  rewrite <- Hlo in Hpc, Hnc.
  destruct (chained_raises (h ++ [mo]) hm (hB ++ [mo]) (h0 ++ [mo])
              (ChainObj (Some (length h)) None) (ChainObj None None) self cls it
              _ TypeError after (lookup_app_l_Some _ _ _ _ E) Hsh Hpc Hnc
              (Drain_frame _ _ _ _ _ Hrest))
    as (fuel & m & h1 & h2 & h3 & Hw & H1 & H2 & H3).
  exists fuel, m, h1, h2, h3. rewrite (flat_map_run _ _ _ _ _ E).
  split; [exact Hw|]. split; [exact H1|]. split; [exact H2 | exact H3].
Qed.

Lemma flat_map_not_iterable_witness :
  exists fuel m h1 h2 h3,
    ChainIt.flat_map 2 (fun v => Ok v)
      [ListIter [VStr "ab"; VInt 5; VStr "c"]; GenExpr 0 false;
       Instance KChainIt 1]
    = Some (Ok m, h1)
    /\ ChainIt.collect fuel m h1 = Some (Raise TypeError, h2)
    /\ ChainIt.collect fuel m h2 = Some (Ok (VTuple []), h2)
    /\ ChainIt.collect fuel 2 h2 = Some (Ok (VTuple [VStr "c"]), h3).
Proof.
  exact (flat_map_not_iterable
           [ListIter [VStr "ab"; VInt 5; VStr "c"]; GenExpr 0 false;
            Instance KChainIt 1]
           2 (fun v => Ok v) [VStr "ab"] (VInt 5) [VStr "c"] (VInt 5) 10
           [ListIter []; GenExpr 0 true; Instance KChainIt 1]
           eq_refl eq_refl eq_refl eq_refl eq_refl).
Defined.

(** ** Pipelines over a generator that never ends *)

Lemma Pulls_enumerate a suf xs : forall (pre pre' : heap) count g,
  Pulls a pre xs pre' -> g = length pre ->
  Pulls g (pre ++ EnumerateObj a count :: suf) (enumerate_from count xs)
    (pre' ++ EnumerateObj a (count + Z.of_nat (length xs)) :: suf).
Proof.
  intros pre pre' count g H. revert count.
  induction H as [h|h x h1 xs h' Hn _ IH]; intros count Hg.
  - simpl. rewrite Z.add_0_r. constructor.
  - simpl enumerate_from. econstructor.
    + apply Next_enumerate_ok; [exact Hg | exact Hn].
    + replace (count + Z.of_nat (length (x :: xs)))
        with (count + 1 + Z.of_nat (length xs)) by (simpl length; lia).
      apply IH. rewrite (Next_length _ _ _ _ Hn). exact Hg.
Qed.

Lemma values_of_pure f xs : values_of (pure f) xs = List.map f xs.
Proof. induction xs as [|x xs IH]; simpl; [|rewrite IH]; reflexivity. Qed.

Lemma length_enumerate_from xs : forall c,
  length (enumerate_from c xs) = length xs.
Proof. induction xs as [|x xs IH]; intros c; simpl; [|rewrite IH]; reflexivity. Qed.

Lemma length_denote_all ops : forall xs,
  forallb one_to_one ops = true -> length (denote_all ops xs) = length xs.
Proof.
  induction ops as [|op ops IH]; intros xs H; [reflexivity|].
  simpl in H. apply andb_prop in H as [Hop H]. simpl. rewrite (IH _ H).
  destruct op; try discriminate Hop; simpl.
  - apply length_enumerate_from.
  - apply length_map.
Qed.

Lemma gives_wrap (h pre' : heap) o ys :
  Pulls (length h) (h ++ [o]) ys pre' ->
  exists r H1,
    (let* f := alloc o in ChainIt.new (IterRef f)) h = Some (Ok r, H1)
    /\ gives H1 r ys.
Proof.
  intros Hp. eexists. eexists. split; [apply wrap_run|].
  exists KChainIt, (S (length h)). eexists. split.
  - replace (S (S (length h))) with (S (length (h ++ [o])))
      by (rewrite length_app; simpl; lia).
    replace (Instance KChainIt (S (length h)))
      with (Instance KChainIt (length (h ++ [o])))
      by (rewrite length_app; simpl; f_equal; lia).
    apply wrapped_lookup_self.
  - apply Pulls_genexpr; [exact Hp | rewrite length_app; simpl; lia].
Qed.

Lemma gives_step (h : heap) self op xs :
  gives h self xs -> one_to_one op = true ->
  exists r H1,
    apply_chain chainit_package [] self (chain_op_of op) h = Some (Ok r, H1)
    /\ gives H1 r (denote op xs).
Proof.
  intros (cls & it & h1 & E & Hp) Hop.
  destruct op as [|p|f|f|f|n|p]; try discriminate Hop; simpl.
  - destruct (gives_wrap _ _ _ _
                (Pulls_enumerate self [] xs h h1 0 (length h)
                   (Pulls_at_instance _ _ _ _ _ _ E Hp) eq_refl))
      as (r & H1 & Hrun & Hr).
    exists r, H1. split; [|exact Hr].
    unfold ChainIt.enumerate, builtin_enumerate.
    rewrite bind_assoc, (bind_iter_ref _ _ _ _ E). exact Hrun.
  - pose proof (Pulls_map (pure f) it [] xs h h1 (length h) Hp eq_refl
                  (total_on_pure f xs)) as Hm.
    rewrite values_of_pure in Hm.
    destruct (gives_wrap _ _ _ _ Hm) as (r & H1 & Hrun & Hr).
    exists r, H1. split; [|exact Hr].
    rewrite (map_run _ _ _ _ _ E). exact Hrun.
Qed.

Lemma gives_all ops : forall (h : heap) self xs,
  gives h self xs -> forallb one_to_one ops = true ->
  exists r H1,
    chain_all ops self h = Some (Ok r, H1) /\ gives H1 r (denote_all ops xs).
Proof.
  induction ops as [|op ops IH]; intros h self xs Hg Hops.
  - exists self, h. split; [reflexivity | exact Hg].
  - simpl in Hops. apply andb_prop in Hops as [Hop Hops].
    destruct (gives_step h self op xs Hg Hop) as (s & H1 & Hrun & Hg1).
    destruct (IH H1 s _ Hg1 Hops) as (r & H2 & Hrun2 & Hg2).
    exists r, H2. split; [|exact Hg2].
    simpl. unfold bind. rewrite Hrun. exact Hrun2.
Qed.

(** [map] and [enumerate] work on a generator that never ends: they pull
    an element only when one is asked of them, so [take(n)] after any chain
    of them returns the results for the first [n] elements of the
    generator. *)
Theorem endless_pipeline (h : heap) (f : nat -> value) ops n
  (Hops : forallb one_to_one ops = true)
  (Hn : 0 <= n <= sys_maxsize) :
  exists fuel h',
    (let* s := ChainIt.new (IterGen f) in
     let* last := chain_all ops s in
     let* t := ChainIt.take last n in
     ChainIt.collect fuel t) h
    = Some (Ok (VTuple (denote_all ops (List.map f (seq 0 (Z.to_nat n))))), h').
Proof.
  set (xs := List.map f (seq 0 (Z.to_nat n))).
  assert (Hg : gives ((h ++ [GenFun f 0])
                        ++ [GenExpr (length h) false;
                            Instance KChainIt (S (length h))])
                 (S (S (length h))) xs).
  { exists KChainIt, (S (length h)). eexists. split.
    - replace (S (S (length h))) with (S (length (h ++ [GenFun f 0])))
        by (rewrite length_app; simpl; lia).
      replace (Instance KChainIt (S (length h)))
        with (Instance KChainIt (length (h ++ [GenFun f 0])))
        by (rewrite length_app; simpl; f_equal; lia).
      apply wrapped_lookup_self.
    - apply Pulls_new_gen. }
  destruct (gives_all ops _ _ _ Hg Hops) as (r & H1 & Hrun & Hr).
  destruct Hr as (cls & it & h1 & E & Hp).
  destruct (take_collect_pulls H1 r cls it n _ h1 E Hn Hp) as (fuel & h' & Hc).
  - rewrite (length_denote_all ops _ Hops). unfold xs.
    rewrite length_map, length_seq. lia.
  - exists fuel, h'. unfold bind at 1. rewrite new_gen_run.
    unfold bind at 1. rewrite Hrun. exact Hc.
Qed.

Lemma endless_pipeline_witness :
  exists fuel h',
    (let* s := ChainIt.new (IterGen (fun i => VInt (Z.of_nat i))) in
     let* last := chain_all [PMap (fun v => VTuple [v]); PEnumerate] s in
     let* t := ChainIt.take last 2 in
     ChainIt.collect fuel t) []
    = Some (Ok (VTuple [VTuple [VInt 0; VTuple [VInt 0]];
                        VTuple [VInt 1; VTuple [VInt 1]]]), h').
Proof.
  refine (endless_pipeline [] (fun i => VInt (Z.of_nat i))
            [PMap (fun v => VTuple [v]); PEnumerate] 2 eq_refl _).
  unfold sys_maxsize. lia.
Defined.
